(** * Enron e-mail network: edge extraction and time-series similarity

    A shallow embedding of

    - the edge extraction loop of [Enron-read.ipynb] (cell 5), over Python
      strings, the three compiled regular expressions and the growing
      [links] table;
    - [compareTimeSeries] (both overloads), [pearsonCorrelation] and the
      small utilities of [ch.epfl.lts2.Utils], over Scala's
      [Map[Int, Double]] with IEEE 754 binary64 arithmetic.

    Python [str] is embedded as [string] (code points below 256), Scala's
    [Double] as the primitive binary64 [float], and Scala's immutable
    [Map[Int, Double]] as the list of its entries in the order its iterator
    yields them: the sums of the Scala code are binary64 sums, which depend
    on the order of their terms. *)

From Stdlib Require Import ZArith Ascii String List Bool Lia.
From Stdlib Require Import Floats.
From Stdlib Require Uint63.
From stdpp Require Import list sorting.

Local Open Scope string_scope.
Local Open Scope list_scope.

(** ** Python strings *)

Module PyStr.

(** The line feed, ['\n']. *)
Definition LF : ascii := "010"%char.
Definition nl : string := String LF EmptyString.

(** [c in s] for a one-character [c]. *)
Fixpoint contains (c : ascii) (s : string) : bool :=
  match s with
  | EmptyString => false
  | String a s' => if Ascii.eqb a c then true else contains c s'
  end.

(** [s.replace(old, new)] for a non-empty [old]: the occurrences of [old]
    are found from left to right and do not overlap.  [skip] counts the
    characters of an occurrence that are still to be passed over. *)
Fixpoint replace_go (old new s : string) (skip : nat) : string :=
  match s with
  | EmptyString => EmptyString
  | String c s' =>
      match skip with
      | S n => replace_go old new s' n
      | O =>
          if String.prefix old s
          then new ++ replace_go old new s' (String.length old - 1)
          else String c (replace_go old new s' 0)
      end
  end.

Definition replace (old new s : string) : string := replace_go old new s 0.

(** [s.split(sep)] for a non-empty [sep]; the result is never empty and its
    head is the piece being read. *)
Fixpoint split_go (sep s : string) (skip : nat) : list string :=
  match s with
  | EmptyString => [EmptyString]
  | String c s' =>
      match skip with
      | S n => split_go sep s' n
      | O =>
          if String.prefix sep s
          then EmptyString :: split_go sep s' (String.length sep - 1)
          else match split_go sep s' 0 with
               | piece :: pieces => String c piece :: pieces
               | [] => [String c EmptyString]
               end
      end
  end.

Definition split (sep s : string) : list string := split_go sep s 0.

End PyStr.

(** ** The regular expressions of cell 5

    Python's [re] is a backtracking matcher: a greedy quantifier tries the
    longest repetition first, a lazy one the shortest, and the first
    alternative that lets the rest of the pattern match wins.  The three
    patterns only repeat single character classes, so a pattern is a
    sequence of items. *)

Module Re.

Inductive cclass : Type :=
| CChar (c : ascii)   (* a literal character, also an escaped one: [\.] *)
| CSpace              (* [\s] *)
| CWord               (* [\w] *)
| CDot.               (* [.], anything but a line feed *)

Inductive item : Type :=
| Lit (s : string)     (* literal text *)
| One (c : cclass)     (* c *)
| Opt (c : cclass)     (* (c)? *)
| Star (c : cclass)    (* (c)* *)
| Plus (c : cclass)    (* (c)+ *)
| Lazy (c : cclass).   (* (c*?) *)

Definition in_range (lo hi n : nat) : bool := (lo <=? n)%nat && (n <=? hi)%nat.

(** [\s] on a [str] pattern: [str.isspace] ([\t\n\v\f\r], U+001C..U+001F,
    the space, U+0085 and U+00A0 below 256). *)
Definition is_space (a : ascii) : bool :=
  let n := nat_of_ascii a in
  in_range 9 13 n || in_range 28 31 n || (n =? 32)%nat || (n =? 133)%nat
  || (n =? 160)%nat.

(** [\w] on a [str] pattern: [str.isalnum] or the underscore.  Below 256
    the alphanumerics are the ASCII letters and digits and the Latin-1
    letters, superscript digits and vulgar fractions. *)
Definition is_word (a : ascii) : bool :=
  let n := nat_of_ascii a in
  in_range 48 57 n || in_range 65 90 n || in_range 97 122 n || (n =? 95)%nat
  || (n =? 170)%nat || (n =? 178)%nat || (n =? 179)%nat || (n =? 181)%nat
  || (n =? 185)%nat || (n =? 186)%nat || in_range 188 190 n
  || in_range 192 214 n || in_range 216 246 n || in_range 248 255 n.

Definition cls (c : cclass) (a : ascii) : bool :=
  match c with
  | CChar x => Ascii.eqb a x
  | CSpace => is_space a
  | CWord => is_word a
  | CDot => negb (Ascii.eqb a PyStr.LF)
  end.

(** [strip l s]: [s] without its prefix [l], if it has it. *)
Fixpoint strip (l s : string) : option string :=
  match l with
  | EmptyString => Some s
  | String x l' =>
      match s with
      | String a s' => if Ascii.eqb a x then strip l' s' else None
      | EmptyString => None
      end
  end.

(** Matchers return what is left of the subject after the match. *)
Fixpoint star_greedy (c : cclass) (k : string -> option string) (s : string)
  : option string :=
  match s with
  | String a s' =>
      if cls c a
      then match star_greedy c k s' with
           | Some rest => Some rest
           | None => k s
           end
      else k s
  | EmptyString => k s
  end.

Fixpoint star_lazy (c : cclass) (k : string -> option string) (s : string)
  : option string :=
  match k s with
  | Some rest => Some rest
  | None =>
      match s with
      | String a s' => if cls c a then star_lazy c k s' else None
      | EmptyString => None
      end
  end.

Fixpoint match_here (p : list item) (s : string) : option string :=
  match p with
  | [] => Some s
  | Lit l :: p' =>
      match strip l s with
      | Some s' => match_here p' s'
      | None => None
      end
  | One c :: p' =>
      match s with
      | String a s' => if cls c a then match_here p' s' else None
      | EmptyString => None
      end
  | Opt c :: p' =>
      match s with
      | String a s' =>
          if cls c a
          then match match_here p' s' with
               | Some rest => Some rest
               | None => match_here p' s
               end
          else match_here p' s
      | EmptyString => match_here p' s
      end
  | Star c :: p' => star_greedy c (match_here p') s
  | Plus c :: p' =>
      match s with
      | String a s' => if cls c a then star_greedy c (match_here p') s' else None
      | EmptyString => None
      end
  | Lazy c :: p' => star_lazy c (match_here p') s
  end.

(** [pattern.search(s)], reduced to what cell 5 reads of the match object:
    [None], or the matched text [m.group()] of the leftmost match. *)
Fixpoint search (p : list item) (s : string) : option string :=
  match match_here p s with
  | Some rest => Some (substring 0 (String.length s - String.length rest) s)
  | None =>
      match s with
      | String _ s' => search p s'
      | EmptyString => None
      end
  end.

End Re.

(** ** Cell 5: the edge extraction loop *)

(** [re.compile(r'From:\s(\w)+(\.)?(\w)*@(\w)+.com')] *)
Definition fromRegex : list Re.item :=
  [Re.Lit "From:"; Re.One Re.CSpace; Re.Plus Re.CWord; Re.Opt (Re.CChar ".");
   Re.Star Re.CWord; Re.One (Re.CChar "@"); Re.Plus Re.CWord; Re.One Re.CDot;
   Re.Lit "com"].

(** [re.compile(r'To:\s(\w)+(\.)?(\w)*@(\w)+.com(.*?)\n')] *)
Definition toRegex : list Re.item :=
  [Re.Lit "To:"; Re.One Re.CSpace; Re.Plus Re.CWord; Re.Opt (Re.CChar ".");
   Re.Star Re.CWord; Re.One (Re.CChar "@"); Re.Plus Re.CWord; Re.One Re.CDot;
   Re.Lit "com"; Re.Lazy Re.CDot; Re.One (Re.CChar PyStr.LF)].

(** [re.compile(r'Date:\s(.*?)\n')] *)
Definition dateRegex : list Re.item :=
  [Re.Lit "Date:"; Re.One Re.CSpace; Re.Lazy Re.CDot; Re.One (Re.CChar PyStr.LF)].

(** A row of the [links] table, columns [Date], [From], [To]. *)
Record Edge : Type := mkEdge { Date : string; From : string; To : string }.

(** The exceptions the loop can raise on a table of strings:
    [date.group()] on [None]. *)
Inductive exn : Type := AttributeError.

Inductive result (A : Type) : Type :=
| Ok (a : A)
| Raise (e : exn).
Arguments Ok {A} a.
Arguments Raise {A} e.

#[export] Instance result_ret : MRet result := fun A a => Ok a.

#[export] Instance result_bind : MBind result := fun A B f r =>
  match r with
  | Ok a => f a
  | Raise e => Raise e
  end.

(** The state the loop threads: the table and the next row label. *)
Record frame : Type := mkFrame { links : list Edge; links_index : nat }.

(** [links.loc[i] = row] on a table labelled [0 .. len-1]: label [i] is
    overwritten when present, and the table is enlarged by a row otherwise. *)
Definition loc_set (rows : list Edge) (i : nat) (row : Edge) : list Edge :=
  if (i <? length rows)%nat then <[i := row]> rows else rows ++ [row].

(** [links.loc[links_index] = [date, m_from, address]; links_index += 1] *)
Definition add_link (date m_from address : string) (st : frame) : frame :=
  {| links := loc_set (links st) (links_index st) (mkEdge date m_from address);
     links_index := links_index st + 1 |}.

(** One iteration of [for i in range(len(data))] on [data['message'][i]]. *)
Definition loop_body (st : frame) (message : string) : result frame :=
  let mf := Re.search fromRegex message in
  let me := Re.search toRegex message in
  let date := Re.search dateRegex message in
  match mf, me with
  | Some mf_group, Some me_group =>
      match date with
      | None => Raise AttributeError
      | Some date_group =>
          let date :=
            PyStr.replace PyStr.nl "" (PyStr.replace "Date: " "" date_group) in
          let m_from := PyStr.replace "From: " "" mf_group in
          let m_to :=
            PyStr.replace PyStr.nl "" (PyStr.replace "To: " "" me_group) in
          if PyStr.contains "," m_to
          then
            let addresses := PyStr.split ", " m_to in
            Ok (fold_left
                  (fun st address =>
                     if String.eqb address "" then st
                     else add_link date m_from address st)
                  addresses st)
          else Ok (add_link date m_from m_to st)
      end
  | _, _ => Ok st
  end.

Fixpoint loop (data : list string) (st : frame) : result frame :=
  match data with
  | [] => Ok st
  | message :: data' => st' ← loop_body st message; loop data' st'
  end.

(** Cells 4 and 5: the table starts empty, and the loop fills it. *)
Definition build (data : list string) : result (list Edge) :=
  st ← loop data {| links := []; links_index := 0 |}; mret (links st).

(** *** The loop, read per message

    What §4.1 and §4.2 of the specification call HeaderExtractor and
    EdgeListBuilder, written as functions of one message; the theorems below
    relate them to [loop]. *)

(** [date.group().replace('Date: ', '').replace('\n', '')] *)
Definition clean_date (date_group : string) : string :=
  PyStr.replace PyStr.nl "" (PyStr.replace "Date: " "" date_group).

(** [mf.group().replace('From: ', '')] *)
Definition clean_from (mf_group : string) : string :=
  PyStr.replace "From: " "" mf_group.

(** [me.group().replace('To: ', '').replace('\n', '')] *)
Definition clean_to (me_group : string) : string :=
  PyStr.replace PyStr.nl "" (PyStr.replace "To: " "" me_group).

(** The recipient sequence: split on [", "] when a comma is present, a single
    recipient otherwise; empty entries of the split are discarded. *)
Definition recipients (m_to : string) : list string :=
  if PyStr.contains "," m_to
  then List.filter (fun address => negb (String.eqb address ""))
                   (PyStr.split ", " m_to)
  else [m_to].

(** [needle in hay] *)
Fixpoint occurs (needle hay : string) : bool :=
  if String.prefix needle hay then true
  else match hay with
       | EmptyString => false
       | String _ hay' => occurs needle hay'
       end.

(** The header line [To: a@x.com, b@x.com, c@x.com], with its line feed. *)
Definition to_line_abc : string :=
  ("To: a@x.com, b@x.com, c@x.com" ++ PyStr.nl)%string.

(** The rows one message contributes, in order. *)
Definition edges_of (message : string) : result (list Edge) :=
  match Re.search fromRegex message, Re.search toRegex message with
  | Some mf_group, Some me_group =>
      match Re.search dateRegex message with
      | None => Raise AttributeError
      | Some date_group =>
          Ok (map (mkEdge (clean_date date_group) (clean_from mf_group))
                  (recipients (clean_to me_group)))
      end
  | _, _ => Ok []
  end.

(** Source-message order, recipient order within each message. *)
Fixpoint edges_in_order (data : list string) : result (list Edge) :=
  match data with
  | [] => Ok []
  | message :: data' =>
      es ← edges_of message; rest ← edges_in_order data'; mret (es ++ rest)
  end.

(** [build(xs) ++ build(ys)]: an exception raised by either operand is the
    outcome. *)
Definition app_results (r1 r2 : result (list Edge)) : result (list Edge) :=
  a ← r1; b ← r2; mret (a ++ b).

(** The table after the rows [es] were added to it. *)
Definition extend (st : frame) (es : list Edge) : frame :=
  {| links := links st ++ es; links_index := links_index st + length es |}.

(** The labels of the table are [0 .. links_index - 1]. *)
Definition wf (st : frame) : Prop := links_index st = length (links st).

(** *** Sample messages *)

Definition lines (ls : list string) : string :=
  fold_right (fun l acc => (l ++ PyStr.nl ++ acc)%string) "" ls.

Definition msg_three : string :=
  lines ["Message-ID: <18782981.1075855378110.JavaMail.evans@thyme>";
         "Date: Mon, 14 May 2001 16:39:00 -0700 (PDT)";
         "From: phillip.allen@enron.com";
         "To: a@x.com, b@x.com, c@x.com";
         "Subject: forecast"; ""; "Here is our forecast"].

Definition msg_one : string :=
  lines ["Date: Fri, 4 May 2001 13:51:00 -0700 (PDT)";
         "From: phillip.allen@enron.com";
         "To: john.lavorato@enron.com";
         "Subject: Re:"; ""; "Traveling to have a business meeting"].

(** [From] and [To] parse, there is no [Date] line. *)
Definition msg_no_date : string :=
  lines ["From: a@x.com"; "To: b@x.com"; "Subject: undated"].

(** No [From] line. *)
Definition msg_no_from : string :=
  lines ["Date: Fri, 4 May 2001 13:51:00 -0700 (PDT)";
         "To: b@x.com"; "Subject: anonymous"].

(** The To line of [msg_three], after a [Reply-To] header. *)
Definition msg_reply : string :=
  lines ["Date: Mon, 14 May 2001 16:39:00 -0700 (PDT)";
         "From: phillip.allen@enron.com";
         "Reply-To: boss@enron.com";
         "To: a@x.com, b@x.com, c@x.com";
         "Subject: forecast"; ""; "Here is our forecast"].

(** A To line with an empty entry between two commas. *)
Definition msg_gap : string :=
  lines ["Date: Mon, 14 May 2001 16:39:00 -0700 (PDT)";
         "From: phillip.allen@enron.com";
         "To: a@x.com, , b@x.com";
         "Subject: forecast"].

(** ** JVM arithmetic on [Double] and [Int] *)

Local Open Scope float_scope.

Module Jvm.

(** The widening conversion of an [Int] to a [Double], which Scala inserts
    where an [Int] meets a [Double]. *)
Definition Int2Double (z : Z) : float :=
  if (z <? 0)%Z then - of_uint63 (Uint63.of_Z (- z))
  else of_uint63 (Uint63.of_Z z).

Definition is_neg_zero (x : float) : bool :=
  match classify x with
  | NZero => true
  | _ => false
  end.

(** [breeze.linalg.min] and [max] on two [Double]s are [scala.math.min] and
    [max], that is [java.lang.Math.min] and [max]: a NaN operand gives NaN
    and the negative zero is below the positive one. *)
Definition min (a b : float) : float :=
  if negb (a =? a) then a
  else if (a =? 0) && (b =? 0) && is_neg_zero b then b
  else if a <=? b then a else b.

Definition max (a b : float) : float :=
  if negb (a =? a) then a
  else if (a =? 0) && (b =? 0) && is_neg_zero a then b
  else if b <=? a then a else b.

(** Neither a zero, an infinity nor a NaN. *)
Definition finite_nonzero (x : float) : bool :=
  match classify x with
  | PNormal | NNormal | PSubn | NSubn => true
  | _ => false
  end.

End Jvm.

(** ** Time series: [Map[Int, Double]]

    A Scala immutable map is embedded as the list of its entries, in the
    order in which its iterator yields them: for the maps [Map(...)] builds,
    the insertion order up to four entries and the order of the hash trie
    above.  The keys of a map are distinct ([is_Map]).

    [keySet], [keys] and [values] iterate in the order of the map;
    [filter], [filterKeys] and [mapValues] keep the entries they keep in
    the order of the map they are taken from, and so do [intersect] and
    [filter] on a key set: [s.intersect(t)] is [s filter t], the elements
    of [s] that [t] holds, in the order of [s].  The loops and the sums
    below walk these collections in that order.  The keys are [Int]s; they
    are only compared, so [Z] stands for them as it is. *)

Abbreviation Map := (list (Z * float)) (only parsing).

(** The keys of a map are distinct. *)
Definition is_Map (m : Map) : Prop := NoDup m.*1.

(** [m.keySet], [m.keys] *)
Definition keySet (m : Map) : list Z := m.*1.

(** [m.values] *)
Definition values (m : Map) : list float := m.*2.

(** [m.get(key)] *)
Fixpoint get (m : Map) (key : Z) : option float :=
  match m with
  | [] => None
  | (k, v) :: m' => if decide (k = key) then Some v else get m' key
  end.

(** [m(key)].  Scala raises [NoSuchElementException] on an absent key; the
    functions below only apply a map to keys of its own key set (lemmas
    [apply_commonKeys] and [apply_common]), so the default is never read. *)
Definition apply (m : Map) (key : Z) : float := default nan (get m key).

(** [s.intersect(t)] *)
Definition intersect (s t : list Z) : list Z := filter (fun key => key ∈ t) s.

(** [xs.isEmpty] *)
Definition isEmpty {A : Type} (xs : list A) : bool :=
  match xs with
  | [] => true
  | _ :: _ => false
  end.

(** [var mFreq = 1; if (isFiltered) mFreq = count] *)
Definition Freq (isFiltered : bool) (count : Z) : Z :=
  if isFiltered then count else 1%Z.

(** [m.keys.size] *)
Definition keysSize (m : Map) : Z := Z.of_nat (length (keySet m)).

(** [for (key <- keys) body], threading the variable [weight]. *)
Definition foreach {A S : Type} (xs : list A) (init : S) (body : S → A → S) : S :=
  fold_left body xs init.

(** [compareTimeSeries(m1, m2, isFiltered)] *)
Definition compareTimeSeries (m1 m2 : Map) (isFiltered : bool) : float :=
  let commonKeys := intersect (keySet m2) (keySet m1) in
  let m1Freq := Freq isFiltered (keysSize m1) in
  let m2Freq := Freq isFiltered (keysSize m2) in
  if isEmpty commonKeys then Jvm.Int2Double 0
  else
    foreach commonKeys 0 (fun weight key =>
      let value1 := apply m1 key / Jvm.Int2Double m1Freq in
      let value2 := apply m2 key / Jvm.Int2Double m2Freq in
      let similarity := Jvm.min value1 value2 / Jvm.max value1 value2 in
      if 0.5 <? similarity then weight + similarity
      else weight - similarity).

(** [hour > start & hour < stop] *)
Definition inWindow (start stop hour : Z) : bool :=
  (start <? hour)%Z && (hour <? stop)%Z.

(** [m.filter(pair => pair._2 > upperBoundActivationsNumber)] *)
Definition aboveBound (upperBoundActivationsNumber : Z) (m : Map) : Map :=
  filter (fun pair => (Jvm.Int2Double upperBoundActivationsNumber <? pair.2) = true) m.

(** [keys.count(key => key > start & key < stop)] *)
Definition countInWindow (start stop : Z) (keys : list Z) : Z :=
  Z.of_nat (length (filter (fun key => inWindow start stop key = true) keys)).

(** [compareTimeSeries(m1, m2, start, stop, upperBoundActivationsNumber,
    isFiltered, lambda)] *)
Definition compareTimeSeries_window (m1 m2 : Map) (start stop : Z)
    (upperBoundActivationsNumber : Z) (isFiltered : bool) (lambda : float) : float :=
  let m1Filtered := aboveBound upperBoundActivationsNumber m1 in
  let m2Filtered := aboveBound upperBoundActivationsNumber m2 in
  let commonKeys :=
    filter (fun hour => inWindow start stop hour = true)
           (intersect (keySet m2Filtered) (keySet m1Filtered)) in
  let m1Freq := Freq isFiltered (countInWindow start stop (keySet m1Filtered)) in
  let m2Freq := Freq isFiltered (countInWindow start stop (keySet m2Filtered)) in
  if isEmpty commonKeys then Jvm.Int2Double 0
  else
    foreach commonKeys 0 (fun weight key =>
      let value1 := apply m1Filtered key / Jvm.Int2Double m1Freq in
      let value2 := apply m2Filtered key / Jvm.Int2Double m2Freq in
      let similarity := Jvm.min value1 value2 / Jvm.max value1 value2 in
      if lambda <? similarity then weight + similarity
      else weight + 0).

(** [0 until n by step] *)
Definition until_by (n step : nat) : list nat :=
  map (fun i => (i * step)%nat) (seq 0 ((n + step - 1) / step)).

(** [keys.slice(from, until)] *)
Definition slice {A : Type} (from until : nat) (xs : list A) : list A :=
  take (until - from) (drop from xs).

(** [m.values.sum] *)
Definition valuesSum (m : Map) : float :=
  fold_left PrimFloat.add (values m) 0.

Section Pearson.

(** [java.lang.Math.pow], which the JVM only promises to be within one ulp
    of the exact power: the development is parametric in it. *)
Variable Math_pow : float → float → float.

(** [m.values.foldLeft(0.0)(_ + Math.pow(_, 2))] *)
Definition valuesSumSq (m : Map) : float :=
  fold_left (fun acc v => acc + Math_pow v (Jvm.Int2Double 2)) (values m) 0.

(** [m.filterKeys(v => commonKeys_.contains(v)).mapValues(_ / mFreq)]: the
    entries of [m] whose key is in [commonKeys_], in the order of [m], each
    value divided by [mFreq]. *)
Definition common (m : Map) (commonKeys_ : list Z) (mFreq : Z) : Map :=
  (fun pair => (pair.1, pair.2 / Jvm.Int2Double mFreq))
    <$> filter (fun pair => pair.1 ∈ commonKeys_) m.

(** The body of [for (t <- 0 until commonKeys.size by 24)], threading
    [sum]. *)
Definition pearson_body (m1 m2 : Map) (commonKeys : list Z)
    (n m1Freq m2Freq : Z) (sum : float) (t : nat) : float :=
  let commonKeys_ := slice t (t + 24) commonKeys in
  let m1Common := common m1 commonKeys_ m1Freq in
  let m2Common := common m2 commonKeys_ m2Freq in
  let sum1 := valuesSum m1Common in
  let sum2 := valuesSum m2Common in
  let sum1Sq := valuesSumSq m1Common in
  let sum2Sq := valuesSumSq m2Common in
  let pSum :=
    fold_left (fun accum element =>
                 accum + apply m1Common element * apply m2Common element)
              commonKeys_ 0 in
  let numerator := pSum - (sum1 * sum2 / Jvm.Int2Double n) in
  let denominator :=
    PrimFloat.sqrt ((sum1Sq - Math_pow sum1 (Jvm.Int2Double 2) / Jvm.Int2Double n)
          * (sum2Sq - Math_pow sum2 (Jvm.Int2Double 2) / Jvm.Int2Double n)) in
  if denominator =? Jvm.Int2Double 0 then sum
  else sum + numerator / denominator.

(** [m2.keySet.intersect(m1.keySet).filter(hour => hour > start & hour <
    stop).toSeq.sorted] *)
Definition sortedCommonKeys (m1 m2 : Map) (start stop : Z) : list Z :=
  merge_sort Z.le
    (filter (fun hour => inWindow start stop hour = true)
            (intersect (keySet m2) (keySet m1))).

(** [pearsonCorrelation(m1, m2, start, stop, isFiltered)] *)
Definition pearsonCorrelation (m1 m2 : Map) (start stop : Z)
    (isFiltered : bool) : float :=
  let commonKeys := sortedCommonKeys m1 m2 start stop in
  let n := length commonKeys in
  if (n =? 0)%nat then 0
  else
    let m1Freq := Freq isFiltered (countInWindow start stop (keySet m1)) in
    let m2Freq := Freq isFiltered (countInWindow start stop (keySet m2)) in
    foreach (until_by (length commonKeys) 24) 0
            (pearson_body m1 m2 commonKeys (Z.of_nat n) m1Freq m2Freq).

End Pearson.

(** *** The three functions, read as sums

    The sums the specification describes (§4.3, §4.4), written on the keys
    and to be compared with the functions above. *)

(** [min(v1, v2) / max(v1, v2)] *)
Definition ratio (v1 v2 : float) : float := Jvm.min v1 v2 / Jvm.max v1 v2.

(** The common keys of [a] and [b], in the order in which [b] holds them. *)
Definition commonKeys_of (a b : Map) : list Z :=
  filter (fun key => key ∈ keySet a) (keySet b).

(** One step of the signed sum, on values divided by [aFreq] and [bFreq]: a
    ratio above 0.5 is added, any other is subtracted. *)
Definition normalised_step (a b : Map) (aFreq bFreq : Z) (total : float)
    (key : Z) : float :=
  let sim := ratio (apply a key / Jvm.Int2Double aFreq)
                   (apply b key / Jvm.Int2Double bFreq) in
  if 0.5 <? sim then total + sim else total - sim.

(** The unwindowed sum without normalisation. *)
Definition signed_step (a b : Map) (total : float) (key : Z) : float :=
  let sim := ratio (apply a key) (apply b key) in
  if 0.5 <? sim then total + sim else total - sim.

Definition signed_sum (a b : Map) : float :=
  fold_left (signed_step a b) (commonKeys_of a b) 0.

(** The windowed sum: a ratio above [lambda] is added, any other leaves the
    total as it is. *)
Definition thresholded_sum (a b : Map) (keys : list Z)
    (aFreq bFreq : Z) (lambda : float) : float :=
  fold_left (fun total key =>
               let sim := ratio (apply a key / Jvm.Int2Double aFreq)
                                (apply b key / Jvm.Int2Double bFreq) in
               if lambda <? sim then total + sim else total)
            keys 0.

(** Consecutive blocks of [size] keys. *)
Definition blocks (size : nat) (keys : list Z) : list (list Z) :=
  map (fun t => slice t (t + size) keys) (until_by (length keys) size).

Section PearsonTerm.

Variable Math_pow : float → float → float.

(** [Σ f(m(key) / mFreq)] over the keys of [m] that are in [block], in the
    order in which [m] holds them. *)
Definition block_sum (f : float → float) (m : Map) (mFreq : Z)
    (block : list Z) : float :=
  fold_left (fun acc key => acc + f (apply m key / Jvm.Int2Double mFreq))
            (filter (fun key => key ∈ block) (keySet m)) 0.

(** [Σ(v1·v2) − (Σv1·Σv2)/n] over the keys of [block], each value divided by
    the frequency of its series. *)
Definition numerator (m1 m2 : Map) (n m1Freq m2Freq : Z) (block : list Z)
  : float :=
  fold_left (fun accum key =>
               accum + (apply m1 key / Jvm.Int2Double m1Freq)
                       * (apply m2 key / Jvm.Int2Double m2Freq))
            block 0
  - (block_sum (fun v => v) m1 m1Freq block
     * block_sum (fun v => v) m2 m2Freq block / Jvm.Int2Double n).

(** [sqrt((Σv1² − (Σv1)²/n) · (Σv2² − (Σv2)²/n))] over the keys of
    [block]. *)
Definition denominator (m1 m2 : Map) (n m1Freq m2Freq : Z) (block : list Z)
  : float :=
  PrimFloat.sqrt
    ((block_sum (fun v => Math_pow v 2) m1 m1Freq block
      - Math_pow (block_sum (fun v => v) m1 m1Freq block) 2 / Jvm.Int2Double n)
     * (block_sum (fun v => Math_pow v 2) m2 m2Freq block
        - Math_pow (block_sum (fun v => v) m2 m2Freq block) 2 / Jvm.Int2Double n)).

(** What one block adds to the correlation: 0 when the denominator is 0. *)
Definition pearson_term (m1 m2 : Map) (n m1Freq m2Freq : Z)
    (block : list Z) : float :=
  if denominator m1 m2 n m1Freq m2Freq block =? 0 then 0
  else numerator m1 m2 n m1Freq m2Freq block
       / denominator m1 m2 n m1Freq m2Freq block.

End PearsonTerm.

(** *** Sample series *)

(** [Map(1 -> 2.0, 2 -> 4.0)] and so on: up to four entries, a map iterates
    in the order in which it was written. *)
Definition tsA : Map := [(1%Z, 2); (2%Z, 4)].
Definition tsB : Map := [(1%Z, 2); (2%Z, 2)].
Definition tsC : Map := [(7%Z, 3); (9%Z, 1)].
Definition tsZero : Map := [(1%Z, 0)].
Definition tsNaN : Map := [(1%Z, nan); (2%Z, 4)].

(** Two series on the keys 1, 2 and 3: [Map(3 -> 10.0, 2 -> 10.0,
    1 -> 10.0)] and [Map(1 -> 1.0, 2 -> 2.0, 3 -> 3.0)]. *)
Definition tsTens : Map := [(3%Z, 10); (2%Z, 10); (1%Z, 10)].
Definition tsRamp : Map := [(1%Z, 1); (2%Z, 2); (3%Z, 3)].

(** ** The other utilities of [ch.epfl.lts2.Utils] *)

(** [mean(m: Map[Int, Double])]: [m.values.sum / m.size] *)
Definition mean_Map (m : Map) : float :=
  valuesSum m / Jvm.Int2Double (Z.of_nat (length m)).

(** [mean(xs: List[Double])]; [ys.sum] is the left fold of [+] from 0.0 *)
Definition mean_List (xs : list float) : float :=
  match xs with
  | [] => 0
  | ys => fold_left PrimFloat.add ys 0 / Jvm.Int2Double (Z.of_nat (length ys))
  end.

Section Stddev.

Variable Math_pow : float → float → float.

(** [stddev(xs, avg)] *)
Definition stddev (xs : list float) (avg : float) : float :=
  match xs with
  | [] => 0
  | ys =>
      PrimFloat.sqrt
        (fold_left (fun a e => a + Math_pow (e - avg) 2) ys 0
         / Jvm.Int2Double (Z.of_nat (length xs)))
  end.

End Stddev.

(** [Character.isDigit] on a code point below 256: the decimal digits of
    Unicode there are ['0' .. '9']. *)
Definition isDigit (c : ascii) : bool := Re.in_range 48 57 (nat_of_ascii c).

(** [isAllDigits(x)]: [x forall Character.isDigit] *)
Fixpoint isAllDigits (x : string) : bool :=
  match x with
  | EmptyString => true
  | String c x' => isDigit c && isAllDigits x'
  end.

(** What [mapToList] can throw. *)
Inductive throwable : Type :=
| NegativeArraySizeException
| ArrayIndexOutOfBoundsException.

Inductive outcome (A : Type) : Type :=
| Returns (a : A)
| Throws (e : throwable).
Arguments Returns {A} a.
Arguments Throws {A} e.

(** [array(k) = v] on a JVM array: the index is checked. *)
Definition array_update (array : list float) (k : Z) (v : float)
  : outcome (list float) :=
  if (0 <=? k)%Z && (k <? Z.of_nat (length array))%Z
  then Returns (<[Z.to_nat k := v]> array)
  else Throws ArrayIndexOutOfBoundsException.

(** [mapToList(map, length)]: a zeroed array of [length] cells, a cell
    written for each entry of the map, the array as a list. *)
Definition mapToList (map : Map) (length : Z) : outcome (list float) :=
  if (length <? 0)%Z then Throws NegativeArraySizeException
  else
    foreach map (Returns (replicate (Z.to_nat length) 0))
      (fun array kv =>
         match array with
         | Returns array => array_update array kv.1 kv.2
         | Throws e => Throws e
         end).

(** *** Reading aids for the theorems on the utilities and the loop *)

(** The cells [mapToList] leaves for a map whose keys are in range. *)
Definition cell (map : Map) (i : nat) : float :=
  default 0 (get map (Z.of_nat i)).

(** The map of a list: index to element. *)
Definition index_map (xs : list float) : Map :=
  zip (Z.of_nat <$> seq 0 (length xs)) xs.

(** The part of a series strictly inside [(start, stop)]. *)
Definition inside (start stop : Z) (m : Map) : Map :=
  filter (fun pair => inWindow start stop pair.1 = true) m.

(** The words of a pattern: what a match of it reads, as a relation.  A
    repetition reads any number of characters of its class, greedy or
    lazy. *)
Fixpoint all_cls (c : Re.cclass) (w : string) : bool :=
  match w with
  | EmptyString => true
  | String a w' => Re.cls c a && all_cls c w'
  end.

Fixpoint reads (p : list Re.item) (w : string) : Prop :=
  match p with
  | [] => w = EmptyString
  | Re.Lit l :: p' => ∃ w', w = (l ++ w')%string ∧ reads p' w'
  | Re.One c :: p' => ∃ a w', w = String a w' ∧ Re.cls c a = true ∧ reads p' w'
  | Re.Opt c :: p' =>
      (∃ a w', w = String a w' ∧ Re.cls c a = true ∧ reads p' w') ∨ reads p' w
  | Re.Star c :: p' | Re.Lazy c :: p' =>
      ∃ u w', w = (u ++ w')%string ∧ all_cls c u = true ∧ reads p' w'
  | Re.Plus c :: p' =>
      ∃ a u w', w = String a (u ++ w') ∧ Re.cls c a = true
                ∧ all_cls c u = true ∧ reads p' w'
  end.

(** A message to which the loop adds rows or on which it raises: its three
    searches. *)
Definition raises (message : string) : bool :=
  match Re.search fromRegex message, Re.search toRegex message,
        Re.search dateRegex message with
  | Some _, Some _, None => true
  | _, _, _ => false
  end.

(** ** Binary64: definitions on specification floats *)

Module SF.

(** [q * 2 ^ j] *)
Definition pshl (q : positive) (j : nat) : positive := Nat.iter j xO q.

(** 1.0 *)
Definition one : spec_float := S754_finite false 4503599627370496 (-52).

(** The binary64 form of a positive integer below [2 ^ 53]. *)
Definition norm_int (q : positive) : spec_float :=
  S754_finite false (pshl q (Z.to_nat (53 - Z.pos (digits2_pos q))))
              (Z.pos (digits2_pos q) - 53).

Definition is_neg_zero (x : spec_float) : bool :=
  match x with
  | S754_zero true => true
  | _ => false
  end.

(** [Jvm.min] and [Jvm.max] on specification floats. *)
Definition min (x y : spec_float) : spec_float :=
  if negb (SFeqb x x) then x
  else if SFeqb x (S754_zero false) && SFeqb y (S754_zero false) && is_neg_zero y
       then y
       else if SFleb x y then x else y.

Definition max (x y : spec_float) : spec_float :=
  if negb (SFeqb x x) then x
  else if SFeqb x (S754_zero false) && SFeqb y (S754_zero false) && is_neg_zero x
       then y
       else if SFleb y x then x else y.

End SF.

(** * Theorems *)

(** ** Binary64 arithmetic *)

(** The operations on [float] are specified by [SpecFloat] (the axioms
    [div_spec], [add_spec], ... of the standard library); the lemmas are
    proved there, on valid specification floats, and carried back along
    [Prim2SF]. *)

Module Binary64.

Local Open Scope Z_scope.

(** *** Division: [x / 1.0 = x] and [x / x = 1.0] *)

Lemma div_eucl_exact (a b : Z) : 0 < b -> Z.div_eucl (a * b) b = (a, 0).
Proof.
  intros Hb.
  pose proof (Z.div_mul a b ltac:(lia)) as Q.
  pose proof (Z.mod_mul a b ltac:(lia)) as R.
  unfold Z.div, Z.modulo in Q, R.
  destruct (Z.div_eucl (a * b) b) as [q r].
  congruence.
Qed.

Lemma SFdiv_self s m e :
  SFdiv prec emax (S754_finite s m e) (S754_finite s m e) = Prim2SF 1.
Proof.
  unfold SFdiv, SFdiv_core_binary.
  replace (Zdigits2 (Zpos m) + e - (Zdigits2 (Zpos m) + e)) with 0 by lia.
  replace (e - e) with 0 by lia.
  cbn [fexp]. change (Z.min (fexp prec emax 0) 0) with (-53).
  change (0 - -53) with 53.
  cbv iota beta.
  rewrite Z.shiftl_mul_pow2 by lia.
  replace (Z.pos m * 2 ^ 53) with (2 ^ 53 * Z.pos m) by lia.
  rewrite div_eucl_exact by lia.
  rewrite xorb_nilpotent.
  assert (new_location (Z.pos m) 0 = loc_Exact) as ->.
  { unfold new_location. destruct (Z.even (Z.pos m)); reflexivity. }
  reflexivity.
Qed.

Lemma Prim2SF_one : Prim2SF 1 = SF.one.
Proof. reflexivity. Qed.

Lemma valid_cases m e :
  bounded prec emax m e = true ->
  e <= 971 /\ ((e = -1074 /\ Z.pos (digits2_pos m) <= 53) \/
   (-1074 < e /\ Z.pos (digits2_pos m) = 53)).
Proof.
  unfold bounded, canonical_mantissa, fexp, SpecFloat.emin, prec, emax.
  rewrite andb_true_iff, Z.eqb_eq, Z.leb_le. lia.
Qed.

Lemma SFdiv_one x :
  valid_binary x = true -> SFdiv prec emax x SF.one = x.
Proof.
  destruct x as [s|s| |s m e]; cbn [SFdiv SF.one]; intros V;
    rewrite ?xorb_false_r; try reflexivity.
  apply valid_cases in V as (Hmax & [[-> Hd]|[He Hd]]).
  - unfold SFdiv_core_binary.
    cbn [Zdigits2].
    assert (Z.min (fexp prec emax (Z.pos (digits2_pos m) + -1074 -
              (Z.pos (digits2_pos 4503599627370496) + -52))) (-1074 - -52)
            = -1074) as ->.
    { change (Z.pos (digits2_pos 4503599627370496)) with 53.
      unfold fexp, SpecFloat.emin, prec, emax. lia. }
    change (-1074 - -52 - -1074) with 52. cbv iota beta.
    rewrite Z.shiftl_mul_pow2 by lia.
    change (2 ^ 52) with 4503599627370496.
    rewrite div_eucl_exact by lia.
    change (new_location 4503599627370496 0) with loc_Exact.
    unfold binary_round_aux, shr_fexp. cbn [Zdigits2 shr_record_of_loc].
    assert (fexp prec emax (Z.pos (digits2_pos m) + -1074) - -1074 = 0) as ->.
    { unfold fexp, SpecFloat.emin, prec, emax. lia. }
    cbn [shr shr_m loc_of_shr_record round_nearest_even Zdigits2 shr_record_of_loc].
    assert (fexp prec emax (Z.pos (digits2_pos m) + -1074) - -1074 = 0) as ->.
    { unfold fexp, SpecFloat.emin, prec, emax. lia. }
    reflexivity.
  - unfold SFdiv_core_binary.
    cbn [Zdigits2].
    assert (Z.min (fexp prec emax (Z.pos (digits2_pos m) + e -
              (Z.pos (digits2_pos 4503599627370496) + -52))) (e - -52)
            = e - 1) as ->.
    { change (Z.pos (digits2_pos 4503599627370496)) with 53.
      unfold fexp, SpecFloat.emin, prec, emax. lia. }
    replace (e - -52 - (e - 1)) with 53 by lia. cbv iota beta.
    rewrite Z.shiftl_mul_pow2 by lia.
    replace (Z.pos m * 2 ^ 53) with (Z.pos m~0 * 4503599627370496) by lia.
    rewrite div_eucl_exact by lia.
    change (new_location 4503599627370496 0) with loc_Exact.
    unfold binary_round_aux, shr_fexp. cbn [Zdigits2 shr_record_of_loc digits2_pos].
    assert (fexp prec emax (Z.pos (Pos.succ (digits2_pos m)) + (e - 1)) - (e - 1) = 1) as ->.
    { unfold fexp, SpecFloat.emin, prec, emax. lia. }
    cbn [shr SpecFloat.iter_pos shr_1 shr_m loc_of_shr_record round_nearest_even Zdigits2 shr_record_of_loc orb].
    replace (e - 1 + 1) with e by lia.
    assert (fexp prec emax (Z.pos (digits2_pos m) + e) - e = 0) as ->.
    { unfold fexp, SpecFloat.emin, prec, emax. lia. }
    cbn [shr shr_m].
    assert ((e <=? emax - prec) = true) as ->; [|reflexivity].
    apply Z.leb_le. unfold emax, prec. lia.
Qed.

(** *** Integers: [k + 1.0] below [2 ^ 53] *)

Lemma digits_pshl q j :
  Z.pos (digits2_pos (SF.pshl q j)) = Z.pos (digits2_pos q) + Z.of_nat j.
Proof.
  induction j as [|j IH].
  - change (SF.pshl q 0) with q. lia.
  - change (SF.pshl q (S j)) with (xO (SF.pshl q j)). cbn [digits2_pos].
    rewrite Pos2Z.inj_succ. lia.
Qed.

Lemma iter_pos_nat {A} (f : A -> A) p x :
  SpecFloat.iter_pos f p x = Nat.iter (Pos.to_nat p) f x.
Proof.
  revert x. induction p as [p IH|p IH|]; intros x; cbn [SpecFloat.iter_pos].
  - rewrite !IH, Pos2Nat.inj_xI, <- Nat.iter_succ_r.
    replace (S (2 * Pos.to_nat p)) with (Pos.to_nat p + S (Pos.to_nat p))%nat by lia.
    now rewrite Nat.iter_add.
  - rewrite !IH, Pos2Nat.inj_xO.
    replace (2 * Pos.to_nat p)%nat with (Pos.to_nat p + Pos.to_nat p)%nat by lia.
    now rewrite Nat.iter_add.
  - reflexivity.
Qed.

Lemma pshl_add q i j : SF.pshl (SF.pshl q i) j = SF.pshl q (j + i).
Proof. unfold SF.pshl. now rewrite Nat.iter_add. Qed.

Lemma pos_iter_pshl q d : Pos.iter xO q d = SF.pshl q (Pos.to_nat d).
Proof. apply Pos2Nat.inj_iter. Qed.

Lemma shr_exact_nat n q i :
  Nat.iter n shr_1 {| shr_m := Z.pos (SF.pshl q (n + i)); shr_r := false; shr_s := false |}
  = {| shr_m := Z.pos (SF.pshl q i); shr_r := false; shr_s := false |}.
Proof.
  induction n as [|n IH]; [reflexivity|].
  rewrite Nat.iter_succ_r.
  change (SF.pshl q (S n + i)) with (xO (SF.pshl q (n + i))).
  cbn [shr_1 orb]. apply IH.
Qed.

Lemma fexp_small d : 1 <= d <= 1024 -> fexp prec emax d = d - 53.
Proof. unfold fexp, SpecFloat.emin, prec, emax. lia. Qed.

(** Rounding a canonical mantissa is the identity. *)
Lemma round_aux_canonical s m e :
  bounded prec emax m e = true ->
  binary_round_aux prec emax s (Z.pos m) e loc_Exact = S754_finite s m e.
Proof.
  intros B. pose proof B as B'.
  unfold bounded, canonical_mantissa in B.
  apply andb_true_iff in B as [C L]. apply Z.eqb_eq in C.
  unfold binary_round_aux, shr_fexp.
  cbn [Zdigits2 shr_record_of_loc]. rewrite C, Z.sub_diag.
  cbn [shr shr_m loc_of_shr_record round_nearest_even Zdigits2 shr_record_of_loc].
  rewrite C, Z.sub_diag. cbn [shr shr_m]. now rewrite L.
Qed.

Lemma norm_int_bounded q :
  Z.pos (digits2_pos q) <= 53 ->
  bounded prec emax (SF.pshl q (Z.to_nat (53 - Z.pos (digits2_pos q))))
          (Z.pos (digits2_pos q) - 53) = true.
Proof.
  intros Hd. unfold bounded, canonical_mantissa.
  rewrite digits_pshl, Z2Nat.id by lia.
  apply andb_true_iff; split; [apply Z.eqb_eq | apply Z.leb_le].
  - unfold fexp, SpecFloat.emin, prec, emax. lia.
  - unfold prec, emax. lia.
Qed.

Lemma binary_round_pshl q j :
  Z.pos (digits2_pos q) <= 53 ->
  binary_round prec emax false (SF.pshl q j) (- Z.of_nat j) = SF.norm_int q.
Proof.
  intros Hd. unfold binary_round. rewrite digits_pshl.
  replace (Z.pos (digits2_pos q) + Z.of_nat j + - Z.of_nat j)
    with (Z.pos (digits2_pos q)) by lia.
  rewrite fexp_small by lia.
  unfold shl_align.
  destruct (Z.pos (digits2_pos q) - 53 - - Z.of_nat j) as [|dd|dd] eqn:E.
  - replace (SF.pshl q j) with (SF.pshl q (Z.to_nat (53 - Z.pos (digits2_pos q))))
      by (f_equal; lia).
    replace (- Z.of_nat j) with (Z.pos (digits2_pos q) - 53) by lia.
    rewrite round_aux_canonical by now apply norm_int_bounded.
    reflexivity.
  - unfold binary_round_aux, shr_fexp. cbn [Zdigits2 shr_record_of_loc].
    rewrite digits_pshl.
    replace (Z.pos (digits2_pos q) + Z.of_nat j + - Z.of_nat j)
      with (Z.pos (digits2_pos q)) by lia.
    rewrite fexp_small by lia. rewrite E. cbn [shr].
    rewrite iter_pos_nat.
    replace j with (Pos.to_nat dd + Z.to_nat (53 - Z.pos (digits2_pos q)))%nat by lia.
    rewrite shr_exact_nat.
    cbn [shr_m loc_of_shr_record round_nearest_even].
    fold (shr_fexp prec emax
            (Z.pos (SF.pshl q (Z.to_nat (53 - Z.pos (digits2_pos q)))))
            (- Z.of_nat (Pos.to_nat dd + Z.to_nat (53 - Z.pos (digits2_pos q))) + Z.pos dd)
            loc_Exact).
    replace (- Z.of_nat (Pos.to_nat dd + Z.to_nat (53 - Z.pos (digits2_pos q))) + Z.pos dd)
      with (Z.pos (digits2_pos q) - 53) by lia.
    pose proof (round_aux_canonical false _ _ (norm_int_bounded q Hd)) as R.
    unfold binary_round_aux in R.
    unfold shr_fexp at 1 in R. cbn [Zdigits2 shr_record_of_loc] in R.
    pose proof (norm_int_bounded q Hd) as B.
    unfold bounded, canonical_mantissa in B.
    apply andb_true_iff in B as [C L]. apply Z.eqb_eq in C.
    rewrite C, Z.sub_diag in R.
    cbn [shr shr_m loc_of_shr_record round_nearest_even] in R.
    exact R.
  - rewrite pos_iter_pshl, pshl_add.
    replace (Pos.to_nat dd + j)%nat with (Z.to_nat (53 - Z.pos (digits2_pos q))) by lia.
    rewrite round_aux_canonical by now apply norm_int_bounded.
    reflexivity.
Qed.

Lemma digits_le_53 p : Z.pos p < 2 ^ 53 -> Z.pos (digits2_pos p) <= 53.
Proof.
  intros H.
  assert (2 ^ Z.pos (digits2_pos p) <= 2 * Z.pos p) as L.
  { clear H. induction p as [p IH|p IH|]; cbn [digits2_pos];
      rewrite ?Pos2Z.inj_succ, ?Z.pow_succ_r by lia; lia. }
  destruct (Z.le_gt_cases (Z.pos (digits2_pos p)) 53) as [?|G]; [assumption|].
  exfalso.
  assert (2 ^ 54 <= 2 ^ Z.pos (digits2_pos p)) by (apply Z.pow_le_mono_r; lia).
  change (2 ^ 54) with (2 * 2 ^ 53) in *. lia.
Qed.

Lemma binary_normalize_int p :
  Z.pos p < 2 ^ 53 ->
  binary_normalize prec emax (Z.pos p) 0 false = SF.norm_int p.
Proof.
  intros H. cbn [binary_normalize].
  apply (binary_round_pshl p 0), digits_le_53, H.
Qed.

Lemma pshl_succ_52 p :
  (Z.pos (SF.pshl p 52) + Z.pos (SF.pshl 1 52) = Z.pos (SF.pshl (p + 1) 52))%Z.
Proof.
  assert (forall q j, Z.pos (SF.pshl q j) = Z.pos q * 2 ^ Z.of_nat j) as E.
  { intros q j. induction j as [|j IH].
    - change (SF.pshl q 0) with q. simpl. lia.
    - change (SF.pshl q (S j)) with (xO (SF.pshl q j)).
      rewrite Nat2Z.inj_succ, Z.pow_succ_r by lia. lia. }
  rewrite !E. lia.
Qed.

Lemma SFadd_norm_int_one p :
  Z.pos p + 1 < 2 ^ 53 ->
  SFadd prec emax (SF.norm_int p) SF.one = SF.norm_int (p + 1).
Proof.
  intros H.
  assert (Z.pos (digits2_pos p) <= 53) as Hd by (apply digits_le_53; lia).
  unfold SF.norm_int at 1, SF.one. cbn [SFadd].
  rewrite Z.min_r by lia.
  assert (fst (shl_align (SF.pshl p (Z.to_nat (53 - Z.pos (digits2_pos p))))
                 (Z.pos (digits2_pos p) - 53) (-52)) = SF.pshl p 52) as ->.
  { unfold shl_align.
    destruct (-52 - (Z.pos (digits2_pos p) - 53)) as [|dd|dd] eqn:E; cbn [fst].
    - f_equal. lia.
    - lia.
    - rewrite pos_iter_pshl, pshl_add. f_equal. lia. }
  change (fst (shl_align 4503599627370496 (-52) (-52))) with (SF.pshl 1 52).
  cbn [cond_Zopp]. rewrite pshl_succ_52.
  cbn [binary_normalize].
  apply (binary_round_pshl (p + 1) 52), digits_le_53.
  rewrite Pos2Z.inj_add. lia.
Qed.

(** *** Sums: the negative zero

    Rounding never yields a zero from a non-zero mantissa whose exponent is
    at least [emin], so a sum is the negative zero only when both operands
    are. *)
Lemma iter_shr_1_pos k : forall m r s,
  Z.of_nat k < Z.pos (digits2_pos m) ->
  exists m', shr_m (Nat.iter k shr_1 {| shr_m := Z.pos m; shr_r := r; shr_s := s |})
             = Z.pos m'.
Proof.
  induction k as [|k IH]; intros m r s Hk.
  - now exists m.
  - rewrite Nat.iter_succ_r.
    destruct m as [p|p|]; cbn [shr_1 digits2_pos] in *;
      rewrite ?Pos2Z.inj_succ in Hk; try (apply IH; lia).
    lia.
Qed.

Lemma shr_fexp_pos m e l :
  -1074 <= e ->
  exists m', shr_m (fst (shr_fexp prec emax (Z.pos m) e l)) = Z.pos m'
             /\ -1074 <= snd (shr_fexp prec emax (Z.pos m) e l).
Proof.
  intros He. unfold shr_fexp. cbn [Zdigits2].
  destruct (fexp prec emax (Z.pos (digits2_pos m) + e) - e) as [|n|n] eqn:E;
    cbn [shr fst snd].
  - exists m. split; [now destruct l as [|[| |]]|assumption].
  - rewrite iter_pos_nat.
    assert (Z.pos n < Z.pos (digits2_pos m)) as Hn.
    { unfold fexp, SpecFloat.emin, prec, emax in E. lia. }
    destruct l as [|[| |]]; cbn [shr_record_of_loc];
      (edestruct (iter_shr_1_pos (Pos.to_nat n) m) as [m' Hm'];
       [|exists m'; split; [exact Hm'|lia]]; lia).
  - exists m. split; [now destruct l as [|[| |]]|assumption].
Qed.

Lemma round_nearest_even_pos m l :
  exists m', round_nearest_even (Z.pos m) l = Z.pos m'.
Proof.
  destruct l as [|[| |]]; cbn [round_nearest_even];
    try destruct (Z.even (Z.pos m));
    first [ now exists m | exists (m + 1)%positive; lia ].
Qed.

Lemma round_aux_nonzero sx m e l s :
  -1074 <= e ->
  binary_round_aux prec emax sx (Z.pos m) e l <> S754_zero s.
Proof.
  intros He. unfold binary_round_aux.
  destruct (shr_fexp_pos m e l He) as (m1 & H1 & He1).
  destruct (shr_fexp prec emax (Z.pos m) e l) as [mrs1 e1]. cbn [fst snd] in *.
  rewrite H1.
  destruct (round_nearest_even_pos m1 (loc_of_shr_record mrs1)) as [m2 ->].
  destruct (shr_fexp_pos m2 e1 loc_Exact He1) as (m3 & H3 & _).
  destruct (shr_fexp prec emax (Z.pos m2) e1 loc_Exact) as [mrs3 e3].
  cbn [fst] in H3. rewrite H3.
  destruct (e3 <=? emax - prec); discriminate.
Qed.

Lemma binary_normalize_nonzero z e s :
  -1074 <= e -> z <> 0 ->
  binary_normalize prec emax z e false <> S754_zero s.
Proof.
  intros He Hz.
  assert (forall sx m, binary_round prec emax sx m e <> S754_zero s) as R.
  { intros sx m. unfold binary_round, shl_align.
    destruct (fexp prec emax (Z.pos (digits2_pos m) + e) - e) eqn:E;
      apply round_aux_nonzero; trivial.
    unfold fexp, SpecFloat.emin, prec, emax. lia. }
  destruct z; [congruence|apply R..].
Qed.

Lemma valid_emin s m e :
  valid_binary (S754_finite s m e) = true -> -1074 <= e.
Proof. intros V. apply valid_cases in V. lia. Qed.

Lemma SFadd_neg_zero x y :
  valid_binary x = true -> valid_binary y = true ->
  SFadd prec emax x y = S754_zero true ->
  x = S754_zero true /\ y = S754_zero true.
Proof.
  destruct x as [[|]|[|]| |sx mx ex], y as [[|]|[|]| |sy my ey];
    cbn [SFadd]; intros Vx Vy; try discriminate; auto.
  apply valid_emin in Vx, Vy. intros E. exfalso.
  destruct (Z.eq_dec
    (cond_Zopp sx (Z.pos (fst (shl_align mx ex (Z.min ex ey))))
     + cond_Zopp sy (Z.pos (fst (shl_align my ey (Z.min ex ey))))) 0) as [Z0|NZ].
  - rewrite Z0 in E. discriminate.
  - revert E. apply binary_normalize_nonzero; [lia|assumption].
Qed.

Lemma SFadd_zero_r x :
  x <> S754_zero true -> SFadd prec emax x (S754_zero false) = x.
Proof. destruct x as [[|]|[|]| |sx mx ex]; cbn [SFadd]; congruence. Qed.

(** *** Comparison, minimum, maximum and product *)
Lemma SFcompare_swap x y :
  SFcompare y x = option_map CompOpp (SFcompare x y).
Proof.
  destruct x as [[|]|[|]| |[|] mx ex], y as [[|]|[|]| |[|] my ey];
    cbn [SFcompare option_map CompOpp]; try reflexivity.
  - rewrite (Z.compare_antisym ey ex).
    destruct (ey ?= ex); cbn [CompOpp]; try reflexivity.
    rewrite CompOpp_involutive. f_equal.
    exact (Pos.compare_cont_antisym my mx Eq).
  - rewrite (Z.compare_antisym ey ex).
    destruct (ey ?= ex); cbn [CompOpp]; try reflexivity.
    f_equal. symmetry. exact (Pos.compare_cont_antisym mx my Eq).
Qed.

Lemma SFcompare_Eq_finite sx mx ex sy my ey :
  SFcompare (S754_finite sx mx ex) (S754_finite sy my ey) = Some Eq ->
  S754_finite sx mx ex = S754_finite sy my ey.
Proof.
  cbn [SFcompare].
  destruct sx, sy; try discriminate;
    destruct (ex ?= ey) eqn:E; try discriminate;
    apply Z.compare_eq in E; subst ey; intros C;
    (assert (Pos.compare_cont Eq mx my = Eq) as C'
       by (destruct (Pos.compare_cont Eq mx my); cbn in C; congruence));
    apply Pos.compare_eq in C'; now subst.
Qed.

Lemma SFmul_comm x y : SFmul prec emax x y = SFmul prec emax y x.
Proof.
  destruct x as [sx|sx| |sx mx ex], y as [sy|sy| |sy my ey];
    cbn [SFmul]; rewrite ?(xorb_comm sx sy); try reflexivity.
  now rewrite (Pos.mul_comm mx my), (Z.add_comm ex ey).
Qed.

Local Open Scope float_scope.

(** *** The same facts on [float] *)

Lemma div_1 (x : float) : x / 1 = x.
Proof.
  apply Prim2SF_inj. rewrite div_spec. unfold SF64div.
  rewrite Prim2SF_one. apply SFdiv_one, Prim2SF_valid.
Qed.

Lemma finite_nonzero_spec (x : float) :
  Jvm.finite_nonzero x = true ->
  exists s m e, Prim2SF x = S754_finite s m e.
Proof.
  unfold Jvm.finite_nonzero. rewrite classify_spec. unfold SF64classify.
  destruct (Prim2SF x) as [[|]|[|]| |s m e]; cbn [SFclassify];
    try discriminate.
  intros _. now exists s, m, e.
Qed.

Lemma div_self (x : float) : Jvm.finite_nonzero x = true -> x / x = 1.
Proof.
  intros (s & m & e & E)%finite_nonzero_spec.
  apply Prim2SF_inj. rewrite div_spec. unfold SF64div.
  rewrite E. apply SFdiv_self.
Qed.

Lemma is_neg_zero_spec (x : float) :
  Jvm.is_neg_zero x = true <-> Prim2SF x = S754_zero true.
Proof.
  unfold Jvm.is_neg_zero. rewrite classify_spec. unfold SF64classify.
  destruct (Prim2SF x) as [[|]|[|]| |[|] m e]; cbn [SFclassify];
    try destruct (Z.pos (digits2_pos m) =? prec)%Z; split; congruence.
Qed.

Lemma Prim2SF_Int2Double (k : Z) :
  (0 <= k < 2 ^ 53)%Z ->
  Prim2SF (Jvm.Int2Double k) = binary_normalize prec emax k 0 false.
Proof.
  intros Hk. unfold Jvm.Int2Double.
  destruct (Z.ltb_spec k 0); [lia|].
  rewrite of_uint63_spec. f_equal.
  rewrite Uint63.of_Z_spec. apply Z.mod_small.
  change Uint63.wB with (2 ^ 63)%Z.
  assert (2 ^ 53 < 2 ^ 63)%Z by reflexivity. lia.
Qed.

Lemma Int2Double_succ (k : Z) :
  (0 <= k)%Z -> (k + 1 < 2 ^ 53)%Z ->
  Jvm.Int2Double k + 1 = Jvm.Int2Double (k + 1).
Proof.
  intros H0 H1. apply Prim2SF_inj.
  rewrite add_spec, !Prim2SF_Int2Double, Prim2SF_one by lia.
  unfold SF64add.
  destruct k as [|p|p]; [reflexivity| |lia].
  replace (Z.pos p + 1)%Z with (Z.pos (p + 1)) by lia.
  rewrite !binary_normalize_int by lia.
  apply SFadd_norm_int_one. lia.
Qed.

Lemma add_0_r (x : float) : Jvm.is_neg_zero x = false -> x + 0 = x.
Proof.
  intros N. apply Prim2SF_inj. rewrite add_spec. unfold SF64add.
  change (Prim2SF 0) with (S754_zero false).
  apply SFadd_zero_r. intros E%is_neg_zero_spec. congruence.
Qed.

Lemma add_neg_zero (x y : float) :
  Jvm.is_neg_zero (x + y) = true ->
  Jvm.is_neg_zero x = true /\ Jvm.is_neg_zero y = true.
Proof.
  rewrite !is_neg_zero_spec, add_spec. unfold SF64add.
  apply SFadd_neg_zero; apply Prim2SF_valid.
Qed.

Lemma mul_comm (x y : float) : x * y = y * x.
Proof.
  apply Prim2SF_inj. rewrite !mul_spec. apply SFmul_comm.
Qed.

Lemma min_id (x : float) : Jvm.min x x = x.
Proof.
  unfold Jvm.min.
  destruct (negb (x =? x)), ((x =? 0) && (x =? 0) && Jvm.is_neg_zero x),
    (x <=? x); reflexivity.
Qed.

Lemma max_id (x : float) : Jvm.max x x = x.
Proof.
  unfold Jvm.max.
  destruct (negb (x =? x)), ((x =? 0) && (x =? 0) && Jvm.is_neg_zero x),
    (x <=? x); reflexivity.
Qed.

Lemma is_neg_zero_SF (x : float) : Jvm.is_neg_zero x = SF.is_neg_zero (Prim2SF x).
Proof.
  destruct (Jvm.is_neg_zero x) eqn:E.
  - apply is_neg_zero_spec in E. now rewrite E.
  - destruct (Prim2SF x) as [[|]|[|]| |[|] m e] eqn:P; try reflexivity.
    apply is_neg_zero_spec in P. congruence.
Qed.

Lemma Prim2SF_min (a b : float) :
  Prim2SF (Jvm.min a b) = SF.min (Prim2SF a) (Prim2SF b).
Proof.
  unfold Jvm.min, SF.min.
  rewrite !FloatAxioms.eqb_spec, FloatAxioms.leb_spec, is_neg_zero_SF.
  change (Prim2SF 0) with (S754_zero false).
  repeat match goal with |- context [if ?c then _ else _] => destruct c end;
    reflexivity.
Qed.

Lemma Prim2SF_max (a b : float) :
  Prim2SF (Jvm.max a b) = SF.max (Prim2SF a) (Prim2SF b).
Proof.
  unfold Jvm.max, SF.max.
  rewrite !FloatAxioms.eqb_spec, FloatAxioms.leb_spec, is_neg_zero_SF.
  change (Prim2SF 0) with (S754_zero false).
  repeat match goal with |- context [if ?c then _ else _] => destruct c end;
    reflexivity.
Qed.

Lemma SFeqb_finite_refl s m e :
  SFeqb (S754_finite s m e) (S754_finite s m e) = true.
Proof.
  unfold SFeqb. cbn [SFcompare]. rewrite Z.compare_refl.
  assert (Pos.compare_cont Eq m m = Eq) as E by apply Pos.compare_cont_refl.
  destruct s; now rewrite E.
Qed.

Lemma SFeqb_finite_zero s m e s' :
  SFeqb (S754_finite s m e) (S754_zero s') = false.
Proof. now destruct s. Qed.

Lemma SFmin_finite_l s m e y :
  SF.min (S754_finite s m e) y =
  if SFleb (S754_finite s m e) y then S754_finite s m e else y.
Proof.
  unfold SF.min. now rewrite SFeqb_finite_refl, SFeqb_finite_zero.
Qed.

Lemma SFmin_finite_r x s m e :
  SF.min x (S754_finite s m e) =
  if negb (SFeqb x x) then x
  else if SFleb x (S754_finite s m e) then x else S754_finite s m e.
Proof.
  unfold SF.min. rewrite SFeqb_finite_zero.
  now rewrite andb_false_r.
Qed.

Lemma SFmax_finite_l s m e y :
  SF.max (S754_finite s m e) y =
  if SFleb y (S754_finite s m e) then S754_finite s m e else y.
Proof.
  unfold SF.max. now rewrite SFeqb_finite_refl, SFeqb_finite_zero.
Qed.

Lemma SFmax_finite_r x s m e :
  SF.max x (S754_finite s m e) =
  if negb (SFeqb x x) then x
  else if SFleb (S754_finite s m e) x then x else S754_finite s m e.
Proof.
  unfold SF.max. rewrite SFeqb_finite_zero.
  now rewrite andb_false_r.
Qed.

Lemma SFmin_comm x y : SF.min x y = SF.min y x.
Proof.
  destruct x as [[|]|[|]| |sx mx ex], y as [[|]|[|]| |sy my ey];
    try reflexivity;
    rewrite ?SFmin_finite_l, ?SFmin_finite_r;
    try (repeat match goal with s : bool |- _ => destruct s end; reflexivity).
  unfold SFleb.
  rewrite (SFcompare_swap (S754_finite sx mx ex) (S754_finite sy my ey)).
  destruct (SFcompare (S754_finite sx mx ex) (S754_finite sy my ey))
    as [[| |]|] eqn:C; cbn [option_map CompOpp]; try reflexivity.
  - now apply SFcompare_Eq_finite in C.
  - discriminate C.
Qed.

Lemma SFmax_comm x y : SF.max x y = SF.max y x.
Proof.
  destruct x as [[|]|[|]| |sx mx ex], y as [[|]|[|]| |sy my ey];
    try reflexivity;
    rewrite ?SFmax_finite_l, ?SFmax_finite_r;
    try (repeat match goal with s : bool |- _ => destruct s end; reflexivity).
  unfold SFleb.
  rewrite (SFcompare_swap (S754_finite sx mx ex) (S754_finite sy my ey)).
  destruct (SFcompare (S754_finite sx mx ex) (S754_finite sy my ey))
    as [[| |]|] eqn:C; cbn [option_map CompOpp]; try reflexivity.
  - now apply SFcompare_Eq_finite in C.
  - discriminate C.
Qed.

Lemma min_comm (a b : float) : Jvm.min a b = Jvm.min b a.
Proof. apply Prim2SF_inj. rewrite !Prim2SF_min. apply SFmin_comm. Qed.

Lemma max_comm (a b : float) : Jvm.max a b = Jvm.max b a.
Proof. apply Prim2SF_inj. rewrite !Prim2SF_max. apply SFmax_comm. Qed.

(** *** The ratio of two ordered values, and the integers that are not 0 *)

Lemma SFleb_antisym_finite sx mx ex sy my ey :
  SFleb (S754_finite sx mx ex) (S754_finite sy my ey) = true ->
  SFleb (S754_finite sy my ey) (S754_finite sx mx ex) = true ->
  S754_finite sx mx ex = S754_finite sy my ey.
Proof.
  unfold SFleb.
  rewrite (SFcompare_swap (S754_finite sx mx ex) (S754_finite sy my ey)).
  destruct (SFcompare (S754_finite sx mx ex) (S754_finite sy my ey))
    as [[| |]|] eqn:C; cbn [option_map CompOpp]; try discriminate.
  intros _ _. now apply SFcompare_Eq_finite in C.
Qed.

Lemma SFratio_le x y :
  SFleb x y = true ->
  SFdiv prec emax (SF.min x y) (SF.max x y) = SFdiv prec emax x y.
Proof.
  destruct x as [[|]|[|]| |sx mx ex], y as [[|]|[|]| |sy my ey];
    try discriminate; try reflexivity;
    rewrite ?SFmin_finite_l, ?SFmax_finite_l, ?SFmin_finite_r, ?SFmax_finite_r;
    try (destruct sx; try discriminate; reflexivity);
    try (destruct sy; try discriminate; reflexivity).
  intros H. rewrite H.
  destruct (SFleb (S754_finite sy my ey) (S754_finite sx mx ex)) eqn:H';
    [|reflexivity].
  now rewrite (SFleb_antisym_finite _ _ _ _ _ _ H H').
Qed.

Lemma ratio_le (x y : float) :
  (x <=? y) = true -> Jvm.min x y / Jvm.max x y = x / y.
Proof.
  rewrite FloatAxioms.leb_spec. intros H. apply Prim2SF_inj.
  rewrite !div_spec, Prim2SF_min, Prim2SF_max. now apply SFratio_le.
Qed.

Lemma Int2Double_nonzero (k : Z) :
  (1 <= k < 2 ^ 53)%Z -> (Jvm.Int2Double k =? 0) = false.
Proof.
  intros Hk. rewrite FloatAxioms.eqb_spec, Prim2SF_Int2Double by lia.
  destruct k as [|p|p]; [lia| |lia].
  rewrite binary_normalize_int by lia.
  change (Prim2SF 0) with (S754_zero false). apply SFeqb_finite_zero.
Qed.

End Binary64.

(** ** The edge extraction loop *)

Section EdgeList.

Local Open Scope nat_scope.

Lemma loc_set_fresh (rows : list Edge) (row : Edge) :
  loc_set rows (length rows) row = rows ++ [row].
Proof. unfold loc_set. now rewrite Nat.ltb_irrefl. Qed.

Lemma wf_extend (st : frame) (es : list Edge) : wf st → wf (extend st es).
Proof.
  unfold wf, extend. cbn [links links_index]. intros ->.
  now rewrite length_app.
Qed.

Lemma extend_nil (st : frame) : extend st [] = st.
Proof.
  destruct st as [rows i]. unfold extend. cbn [links links_index length].
  now rewrite app_nil_r, Nat.add_0_r.
Qed.

Lemma extend_extend (st : frame) (es es' : list Edge) :
  extend (extend st es) es' = extend st (es ++ es').
Proof.
  unfold extend. cbn [links links_index].
  now rewrite length_app, app_assoc, Nat.add_assoc.
Qed.

Lemma add_link_extend (date m_from address : string) (st : frame) :
  wf st → add_link date m_from address st = extend st [mkEdge date m_from address].
Proof.
  unfold wf, add_link, extend. intros ->. now rewrite loc_set_fresh.
Qed.

(** The inner [for address in addresses] appends the non-empty addresses. *)
Lemma addresses_loop (date m_from : string) (addresses : list string) :
  ∀ st, wf st →
    fold_left (fun st address =>
                 if String.eqb address "" then st
                 else add_link date m_from address st) addresses st
    = extend st (map (mkEdge date m_from)
                     (List.filter (fun address => negb (String.eqb address ""))
                                  addresses)).
Proof.
  induction addresses as [|address addresses IH]; intros st Hst;
    cbn [fold_left List.filter map].
  - now rewrite extend_nil.
  - destruct (String.eqb address ""); cbn [negb map].
    + now apply IH.
    + rewrite add_link_extend, IH, extend_extend by auto using wf_extend.
      reflexivity.
Qed.

Lemma loop_body_spec (st : frame) (message : string) :
  wf st →
  loop_body st message = (es ← edges_of message; mret (extend st es)).
Proof.
  intros Hst. unfold loop_body, edges_of.
  destruct (Re.search fromRegex message) as [mf_group|],
           (Re.search toRegex message) as [me_group|];
    cbn [mbind result_bind mret result_ret]; rewrite ?extend_nil; try reflexivity.
  destruct (Re.search dateRegex message) as [date_group|];
    cbn [mbind result_bind mret result_ret]; [|reflexivity].
  fold (clean_date date_group) (clean_from mf_group) (clean_to me_group).
  unfold recipients.
  destruct (PyStr.contains "," (clean_to me_group)).
  - now rewrite addresses_loop.
  - now rewrite add_link_extend.
Qed.

Lemma loop_spec (data : list string) :
  ∀ st, wf st →
    loop data st = (es ← edges_in_order data; mret (extend st es)).
Proof.
  induction data as [|message data IH]; intros st Hst; cbn [loop edges_in_order].
  - cbn. now rewrite extend_nil.
  - rewrite loop_body_spec by assumption.
    destruct (edges_of message) as [es|e];
      cbn [mbind result_bind mret result_ret]; [|reflexivity].
    rewrite IH by now apply wf_extend.
    destruct (edges_in_order data) as [rest|e];
      cbn [mbind result_bind mret result_ret]; [|reflexivity].
    now rewrite extend_extend.
Qed.

(** The table the loop builds holds the rows of each message, message after
    message. *)
Lemma build_in_order (data : list string) : build data = edges_in_order data.
Proof.
  unfold build. rewrite loop_spec by reflexivity.
  destruct (edges_in_order data); reflexivity.
Qed.

Lemma edges_in_order_app (xs ys : list string) :
  edges_in_order (xs ++ ys)
  = app_results (edges_in_order xs) (edges_in_order ys).
Proof.
  unfold app_results.
  induction xs as [|message xs IH]; cbn [app edges_in_order].
  - destruct (edges_in_order ys); reflexivity.
  - destruct (edges_of message) as [es|e]; cbn [mbind result_bind]; [|reflexivity].
    rewrite IH.
    destruct (edges_in_order xs) as [a|e]; cbn [mbind result_bind]; [|reflexivity].
    destruct (edges_in_order ys) as [b|e];
      cbn [mbind result_bind mret result_ret]; [|reflexivity].
    now rewrite app_assoc.
Qed.

(** A record without a [From] or without a [To] match is dropped: the table
    is left as it is and the loop goes on. *)
Lemma loop_body_drop (st : frame) (message : string) :
  Re.search fromRegex message = None ∨ Re.search toRegex message = None →
  loop_body st message = Ok st.
Proof.
  unfold loop_body. intros [-> | ->]; [reflexivity|].
  now destruct (Re.search fromRegex message).
Qed.

(** A record whose [From] and [To] match and whose [Date] does not raises. *)
Lemma loop_body_raise (st : frame) (message mf_group me_group : string) :
  Re.search fromRegex message = Some mf_group →
  Re.search toRegex message = Some me_group →
  Re.search dateRegex message = None →
  loop_body st message = Raise AttributeError.
Proof. unfold loop_body. now intros -> -> ->. Qed.

(** Such a record aborts the batch it is in, wherever it stands. *)
Lemma build_aborts (xs ys : list string) (es : list Edge)
    (message mf_group me_group : string) :
  build xs = Ok es →
  Re.search fromRegex message = Some mf_group →
  Re.search toRegex message = Some me_group →
  Re.search dateRegex message = None →
  build (xs ++ message :: ys) = Raise AttributeError.
Proof.
  rewrite !build_in_order, edges_in_order_app. intros -> Hf Ht Hd.
  unfold app_results. cbn [mbind result_bind edges_in_order].
  unfold edges_of. now rewrite Hf, Ht, Hd.
Qed.

End EdgeList.

(** C1: a record with a missing From, To or Date header is dropped and the
    batch goes on.  The loop guards [mf] and [me] only: on a record whose From
    and To lines parse and that has no Date line, [date.group()] raises
    [AttributeError] and the whole batch is aborted, whatever follows.  (A
    record without a From line is dropped, as the claim says.) *)
Theorem C1_missing_date_aborts_batch :
  Re.search fromRegex msg_no_date = Some "From: a@x.com"
  ∧ Re.search toRegex msg_no_date = Some ("To: b@x.com" ++ PyStr.nl)%string
  ∧ Re.search dateRegex msg_no_date = None
  ∧ build [msg_no_date] = Raise AttributeError
  ∧ build [msg_one; msg_no_date; msg_three] = Raise AttributeError
  ∧ build [msg_no_from; msg_one]
    = Ok [mkEdge "Fri, 4 May 2001 13:51:00 -0700 (PDT)"
                 "phillip.allen@enron.com" "john.lavorato@enron.com"].
Proof. repeat split; vm_compute; reflexivity. Qed.

Section ToHeader.

Local Open Scope nat_scope.

Lemma length_append (s t : string) :
  String.length (s ++ t) = String.length s + String.length t.
Proof.
  induction s as [|c s IH]; [reflexivity|].
  change (S (String.length (s ++ t)) = S (String.length s + String.length t)).
  now rewrite IH.
Qed.

Lemma substring_prefix (s t : string) :
  substring 0 (String.length s) (s ++ t) = s.
Proof.
  induction s as [|c s IH]; [now destruct t|].
  change (String c (substring 0 (String.length s) (s ++ t)) = String c s).
  now rewrite IH.
Qed.

(** [toRegex] matches the header line where it stands, whatever follows. *)
Lemma toRegex_here (post : string) :
  Re.match_here toRegex (to_line_abc ++ post) = Some post.
Proof. reflexivity. Qed.

(** [toRegex] cannot match where the text does not start with [To:]. *)
Lemma toRegex_needs_label (s : string) :
  String.prefix "To:" s = false → Re.match_here toRegex s = None.
Proof.
  intros Hp. unfold toRegex. cbn [Re.match_here].
  destruct s as [|c1 [|c2 [|c3 s]]]; cbn [Re.strip] in *; try reflexivity;
    repeat match goal with
      | |- context [Ascii.eqb ?a ?b] => destruct (Ascii.eqb_spec a b); subst
      end; try reflexivity.
  destruct s; vm_compute in Hp; discriminate Hp.
Qed.

(** Before the first [To:] of a message nothing starts with [To:], also
    where the text runs into the header line. *)
Lemma prefix_before_to_line (pre post : string) (c : ascii) :
  String.prefix "To:" (String c pre) = false →
  String.prefix "To:" (String c pre ++ to_line_abc ++ post) = false.
Proof.
  intros Hp.
  change (String.prefix "To:" (String c (pre ++ to_line_abc ++ post)) = false).
  cbn [String.prefix] in Hp |- *.
  destruct (ascii_dec "T" c); [|reflexivity].
  destruct pre as [|c2 pre]; [reflexivity|].
  change (String.prefix "o:" (String c2 (pre ++ to_line_abc ++ post)) = false).
  cbn [String.prefix] in Hp |- *.
  destruct (ascii_dec "o" c2); [|reflexivity].
  destruct pre as [|c3 pre]; [reflexivity|].
  change (String.prefix ":" (String c3 (pre ++ to_line_abc ++ post)) = false).
  cbn [String.prefix] in Hp |- *.
  destruct (ascii_dec ":" c3); [|reflexivity].
  destruct pre; discriminate Hp.
Qed.

Lemma search_here (p : list Re.item) (s rest : string) :
  Re.match_here p s = Some rest →
  Re.search p s
  = Some (substring 0 (String.length s - String.length rest) s).
Proof. intros H. destruct s; cbn [Re.search]; now rewrite H. Qed.

Lemma search_skip (p : list Re.item) (c : ascii) (s : string) :
  Re.match_here p (String c s) = None →
  Re.search p (String c s) = Re.search p s.
Proof. intros H. cbn [Re.search]. now rewrite H. Qed.

(** The match of [toRegex] in a message whose first [To:] opens the header
    line is that line. *)
Lemma toRegex_first_to_line (pre post : string) :
  occurs "To:" pre = false →
  Re.search toRegex (pre ++ to_line_abc ++ post) = Some to_line_abc.
Proof.
  induction pre as [|c pre IH]; intros Hocc.
  - change ("" ++ to_line_abc ++ post)%string with (to_line_abc ++ post)%string.
    rewrite (search_here _ _ post) by apply toRegex_here.
    rewrite length_append.
    replace (String.length to_line_abc + String.length post - String.length post)
      with (String.length to_line_abc) by lia.
    now rewrite substring_prefix.
  - cbn [occurs] in Hocc.
    destruct (String.prefix "To:" (String c pre)) eqn:Hp; [discriminate|].
    change (String c pre ++ to_line_abc ++ post)%string
      with (String c (pre ++ to_line_abc ++ post)).
    rewrite search_skip; [now apply IH|].
    apply toRegex_needs_label, (prefix_before_to_line pre post c Hp).
Qed.

End ToHeader.

(** C8 (as stated) fails: [toRegex] is searched in the whole message and
    finds the first place where [To:] is followed by an address, which need
    not be the To line.  In [msg_reply] the To line is
    [To: a@x.com, b@x.com, c@x.com] and the From and Date lines parse, but a
    [Reply-To:] header stands before it: the loop adds one row, to the
    address of that header. *)
Lemma C8_reply_to_header :
  msg_reply
  = (lines ["Date: Mon, 14 May 2001 16:39:00 -0700 (PDT)";
            "From: phillip.allen@enron.com"; "Reply-To: boss@enron.com"]
     ++ to_line_abc
     ++ lines ["Subject: forecast"; ""; "Here is our forecast"])%string
  ∧ Re.search fromRegex msg_reply = Some "From: phillip.allen@enron.com"
  ∧ Re.search dateRegex msg_reply
    = Some ("Date: Mon, 14 May 2001 16:39:00 -0700 (PDT)" ++ PyStr.nl)%string
  ∧ Re.search toRegex msg_reply = Some ("To: boss@enron.com" ++ PyStr.nl)%string
  ∧ build [msg_reply]
    = Ok [mkEdge "Mon, 14 May 2001 16:39:00 -0700 (PDT)"
                 "phillip.allen@enron.com" "boss@enron.com"].
Proof. repeat split; vm_compute; reflexivity. Qed.

(** C8 (as amended): a message in which the first [To:] opens the line
    [To: a@x.com, b@x.com, c@x.com] and whose From and Date headers parse
    gives exactly three edges, with one sender and one timestamp and the
    recipients in the order of the line; in general the rows of a message
    come from the text [toRegex] finds: one row to that text when it holds
    no comma, and otherwise a row for each entry of its split on [", "]
    that is not empty, in order ([To: a@x.com, , b@x.com] gives two
    rows). *)
Theorem C8_three_recipients (message mf_group date_group : string) :
  Re.search fromRegex message = Some mf_group →
  Re.search dateRegex message = Some date_group →
  (∀ pre post,
     message = (pre ++ to_line_abc ++ post)%string →
     occurs "To:" pre = false →
     build [message]
     = Ok [mkEdge (clean_date date_group) (clean_from mf_group) "a@x.com";
           mkEdge (clean_date date_group) (clean_from mf_group) "b@x.com";
           mkEdge (clean_date date_group) (clean_from mf_group) "c@x.com"])
  ∧ (∀ me_group,
       Re.search toRegex message = Some me_group →
       let m_to := PyStr.replace PyStr.nl "" (PyStr.replace "To: " "" me_group) in
       (PyStr.contains "," m_to = false →
        build [message]
        = Ok [mkEdge (clean_date date_group) (clean_from mf_group) m_to])
       ∧ (PyStr.contains "," m_to = true →
          build [message]
          = Ok (map (mkEdge (clean_date date_group) (clean_from mf_group))
                    (List.filter (fun address => negb (String.eqb address ""))
                                 (PyStr.split ", " m_to)))))
  ∧ PyStr.split ", " "a@x.com, , b@x.com" = ["a@x.com"; ""; "b@x.com"]
  ∧ build [msg_gap]
    = Ok [mkEdge "Mon, 14 May 2001 16:39:00 -0700 (PDT)"
                 "phillip.allen@enron.com" "a@x.com";
          mkEdge "Mon, 14 May 2001 16:39:00 -0700 (PDT)"
                 "phillip.allen@enron.com" "b@x.com"].
Proof.
  intros Hf Hd.
  assert (∀ me_group,
            Re.search toRegex message = Some me_group →
            build [message]
            = Ok (map (mkEdge (clean_date date_group) (clean_from mf_group))
                      (recipients (clean_to me_group)))) as Hb.
  { intros me_group Ht.
    rewrite build_in_order. cbn [edges_in_order]. unfold edges_of.
    rewrite Hf, Hd, Ht. cbn [mbind result_bind mret result_ret].
    now rewrite app_nil_r. }
  split; [|split; [|split; vm_compute; reflexivity]].
  - intros pre post -> Hocc.
    now rewrite (Hb to_line_abc) by now apply toRegex_first_to_line.
  - intros me_group Ht m_to. rewrite (Hb me_group Ht).
    unfold recipients, clean_to. fold m_to.
    split; intros ->; reflexivity.
Qed.

Lemma C8_three_recipients_witness :
  build [msg_three]
  = Ok [mkEdge "Mon, 14 May 2001 16:39:00 -0700 (PDT)"
               "phillip.allen@enron.com" "a@x.com";
        mkEdge "Mon, 14 May 2001 16:39:00 -0700 (PDT)"
               "phillip.allen@enron.com" "b@x.com";
        mkEdge "Mon, 14 May 2001 16:39:00 -0700 (PDT)"
               "phillip.allen@enron.com" "c@x.com"].
Proof.
  refine (proj1
    (C8_three_recipients msg_three "From: phillip.allen@enron.com"
       ("Date: Mon, 14 May 2001 16:39:00 -0700 (PDT)" ++ PyStr.nl)%string _ _)
    (lines ["Message-ID: <18782981.1075855378110.JavaMail.evans@thyme>";
            "Date: Mon, 14 May 2001 16:39:00 -0700 (PDT)";
            "From: phillip.allen@enron.com"])
    (lines ["Subject: forecast"; ""; "Here is our forecast"]) _ _);
    vm_compute; reflexivity.
Defined.

(** C9: building is a homomorphism for concatenation, [build (xs ++ ys) =
    build xs ++ build ys] (an exception of either side being the outcome of
    both sides of the equation), and the edges come in source-message order,
    then in recipient order within a message. *)
Theorem C9_build_app (xs ys : list string) :
  build (xs ++ ys) = app_results (build xs) (build ys)
  ∧ build xs = edges_in_order xs.
Proof.
  rewrite !build_in_order. split; [apply edges_in_order_app|reflexivity].
Qed.

(** ** Maps as lists of entries *)

Section Maps.

Implicit Types (m a b : Map) (key : Z) (v : float).

Lemma elem_of_keySet m key : key ∈ keySet m ↔ ∃ v, (key, v) ∈ m.
Proof.
  unfold keySet. rewrite list_elem_of_fmap. split.
  - intros ([k v] & -> & Hin). now exists v.
  - intros [v Hin]. now exists (key, v).
Qed.

Lemma get_Some_elem m key v : get m key = Some v → (key, v) ∈ m.
Proof.
  induction m as [|[k w] m IH]; cbn [get]; [discriminate|].
  case_decide as E.
  - intros [= <-]. subst k. left.
  - intros H. right. now apply IH.
Qed.

(** In a map, an entry is what [get] finds. *)
Lemma get_elem m key v : is_Map m → (key, v) ∈ m → get m key = Some v.
Proof.
  unfold is_Map. induction m as [|[k w] m IH]; intros Hnd Hin.
  - now apply elem_of_nil in Hin.
  - cbn [fmap list_fmap fst] in Hnd. apply NoDup_cons in Hnd as [Hk Hnd].
    cbn [get]. apply elem_of_cons in Hin as [[= <- <-]|Hin].
    + now rewrite decide_True.
    + rewrite decide_False; [now apply IH|].
      intros ->. apply Hk. change (key ∈ keySet m).
      apply elem_of_keySet. eauto.
Qed.

(** Every key the loops visit is a key of both maps, so [m(key)] is
    defined. *)
Lemma apply_get m key : key ∈ keySet m → get m key = Some (apply m key).
Proof.
  unfold apply. induction m as [|[k w] m IH]; cbn [get].
  - intros H. now apply elem_of_nil in H.
  - case_decide as Hne; [reflexivity|]. intros Hin.
    cbn [keySet fmap list_fmap fst] in Hin.
    apply elem_of_cons in Hin as [->|Hin]; [contradiction|]. now apply IH.
Qed.

Lemma apply_elem m key : key ∈ keySet m → (key, apply m key) ∈ m.
Proof. intros H%apply_get. now apply get_Some_elem. Qed.

Lemma apply_is_Map m key v : is_Map m → (key, v) ∈ m → apply m key = v.
Proof. intros Hm Hin. unfold apply. now rewrite (get_elem m key v). Qed.

Lemma elem_of_intersect (s t : list Z) key :
  key ∈ intersect s t ↔ key ∈ s ∧ key ∈ t.
Proof. unfold intersect. rewrite list_elem_of_filter. tauto. Qed.

Lemma elem_of_commonKeys_of a b key :
  key ∈ commonKeys_of a b ↔ key ∈ keySet a ∧ key ∈ keySet b.
Proof. unfold commonKeys_of. now rewrite list_elem_of_filter. Qed.

Lemma apply_commonKeys (m1 m2 : Map) key :
  key ∈ intersect (keySet m2) (keySet m1) →
  get m1 key = Some (apply m1 key) ∧ get m2 key = Some (apply m2 key).
Proof. intros [H2 H1]%elem_of_intersect. split; now apply apply_get. Qed.

Lemma filter_ext_in {A : Type} (P Q : A → Prop) `{!∀ x, Decision (P x)}
    `{!∀ x, Decision (Q x)} (l : list A) :
  (∀ x, x ∈ l → (P x ↔ Q x)) → filter P l = filter Q l.
Proof.
  induction l as [|x l IH]; intros Hext; [reflexivity|].
  assert (filter P l = filter Q l) as E
    by (apply IH; intros y Hy; apply Hext; now right).
  pose proof (Hext x (list_elem_of_here x l)) as Hx.
  rewrite !filter_cons, E.
  destruct (decide (P x)), (decide (Q x)); tauto || reflexivity.
Qed.

Lemma keySet_filter_key (P : Z → Prop) `{!∀ key, Decision (P key)} m :
  keySet (filter (fun pair => P pair.1) m) = filter P (keySet m).
Proof.
  unfold keySet. induction m as [|[k v] m IH]; [reflexivity|].
  rewrite fmap_cons. cbn [fst]. destruct (decide (P k)) as [Hk|Hk].
  - rewrite (filter_cons_True (fun pair : Z * float => P pair.1)) by exact Hk.
    rewrite filter_cons_True by exact Hk.
    rewrite fmap_cons. cbn [fst]. f_equal. exact IH.
  - rewrite (filter_cons_False (fun pair : Z * float => P pair.1)) by exact Hk.
    rewrite filter_cons_False by exact Hk. exact IH.
Qed.

Lemma is_Map_filter (P : Z * float → Prop) `{!∀ pair, Decision (P pair)} m :
  is_Map m → is_Map (filter P m).
Proof.
  unfold is_Map. intros Hnd. apply (sublist_NoDup _ _ Hnd).
  apply fmap_sublist, sublist_filter.
Qed.

End Maps.

(** ** Time-series similarity *)

Section Similarity.

Implicit Types (m a b : Map) (key : Z) (weight : float).

Lemma Int2Double_0 : Jvm.Int2Double 0 = 0.
Proof. reflexivity. Qed.

Lemma Int2Double_1 : Jvm.Int2Double 1 = 1.
Proof. reflexivity. Qed.

Lemma fold_left_ext_in {A B : Type} (f g : B → A → B) (l : list A) :
  (∀ acc x, x ∈ l → f acc x = g acc x) →
  ∀ acc, fold_left f l acc = fold_left g l acc.
Proof.
  induction l as [|x l IH]; intros Hfg acc; cbn [fold_left]; [reflexivity|].
  rewrite Hfg by left. apply IH. intros acc' y Hy. apply Hfg. now right.
Qed.

(** The loop of [compareTimeSeries] is the signed sum of the ratios of the
    normalised values, over the common keys in the order of the second
    series. *)
Lemma compareTimeSeries_normalised a b (isFiltered : bool) :
  compareTimeSeries a b isFiltered
  = fold_left (normalised_step a b (Freq isFiltered (keysSize a))
                               (Freq isFiltered (keysSize b)))
              (commonKeys_of a b) 0.
Proof.
  unfold compareTimeSeries, foreach, intersect, commonKeys_of.
  destruct (filter _ (keySet b)) as [|key keys]; reflexivity.
Qed.

(** Without normalisation the values are divided by 1.0. *)
Lemma compareTimeSeries_signed_sum a b :
  compareTimeSeries a b false = signed_sum a b.
Proof.
  rewrite compareTimeSeries_normalised. unfold signed_sum.
  apply fold_left_ext_in. intros weight key _.
  unfold normalised_step, signed_step, Freq.
  now rewrite Int2Double_1, !Binary64.div_1.
Qed.

(** C2: with [filtered = false] the similarity is the sum over the common
    keys (each once, in the order in which the loop walks them: that of the
    second series) of [sim = min(a[key], b[key]) / max(a[key], b[key])], the
    smaller value over the larger one, added when [sim > 0.5] and subtracted
    otherwise, a ratio of exactly 0.5 being subtracted; for
    [a = {1: 2.0, 2: 4.0}] and [b = {1: 2.0, 2: 2.0}] the result is 0.5,
    and so it is with [a] and [b] exchanged. *)
Theorem C2_unwindowed_similarity a b :
  compareTimeSeries a b false
  = fold_left (fun total key =>
                 let sim := Jvm.min (apply a key) (apply b key)
                            / Jvm.max (apply a key) (apply b key) in
                 if 0.5 <? sim then total + sim else total - sim)
              (commonKeys_of a b) 0
  ∧ (∀ key, key ∈ commonKeys_of a b ↔ key ∈ keySet a ∧ key ∈ keySet b)
  ∧ (is_Map b → NoDup (commonKeys_of a b))
  ∧ (∀ x y, (x <=? y) = true →
            Jvm.min x y / Jvm.max x y = x / y
            ∧ Jvm.min y x / Jvm.max y x = x / y)
  ∧ (∀ total, (if 0.5 <? 0.5 then total + 0.5 else total - 0.5) = total - 0.5)
  ∧ compareTimeSeries tsA tsB false = 0.5
  ∧ compareTimeSeries tsB tsA false = 0.5.
Proof.
  split; [apply compareTimeSeries_signed_sum|].
  split; [intros key; apply elem_of_commonKeys_of|].
  split; [intros Hb; now apply NoDup_filter|].
  split.
  - intros x y Hxy. split; [now apply Binary64.ratio_le|].
    rewrite Binary64.min_comm, Binary64.max_comm. now apply Binary64.ratio_le.
  - split; [intros total|split]; reflexivity.
Qed.

Lemma signed_step_self a total key v :
  get a key = Some v → Jvm.finite_nonzero v = true →
  signed_step a a total key = total + 1.
Proof.
  intros Hv Hfin. unfold signed_step, ratio, apply. rewrite Hv. cbn [default].
  rewrite Binary64.min_id, Binary64.max_id, Binary64.div_self by assumption.
  reflexivity.
Qed.

(** Adding [1.0] once per key counts the keys. *)
Lemma count_keys a (keys : list Z) :
  (∀ key, key ∈ keys → ∃ v, get a key = Some v ∧ Jvm.finite_nonzero v = true) →
  ∀ k : Z, (0 ≤ k)%Z → (k + Z.of_nat (length keys) < 2 ^ 53)%Z →
    fold_left (signed_step a a) keys (Jvm.Int2Double k)
    = Jvm.Int2Double (k + Z.of_nat (length keys)).
Proof.
  induction keys as [|key keys IH]; intros Hkeys k Hk0 Hk;
    cbn [fold_left length] in *.
  - now rewrite Z.add_0_r.
  - destruct (Hkeys key) as (v & Hv & Hfin); [left|].
    rewrite (signed_step_self a _ key v Hv Hfin).
    rewrite Binary64.Int2Double_succ by lia.
    rewrite IH; [f_equal; lia| |lia|lia].
    intros key' Hkey'. apply Hkeys. now right.
Qed.

Lemma commonKeys_of_self a : commonKeys_of a a = keySet a.
Proof.
  unfold commonKeys_of. rewrite (filter_ext_in _ (fun _ => True)).
  - induction (keySet a) as [|key keys IH]; [reflexivity|].
    now rewrite filter_cons_True, IH.
  - tauto.
Qed.

(** C5 (as amended): for a series whose values are all finite and non-zero
    (and whose key count is an [Int]), the unwindowed similarity of the series
    with itself under [filtered = false] is its number of keys. *)
Theorem C5_self_similarity a :
  (∀ key v, (key, v) ∈ a → Jvm.finite_nonzero v = true) →
  (keysSize a < 2 ^ 31)%Z →
  compareTimeSeries a a false = Jvm.Int2Double (keysSize a).
Proof.
  intros Hfin Hsize.
  rewrite compareTimeSeries_signed_sum. unfold signed_sum.
  rewrite commonKeys_of_self. unfold keysSize in *.
  rewrite <- Int2Double_0.
  rewrite (count_keys a (keySet a)); [reflexivity| |lia|].
  - intros key Hkey. exists (apply a key).
    split; [now apply apply_get|]. apply (Hfin key). now apply apply_elem.
  - assert (2 ^ 31 < 2 ^ 53)%Z by reflexivity. lia.
Qed.

Lemma C5_self_similarity_witness :
  compareTimeSeries tsA tsA false = Jvm.Int2Double (keysSize tsA).
Proof.
  apply (C5_self_similarity tsA); [|vm_compute; reflexivity].
  intros key v. unfold tsA. rewrite !elem_of_cons, elem_of_nil.
  intros [[= _ ->]|[[= _ ->]|[]]]; reflexivity.
Defined.

(** C5 (as stated) fails on a series that holds an explicit zero count:
    [0.0 / 0.0] is NaN, and so is the sum. *)
Lemma C5_zero_count_is_nan :
  (∀ key v, (key, v) ∈ tsZero → (0 <=? v) = true)
  ∧ compareTimeSeries tsZero tsZero false = nan
  ∧ compareTimeSeries tsZero tsZero false ≠ Jvm.Int2Double (keysSize tsZero).
Proof.
  split; [|split].
  - intros key v. unfold tsZero. rewrite elem_of_cons, elem_of_nil.
    intros [[= _ ->]|[]]. reflexivity.
  - vm_compute. reflexivity.
  - intros H. apply (f_equal is_nan) in H. vm_compute in H. discriminate H.
Qed.

Lemma inWindow_spec (start stop hour : Z) :
  inWindow start stop hour = true ↔ (start < hour < stop)%Z.
Proof. unfold inWindow. rewrite andb_true_iff, !Z.ltb_lt. tauto. Qed.

Lemma sortedCommonKeys_perm (m1 m2 : Map) (start stop : Z) :
  sortedCommonKeys m1 m2 start stop
  ≡ₚ filter (fun hour => inWindow start stop hour = true)
            (intersect (keySet m2) (keySet m1)).
Proof. apply merge_sort_Permutation. Qed.

Lemma elem_of_sortedCommonKeys (m1 m2 : Map) (start stop key : Z) :
  key ∈ sortedCommonKeys m1 m2 start stop
  ↔ key ∈ keySet m1 ∧ key ∈ keySet m2 ∧ (start < key < stop)%Z.
Proof.
  rewrite sortedCommonKeys_perm, list_elem_of_filter, elem_of_intersect,
    inWindow_spec. tauto.
Qed.

Lemma aboveBound_elem (upperBoundActivationsNumber : Z) m key (v : float) :
  (key, v) ∈ aboveBound upperBoundActivationsNumber m
  ↔ (key, v) ∈ m ∧ (Jvm.Int2Double upperBoundActivationsNumber <? v) = true.
Proof. unfold aboveBound. rewrite list_elem_of_filter. cbn [snd]. tauto. Qed.

Lemma aboveBound_keySet (upperBoundActivationsNumber : Z) m key :
  key ∈ keySet (aboveBound upperBoundActivationsNumber m) → key ∈ keySet m.
Proof.
  rewrite !elem_of_keySet. intros [v [Hv _]%aboveBound_elem]. eauto.
Qed.

(** C6: when the relevant set of common keys is empty the result is exactly
    0.0: the similarity of two series with disjoint key sets, whatever
    [filtered] is (and so its windowed variant), and the correlation of two
    series with no common key strictly inside [(start, stop)]. *)
Theorem C6_empty_common_keys (m1 m2 : Map) :
  ((∀ key, key ∈ keySet m1 → key ∉ keySet m2) →
   ∀ isFiltered,
     compareTimeSeries m1 m2 isFiltered = 0
     ∧ ∀ start stop upperBoundActivationsNumber lambda,
         compareTimeSeries_window m1 m2 start stop upperBoundActivationsNumber
                                  isFiltered lambda = 0)
  ∧ (∀ Math_pow start stop isFiltered,
       (∀ key, key ∈ keySet m1 → key ∈ keySet m2 → ¬ (start < key < stop)%Z) →
       pearsonCorrelation Math_pow m1 m2 start stop isFiltered = 0).
Proof.
  assert (∀ keys : list Z, (∀ key, key ∉ keys) → keys = []) as Hnil.
  { intros [|key keys] H; [reflexivity|]. destruct (H key). left. }
  split.
  - intros Hdisj isFiltered. split.
    + unfold compareTimeSeries. rewrite (Hnil (intersect _ _)); [reflexivity|].
      intros key [H2 H1]%elem_of_intersect. now apply (Hdisj key).
    + intros start stop upperBoundActivationsNumber lambda.
      unfold compareTimeSeries_window.
      rewrite (Hnil (filter _ _)); [reflexivity|].
      intros key (_ & [H2%aboveBound_keySet H1%aboveBound_keySet]%elem_of_intersect)
                 %list_elem_of_filter.
      now apply (Hdisj key).
  - intros Math_pow start stop isFiltered Hout. unfold pearsonCorrelation.
    rewrite (Hnil (sortedCommonKeys m1 m2 start stop)); [reflexivity|].
    intros key (H1 & H2 & Hw)%elem_of_sortedCommonKeys.
    now apply (Hout key).
Qed.

Lemma C6_empty_common_keys_witness :
  (∀ isFiltered,
     compareTimeSeries tsA tsC isFiltered = 0
     ∧ ∀ start stop upperBoundActivationsNumber lambda,
         compareTimeSeries_window tsA tsC start stop upperBoundActivationsNumber
                                  isFiltered lambda = 0)
  ∧ pearsonCorrelation (fun x _ => x * x) tsA tsB 5 9 true = 0.
Proof.
  split.
  - apply (proj1 (C6_empty_common_keys tsA tsC)).
    intros key. cbn. rewrite !elem_of_cons, !elem_of_nil. lia.
  - apply (proj2 (C6_empty_common_keys tsA tsB)).
    intros key. cbn. rewrite !elem_of_cons, !elem_of_nil. lia.
Defined.

(** C7 (as stated) fails: in the call [compareTimeSeries(Map(), tsA, true)]
    the divisor of the series without keys is its key count, 0, and not 1;
    the call returns 0.0 without walking a key. *)
Lemma C7_divisor_is_zero :
  Freq true (keysSize ([] : Map)) = 0%Z
  ∧ Freq true (keysSize ([] : Map)) ≠ 1%Z
  ∧ intersect (keySet tsA) (keySet ([] : Map)) = []
  ∧ compareTimeSeries [] tsA true = 0.
Proof. split; [reflexivity|split; [discriminate|split; reflexivity]]. Qed.

Lemma keysSize_pos m key : key ∈ keySet m → (1 ≤ keysSize m)%Z.
Proof.
  unfold keysSize. destruct (keySet m); [now intros ?%elem_of_nil|].
  cbn [length]. lia.
Qed.

(** C7 (as amended): with [filtered = true], a series without keys has the
    divisor 0, but then there is no common key: the result is 0.0 and no
    value is divided; and whenever there is a common key, the two divisors
    are at least 1, their [Double]s are not 0.0, and the function is the
    signed sum of the ratios of the values divided by them.  So no division
    by zero occurs in the normalisation step. *)
Theorem C7_no_division_by_zero (m1 m2 : Map) :
  (keysSize m1 < 2 ^ 31)%Z → (keysSize m2 < 2 ^ 31)%Z →
  (keysSize m1 = 0%Z ∨ keysSize m2 = 0%Z →
   (Freq true (keysSize m1) = 0%Z ∨ Freq true (keysSize m2) = 0%Z)
   ∧ intersect (keySet m2) (keySet m1) = []
   ∧ compareTimeSeries m1 m2 true = 0)
  ∧ (∀ isFiltered,
       intersect (keySet m2) (keySet m1) ≠ [] →
       let m1Freq := Freq isFiltered (keysSize m1) in
       let m2Freq := Freq isFiltered (keysSize m2) in
       (1 ≤ m1Freq)%Z ∧ (1 ≤ m2Freq)%Z
       ∧ (Jvm.Int2Double m1Freq =? 0) = false
       ∧ (Jvm.Int2Double m2Freq =? 0) = false
       ∧ compareTimeSeries m1 m2 isFiltered
         = fold_left (fun weight key =>
                        let value1 := apply m1 key / Jvm.Int2Double m1Freq in
                        let value2 := apply m2 key / Jvm.Int2Double m2Freq in
                        let similarity :=
                          Jvm.min value1 value2 / Jvm.max value1 value2 in
                        if 0.5 <? similarity then weight + similarity
                        else weight - similarity)
                     (intersect (keySet m2) (keySet m1)) 0).
Proof.
  intros Hs1 Hs2. split.
  - intros Hzero.
    assert (intersect (keySet m2) (keySet m1) = []) as Hempty.
    { unfold keysSize in Hzero.
      destruct Hzero as [Hz|Hz];
        apply (f_equal Z.to_nat) in Hz; rewrite Nat2Z.id in Hz;
        apply nil_length_inv in Hz; rewrite Hz; unfold intersect.
      - induction (keySet m2) as [|key keys IH]; [reflexivity|].
        rewrite filter_cons_False; [exact IH|]. now intros ?%elem_of_nil.
      - reflexivity. }
    split; [unfold Freq; tauto|]. split; [assumption|].
    unfold compareTimeSeries. now rewrite Hempty.
  - intros isFiltered Hne m1Freq m2Freq.
    destruct (intersect (keySet m2) (keySet m1)) as [|key keys] eqn:E;
      [contradiction|].
    assert (key ∈ intersect (keySet m2) (keySet m1)) as [H2 H1]%elem_of_intersect
      by (rewrite E; left).
    assert (1 ≤ m1Freq)%Z as Hf1
      by (unfold m1Freq, Freq; destruct isFiltered;
          [now apply (keysSize_pos m1 key)|lia]).
    assert (1 ≤ m2Freq)%Z as Hf2
      by (unfold m2Freq, Freq; destruct isFiltered;
          [now apply (keysSize_pos m2 key)|lia]).
    assert (m1Freq < 2 ^ 53 ∧ m2Freq < 2 ^ 53)%Z as [Hb1 Hb2].
    { assert (2 ^ 31 < 2 ^ 53)%Z by reflexivity.
      unfold m1Freq, m2Freq, Freq. destruct isFiltered; lia. }
    split; [exact Hf1|]. split; [exact Hf2|].
    split; [now apply Binary64.Int2Double_nonzero|].
    split; [now apply Binary64.Int2Double_nonzero|].
    unfold compareTimeSeries, foreach. now rewrite E.
Qed.

Lemma C7_no_division_by_zero_witness :
  ((Freq true (keysSize ([] : Map)) = 0%Z ∨ Freq true (keysSize tsA) = 0%Z)
   ∧ intersect (keySet tsA) (keySet ([] : Map)) = []
   ∧ compareTimeSeries [] tsA true = 0)
  ∧ (1 ≤ Freq true (keysSize tsA))%Z ∧ (1 ≤ Freq true (keysSize tsB))%Z
  ∧ (Jvm.Int2Double (Freq true (keysSize tsA)) =? 0) = false
  ∧ (Jvm.Int2Double (Freq true (keysSize tsB)) =? 0) = false
  ∧ compareTimeSeries tsA tsB true
    = fold_left (fun weight key =>
                   let value1 :=
                     apply tsA key / Jvm.Int2Double (Freq true (keysSize tsA)) in
                   let value2 :=
                     apply tsB key / Jvm.Int2Double (Freq true (keysSize tsB)) in
                   let similarity :=
                     Jvm.min value1 value2 / Jvm.max value1 value2 in
                   if 0.5 <? similarity then weight + similarity
                   else weight - similarity)
                (intersect (keySet tsB) (keySet tsA)) 0.
Proof.
  split.
  - apply (proj1 (C7_no_division_by_zero [] tsA eq_refl eq_refl)).
    left. reflexivity.
  - apply (proj2 (C7_no_division_by_zero tsA tsB eq_refl eq_refl) true).
    discriminate.
Defined.

(** The running total is never the negative zero, so adding [0.0] to it
    leaves it as it is. *)
Lemma add_keeps_not_neg_zero weight (x : float) :
  Jvm.is_neg_zero weight = false → Jvm.is_neg_zero (weight + x) = false.
Proof.
  intros Hw. destruct (Jvm.is_neg_zero (weight + x)) eqn:E; [|reflexivity].
  apply Binary64.add_neg_zero in E as [E _]. congruence.
Qed.

Lemma add_zero_fold (sim : Z → float) (above : Z → bool) (keys : list Z) :
  ∀ weight, Jvm.is_neg_zero weight = false →
    fold_left (fun weight key =>
                 if above key then weight + sim key else weight + 0) keys weight
    = fold_left (fun weight key =>
                   if above key then weight + sim key else weight) keys weight.
Proof.
  induction keys as [|key keys IH]; intros weight Hw; cbn [fold_left];
    [reflexivity|].
  destruct (above key).
  - now apply IH, add_keeps_not_neg_zero.
  - rewrite Binary64.add_0_r by assumption. now apply IH.
Qed.

(** The loop of the windowed similarity is the thresholded sum. *)
Lemma compareTimeSeries_window_sum (m1 m2 : Map) (start stop : Z)
    (upperBoundActivationsNumber : Z) (isFiltered : bool) (lambda : float) :
  let a := aboveBound upperBoundActivationsNumber m1 in
  let b := aboveBound upperBoundActivationsNumber m2 in
  compareTimeSeries_window m1 m2 start stop upperBoundActivationsNumber
                           isFiltered lambda
  = thresholded_sum a b
      (filter (fun hour => inWindow start stop hour = true) (commonKeys_of a b))
      (Freq isFiltered (countInWindow start stop (keySet a)))
      (Freq isFiltered (countInWindow start stop (keySet b))) lambda.
Proof.
  intros a b.
  unfold compareTimeSeries_window, thresholded_sum, foreach, intersect,
    commonKeys_of.
  fold a b.
  destruct (filter _ (filter _ (keySet b))) as [|key keys] eqn:E;
    [reflexivity|].
  cbv beta iota zeta delta [isEmpty].
  apply (add_zero_fold
           (fun key =>
              ratio (apply a key / Jvm.Int2Double
                       (Freq isFiltered (countInWindow start stop (keySet a))))
                    (apply b key / Jvm.Int2Double
                       (Freq isFiltered (countInWindow start stop (keySet b)))))
           (fun key =>
              lambda <?
              ratio (apply a key / Jvm.Int2Double
                       (Freq isFiltered (countInWindow start stop (keySet a))))
                    (apply b key / Jvm.Int2Double
                       (Freq isFiltered (countInWindow start stop (keySet b)))))).
  reflexivity.
Qed.

(** C4: the windowed similarity first drops from each series the keys whose
    value does not exceed the lower bound, keeps the common keys strictly
    inside [(start, stop)] (in the order of the second series), compares each
    ratio with [lambda], and adds 0.0 on the else branch: a key whose ratio
    is not above [lambda] leaves the total as it is, where the unwindowed
    variant subtracts the ratio. *)
Theorem C4_windowed_similarity (m1 m2 : Map) (start stop : Z)
    (upperBoundActivationsNumber : Z) (isFiltered : bool) (lambda : float) :
  let a := aboveBound upperBoundActivationsNumber m1 in
  let b := aboveBound upperBoundActivationsNumber m2 in
  let keys :=
    filter (fun hour => inWindow start stop hour = true) (commonKeys_of a b) in
  compareTimeSeries_window m1 m2 start stop upperBoundActivationsNumber
                           isFiltered lambda
  = thresholded_sum a b keys
      (Freq isFiltered (countInWindow start stop (keySet a)))
      (Freq isFiltered (countInWindow start stop (keySet b))) lambda
  ∧ (∀ key v,
       (key, v) ∈ a
       ↔ (key, v) ∈ m1
         ∧ (Jvm.Int2Double upperBoundActivationsNumber <? v) = true)
  ∧ (∀ key v,
       (key, v) ∈ b
       ↔ (key, v) ∈ m2
         ∧ (Jvm.Int2Double upperBoundActivationsNumber <? v) = true)
  ∧ (∀ key, key ∈ keys
            ↔ key ∈ keySet a ∧ key ∈ keySet b ∧ (start < key < stop)%Z)
  ∧ compareTimeSeries tsA tsB false = 0.5
  ∧ compareTimeSeries_window tsA tsB 0 3 0 false 0.5 = 1.
Proof.
  intros a b keys. split; [apply compareTimeSeries_window_sum|].
  split; [intros key v; apply aboveBound_elem|].
  split; [intros key v; apply aboveBound_elem|].
  split; [|split; reflexivity].
  intros key. unfold keys.
  rewrite list_elem_of_filter, elem_of_commonKeys_of, inWindow_spec. tauto.
Qed.

(** *** Exchanging the two series *)

Lemma normalised_step_comm a b (aFreq bFreq : Z) weight key :
  normalised_step a b aFreq bFreq weight key
  = normalised_step b a bFreq aFreq weight key.
Proof.
  unfold normalised_step, ratio.
  now rewrite Binary64.min_comm, Binary64.max_comm.
Qed.

Lemma commonKeys_of_perm a b :
  is_Map a → is_Map b → commonKeys_of b a ≡ₚ commonKeys_of a b.
Proof.
  intros Ha Hb. apply NoDup_Permutation.
  - now apply NoDup_filter.
  - now apply NoDup_filter.
  - intros key. rewrite !elem_of_commonKeys_of. tauto.
Qed.

(** With the series exchanged, the similarity adds the same terms, in the
    order of the other series. *)
Lemma compareTimeSeries_swap a b (isFiltered : bool) :
  compareTimeSeries b a isFiltered
  = fold_left (normalised_step a b (Freq isFiltered (keysSize a))
                               (Freq isFiltered (keysSize b)))
              (commonKeys_of b a) 0.
Proof.
  rewrite compareTimeSeries_normalised. apply fold_left_ext_in.
  intros weight key _. apply normalised_step_comm.
Qed.

Lemma compareTimeSeries_comm (m1 m2 : Map) (isFiltered : bool) :
  commonKeys_of m1 m2 = commonKeys_of m2 m1 →
  compareTimeSeries m1 m2 isFiltered = compareTimeSeries m2 m1 isFiltered.
Proof.
  intros Hc. rewrite (compareTimeSeries_swap m1 m2), <- Hc.
  apply compareTimeSeries_normalised.
Qed.

(** The keys [aboveBound] keeps, read on the keys of the map. *)
Lemma aboveBound_keySet_filter (upperBoundActivationsNumber : Z) m :
  is_Map m →
  keySet (aboveBound upperBoundActivationsNumber m)
  = filter (fun key =>
              (Jvm.Int2Double upperBoundActivationsNumber <? apply m key) = true)
           (keySet m).
Proof.
  intros Hm.
  rewrite <- (keySet_filter_key
                (fun key => (Jvm.Int2Double upperBoundActivationsNumber
                             <? apply m key) = true)).
  unfold aboveBound. f_equal. apply filter_ext_in. intros [key v] Hin.
  cbn [fst snd]. now rewrite (apply_is_Map m key v).
Qed.

Lemma commonKeys_of_aboveBound (upperBoundActivationsNumber : Z) a b :
  is_Map a → is_Map b →
  commonKeys_of (aboveBound upperBoundActivationsNumber a)
                (aboveBound upperBoundActivationsNumber b)
  = filter (fun key =>
              (Jvm.Int2Double upperBoundActivationsNumber <? apply a key) = true
              ∧ (Jvm.Int2Double upperBoundActivationsNumber <? apply b key) = true)
           (commonKeys_of a b).
Proof.
  intros Ha Hb. unfold commonKeys_of.
  rewrite (aboveBound_keySet_filter _ b Hb).
  rewrite !list_filter_filter. apply list_filter_iff. intros key.
  rewrite (aboveBound_keySet_filter _ a Ha), list_elem_of_filter. tauto.
Qed.

Lemma compareTimeSeries_window_comm (m1 m2 : Map) (start stop : Z)
    (upperBoundActivationsNumber : Z) (isFiltered : bool) (lambda : float) :
  is_Map m1 → is_Map m2 →
  commonKeys_of m1 m2 = commonKeys_of m2 m1 →
  compareTimeSeries_window m1 m2 start stop upperBoundActivationsNumber
                           isFiltered lambda
  = compareTimeSeries_window m2 m1 start stop upperBoundActivationsNumber
                             isFiltered lambda.
Proof.
  intros H1 H2 Hc. rewrite !compareTimeSeries_window_sum. cbv zeta.
  rewrite (commonKeys_of_aboveBound _ m1 m2), (commonKeys_of_aboveBound _ m2 m1)
    by assumption.
  rewrite Hc.
  rewrite (list_filter_iff
             (fun key =>
                (Jvm.Int2Double upperBoundActivationsNumber <? apply m1 key) = true
                ∧ (Jvm.Int2Double upperBoundActivationsNumber <? apply m2 key) = true)
             (fun key =>
                (Jvm.Int2Double upperBoundActivationsNumber <? apply m2 key) = true
                ∧ (Jvm.Int2Double upperBoundActivationsNumber <? apply m1 key) = true))
    by (intros key; tauto).
  unfold thresholded_sum. apply fold_left_ext_in. intros weight key _.
  unfold ratio. now rewrite Binary64.min_comm, Binary64.max_comm.
Qed.

End Similarity.

(** ** Windowed Pearson correlation *)

Section PearsonFacts.

Variable Math_pow : float → float → float.

Implicit Types (m : Map) (key : Z) (block : list Z).

Local Open Scope nat_scope.

(** The first [k] blocks hold the first [24 k] keys. *)
Lemma blocks_prefix (keys : list Z) (k : nat) :
  concat (map (fun t => slice t (t + 24) keys)
              (map (fun i => i * 24) (seq 0 k)))
  = take (k * 24) keys.
Proof.
  induction k as [|k IH]; [reflexivity|].
  rewrite seq_S, !map_app, concat_app, IH. cbn [map concat Nat.add].
  rewrite app_nil_r. unfold slice.
  replace (k * 24 + 24 - k * 24) with 24 by lia.
  rewrite take_take_drop. f_equal. lia.
Qed.

Lemma blocks_concat (keys : list Z) : concat (blocks 24 keys) = keys.
Proof.
  unfold blocks, until_by. rewrite blocks_prefix. apply take_ge.
  pose proof (Nat.div_mod_eq (length keys + 24 - 1) 24) as E.
  pose proof (Nat.mod_upper_bound (length keys + 24 - 1) 24) as B.
  lia.
Qed.

Lemma blocks_length (keys : list Z) :
  Forall (fun block => 1 ≤ length block ≤ 24) (blocks 24 keys).
Proof.
  unfold blocks, until_by. rewrite !Forall_map. apply Forall_forall.
  intros i [_ Hi]%elem_of_seq. unfold slice.
  rewrite length_take, length_drop.
  pose proof (Nat.div_mod_eq (length keys + 24 - 1) 24) as E.
  pose proof (Nat.mod_upper_bound (length keys + 24 - 1) 24) as B.
  lia.
Qed.

(** A block is a run of the keys. *)
Lemma slice_sublist (keys : list Z) (t : nat) :
  slice t (t + 24) keys `sublist_of` keys.
Proof.
  unfold slice. etransitivity; [apply sublist_take|apply sublist_drop].
Qed.

Lemma elem_of_blocks (keys : list Z) block :
  block ∈ blocks 24 keys → block `sublist_of` keys.
Proof.
  unfold blocks. intros (t & -> & _)%list_elem_of_fmap. apply slice_sublist.
Qed.

Local Open Scope float_scope.

Lemma fold_left_fmap {A B C : Type} (g : A → B) (f : C → B → C) (xs : list A) :
  ∀ acc, fold_left f (g <$> xs) acc = fold_left (fun a x => f a (g x)) xs acc.
Proof.
  induction xs as [|x xs IH]; intros acc; [reflexivity|].
  rewrite fmap_cons. cbn [fold_left]. apply IH.
Qed.

(** The values of [m.filterKeys(...).mapValues(_ / mFreq)], read on the keys
    of [m]. *)
Lemma values_common m block (mFreq : Z) :
  is_Map m →
  values (common m block mFreq)
  = (fun key => apply m key / Jvm.Int2Double mFreq)
      <$> filter (fun key => key ∈ block) (keySet m).
Proof.
  intros Hm. unfold values, common.
  rewrite <- (keySet_filter_key (fun key => key ∈ block)). unfold keySet.
  rewrite <- !list_fmap_compose.
  apply Forall_fmap_ext_1, Forall_forall.
  intros [k v] [_ Hin]%list_elem_of_filter. cbn.
  now rewrite (apply_is_Map m k v).
Qed.

Lemma valuesSum_common m block (mFreq : Z) :
  is_Map m →
  valuesSum (common m block mFreq) = block_sum (fun v => v) m mFreq block.
Proof.
  intros Hm. unfold valuesSum, block_sum.
  now rewrite values_common, fold_left_fmap.
Qed.

Lemma valuesSumSq_common m block (mFreq : Z) :
  is_Map m →
  valuesSumSq Math_pow (common m block mFreq)
  = block_sum (fun v => Math_pow v 2) m mFreq block.
Proof.
  intros Hm. unfold valuesSumSq, block_sum.
  now rewrite values_common, fold_left_fmap.
Qed.

Lemma get_common m block (mFreq : Z) key :
  key ∈ block →
  get (common m block mFreq) key
  = (fun v => v / Jvm.Int2Double mFreq) <$> get m key.
Proof.
  intros Hin. unfold common. induction m as [|[k v] m IH]; [reflexivity|].
  cbn [get]. destruct (decide (k = key)) as [->|Hne].
  - rewrite (filter_cons_True (fun pair : Z * float => pair.1 ∈ block))
      by exact Hin.
    rewrite fmap_cons. cbn [get fst snd]. now rewrite decide_True.
  - destruct (decide (k ∈ block)) as [Hk|Hk].
    + rewrite (filter_cons_True (fun pair : Z * float => pair.1 ∈ block))
        by exact Hk.
      rewrite fmap_cons. cbn [get fst snd]. now rewrite decide_False.
    + now rewrite (filter_cons_False (fun pair : Z * float => pair.1 ∈ block))
        by exact Hk.
Qed.

Lemma apply_common m block (mFreq : Z) key :
  key ∈ block → key ∈ keySet m →
  apply (common m block mFreq) key = apply m key / Jvm.Int2Double mFreq.
Proof.
  intros Hin Hkey%apply_get. unfold apply at 1.
  now rewrite get_common, Hkey.
Qed.

(** One iteration of the loop adds the term of its block. *)
Lemma pearson_body_term (m1 m2 : Map) (commonKeys : list Z)
    (n m1Freq m2Freq : Z) (sum : float) (t : nat) :
  is_Map m1 → is_Map m2 →
  (∀ key, key ∈ commonKeys → key ∈ keySet m1 ∧ key ∈ keySet m2) →
  Jvm.is_neg_zero sum = false →
  pearson_body Math_pow m1 m2 commonKeys n m1Freq m2Freq sum t
  = sum + pearson_term Math_pow m1 m2 n m1Freq m2Freq
                       (slice t (t + 24) commonKeys).
Proof.
  intros H1 H2 Hkeys Hsum.
  unfold pearson_body, pearson_term, numerator, denominator. cbv zeta.
  rewrite !valuesSum_common, !valuesSumSq_common by assumption.
  rewrite (fold_left_ext_in
             (fun accum element =>
                accum + apply (common m1 (slice t (t + 24) commonKeys) m1Freq) element
                        * apply (common m2 (slice t (t + 24) commonKeys) m2Freq) element)
             (fun accum key =>
                accum + (apply m1 key / Jvm.Int2Double m1Freq)
                        * (apply m2 key / Jvm.Int2Double m2Freq))).
  - rewrite Int2Double_0. change (Jvm.Int2Double 2) with 2.
    match goal with |- context [if ?c then _ else _] => destruct c end;
      [now rewrite Binary64.add_0_r|reflexivity].
  - intros accum key Hin.
    destruct (Hkeys key) as [Hk1 Hk2];
      [now apply (elem_of_sublist _ _ _ Hin (slice_sublist commonKeys t))|].
    now rewrite !apply_common.
Qed.

Lemma pearson_fold (m1 m2 : Map) (commonKeys : list Z)
    (n m1Freq m2Freq : Z) (ts : list nat) :
  is_Map m1 → is_Map m2 →
  (∀ key, key ∈ commonKeys → key ∈ keySet m1 ∧ key ∈ keySet m2) →
  ∀ sum, Jvm.is_neg_zero sum = false →
    fold_left (pearson_body Math_pow m1 m2 commonKeys n m1Freq m2Freq) ts sum
    = fold_left (fun sum block =>
                   sum + pearson_term Math_pow m1 m2 n m1Freq m2Freq block)
                (map (fun t => slice t (t + 24) commonKeys) ts) sum.
Proof.
  intros H1 H2 Hkeys.
  induction ts as [|t ts IH]; intros sum Hsum; cbn [fold_left map];
    [reflexivity|].
  rewrite pearson_body_term by assumption.
  now apply IH, add_keeps_not_neg_zero.
Qed.

(** The correlation is the sum of the terms of the blocks. *)
Lemma pearsonCorrelation_blocks (m1 m2 : Map) (start stop : Z)
    (isFiltered : bool) :
  is_Map m1 → is_Map m2 →
  pearsonCorrelation Math_pow m1 m2 start stop isFiltered
  = fold_left (fun sum block =>
                 sum + pearson_term Math_pow m1 m2
                         (Z.of_nat (length (sortedCommonKeys m1 m2 start stop)))
                         (Freq isFiltered (countInWindow start stop (keySet m1)))
                         (Freq isFiltered (countInWindow start stop (keySet m2)))
                         block)
              (blocks 24 (sortedCommonKeys m1 m2 start stop)) 0.
Proof.
  intros H1 H2. unfold pearsonCorrelation, foreach.
  destruct (length (sortedCommonKeys m1 m2 start stop) =? 0)%nat eqn:E.
  - apply Nat.eqb_eq, nil_length_inv in E. now rewrite E.
  - unfold blocks. apply pearson_fold; [assumption..| |reflexivity].
    intros key (Hk1 & Hk2 & _)%elem_of_sortedCommonKeys. now split.
Qed.

Lemma sortedCommonKeys_sorted (m1 m2 : Map) (start stop : Z) :
  is_Map m2 →
  StronglySorted Z.le (sortedCommonKeys m1 m2 start stop)
  ∧ NoDup (sortedCommonKeys m1 m2 start stop).
Proof.
  intros H2. split.
  - apply (StronglySorted_merge_sort Z.le).
  - rewrite sortedCommonKeys_perm. now apply NoDup_filter, NoDup_filter.
Qed.

(** The keys of a series that are in a block are the keys of the block. *)
Lemma block_keys m (commonKeys block : list Z) :
  is_Map m → NoDup commonKeys →
  (∀ key, key ∈ commonKeys → key ∈ keySet m) →
  block `sublist_of` commonKeys →
  filter (fun key => key ∈ block) (keySet m) ≡ₚ block.
Proof.
  intros Hm Hnd Hkeys Hsub. apply NoDup_Permutation.
  - now apply NoDup_filter.
  - now apply (sublist_NoDup _ _ Hnd).
  - intros key. rewrite list_elem_of_filter. split; [tauto|].
    intros Hin. split; [assumption|].
    now apply Hkeys, (elem_of_sublist _ _ _ Hin Hsub).
Qed.

Lemma pearson_body_comm (m1 m2 : Map) (commonKeys : list Z)
    (n m1Freq m2Freq : Z) (sum : float) (t : nat) :
  pearson_body Math_pow m1 m2 commonKeys n m1Freq m2Freq sum t
  = pearson_body Math_pow m2 m1 commonKeys n m2Freq m1Freq sum t.
Proof.
  unfold pearson_body. cbv zeta.
  set (block := slice t (t + 24) commonKeys).
  set (A := common m1 block m1Freq). set (B := common m2 block m2Freq).
  assert (fold_left (fun accum element => accum + apply A element * apply B element)
                    block 0
          = fold_left (fun accum element => accum + apply B element * apply A element)
                      block 0) as ->.
  { apply fold_left_ext_in. intros accum element _.
    now rewrite Binary64.mul_comm. }
  rewrite (Binary64.mul_comm (valuesSum A) (valuesSum B)).
  rewrite (Binary64.mul_comm
             (valuesSumSq Math_pow A
              - Math_pow (valuesSum A) (Jvm.Int2Double 2) / Jvm.Int2Double n)).
  reflexivity.
Qed.

Lemma sortedCommonKeys_comm (m1 m2 : Map) (start stop : Z) :
  is_Map m1 → is_Map m2 →
  sortedCommonKeys m1 m2 start stop = sortedCommonKeys m2 m1 start stop.
Proof.
  intros H1 H2.
  apply (StronglySorted_unique Z.le);
    [apply (StronglySorted_merge_sort Z.le)..|].
  rewrite !sortedCommonKeys_perm. apply NoDup_Permutation.
  - now apply NoDup_filter, NoDup_filter.
  - now apply NoDup_filter, NoDup_filter.
  - intros key. rewrite !list_elem_of_filter, !elem_of_intersect. tauto.
Qed.

Lemma pearsonCorrelation_comm (m1 m2 : Map) (start stop : Z)
    (isFiltered : bool) :
  is_Map m1 → is_Map m2 →
  pearsonCorrelation Math_pow m1 m2 start stop isFiltered
  = pearsonCorrelation Math_pow m2 m1 start stop isFiltered.
Proof.
  intros H1 H2. unfold pearsonCorrelation, foreach.
  rewrite (sortedCommonKeys_comm m1 m2) by assumption.
  destruct (length _ =? 0)%nat; [reflexivity|].
  apply fold_left_ext_in. intros sum t _. apply pearson_body_comm.
Qed.

(** C3: [pearsonCorrelation] sorts the common keys strictly inside
    [(start, stop)] ascending, cuts them into consecutive blocks of at most
    24 keys, computes for each block the Pearson numerator and denominator
    over the keys of the block (each value divided by the frequency of its
    series, the sums of a series taken in the order in which it holds the
    keys) with the sample size [n] of the whole range (the same [n] for
    every block), adds numerator/denominator for a block whose denominator
    is not 0 and 0 for a block whose denominator is 0, and returns the sum
    over the blocks. *)
Theorem C3_blocked_pearson (m1 m2 : Map) (start stop : Z)
    (isFiltered : bool) :
  is_Map m1 → is_Map m2 →
  let commonKeys := sortedCommonKeys m1 m2 start stop in
  let n := Jvm.Int2Double (Z.of_nat (length commonKeys)) in
  let value1 key :=
    apply m1 key
    / Jvm.Int2Double (Freq isFiltered (countInWindow start stop (keySet m1))) in
  let value2 key :=
    apply m2 key
    / Jvm.Int2Double (Freq isFiltered (countInWindow start stop (keySet m2))) in
  pearsonCorrelation Math_pow m1 m2 start stop isFiltered
  = fold_left
      (fun sum block =>
         let keys1 := filter (fun key => key ∈ block) (keySet m1) in
         let keys2 := filter (fun key => key ∈ block) (keySet m2) in
         let sum1 := fold_left (fun acc key => acc + value1 key) keys1 0 in
         let sum2 := fold_left (fun acc key => acc + value2 key) keys2 0 in
         let sum1Sq :=
           fold_left (fun acc key => acc + Math_pow (value1 key) 2) keys1 0 in
         let sum2Sq :=
           fold_left (fun acc key => acc + Math_pow (value2 key) 2) keys2 0 in
         let pSum :=
           fold_left (fun acc key => acc + value1 key * value2 key) block 0 in
         let numerator := pSum - sum1 * sum2 / n in
         let denominator :=
           PrimFloat.sqrt ((sum1Sq - Math_pow sum1 2 / n)
                           * (sum2Sq - Math_pow sum2 2 / n)) in
         sum + (if denominator =? 0 then 0 else numerator / denominator))
      (blocks 24 commonKeys) 0
  ∧ (∀ block,
       block ∈ blocks 24 commonKeys →
       filter (fun key => key ∈ block) (keySet m1) ≡ₚ block
       ∧ filter (fun key => key ∈ block) (keySet m2) ≡ₚ block)
  ∧ StronglySorted Z.le commonKeys ∧ NoDup commonKeys
  ∧ (∀ key, key ∈ commonKeys
            ↔ key ∈ keySet m1 ∧ key ∈ keySet m2 ∧ (start < key < stop)%Z)
  ∧ concat (blocks 24 commonKeys) = commonKeys
  ∧ Forall (fun block => (1 ≤ length block ≤ 24)%nat) (blocks 24 commonKeys).
Proof.
  intros H1 H2 commonKeys n value1 value2.
  pose proof (sortedCommonKeys_sorted m1 m2 start stop H2) as [Hs Hn].
  split; [exact (pearsonCorrelation_blocks m1 m2 start stop isFiltered H1 H2)|].
  split.
  - intros block Hblock%elem_of_blocks.
    split; apply (block_keys _ commonKeys); try assumption;
      intros key (Hk1 & Hk2 & _)%elem_of_sortedCommonKeys; assumption.
  - split; [exact Hs|]. split; [exact Hn|].
    split; [intros key; apply elem_of_sortedCommonKeys|].
    split; [apply blocks_concat|apply blocks_length].
Qed.

End PearsonFacts.

Lemma is_Map_samples :
  is_Map tsA ∧ is_Map tsB ∧ is_Map tsTens ∧ is_Map tsRamp.
Proof.
  unfold is_Map. repeat split; cbn [fmap list_fmap fst tsA tsB tsTens tsRamp];
    repeat (apply NoDup_cons_2; [rewrite ?elem_of_cons, elem_of_nil; lia|]);
    apply NoDup_nil_2.
Qed.

Lemma C3_blocked_pearson_witness :
  pearsonCorrelation (fun x _ => x * x) tsA tsRamp 0 4 true
  = fold_left
      (fun sum block =>
         sum + pearson_term (fun x _ => x * x) tsA tsRamp 2 2 3 block)
      [[1%Z; 2%Z]] 0.
Proof.
  exact (proj1 (C3_blocked_pearson (fun x _ => x * x) tsA tsRamp 0 4 true
                 (proj1 is_Map_samples)
                 (proj2 (proj2 (proj2 is_Map_samples))))).
Defined.

(** C10 (as stated) fails: the similarity walks the common keys in the order
    of its second series, and a binary64 sum depends on the order of its
    terms.  [Map(3 -> 10.0, 2 -> 10.0, 1 -> 10.0)] and
    [Map(1 -> 1.0, 2 -> 2.0, 3 -> 3.0)] give the ratios 0.1, 0.2 and 0.3,
    summed as [(0.1 + 0.2) + 0.3] one way and as [(0.3 + 0.2) + 0.1] the
    other. *)
Lemma C10_order_of_summation :
  is_Map tsTens ∧ is_Map tsRamp
  ∧ (compareTimeSeries tsTens tsRamp false
     =? compareTimeSeries tsRamp tsTens false) = false
  ∧ compareTimeSeries tsTens tsRamp false
    ≠ compareTimeSeries tsRamp tsTens false
  ∧ compareTimeSeries_window tsTens tsRamp 0 4 0 false 0
    ≠ compareTimeSeries_window tsRamp tsTens 0 4 0 false 0.
Proof.
  split; [apply is_Map_samples|]. split; [apply is_Map_samples|].
  split; [vm_compute; reflexivity|].
  split; intros E;
    match type of E with
    | _ = ?y => apply (f_equal (fun x => x =? y)) in E
    end; vm_compute in E; discriminate E.
Qed.

(** C10 (as amended): the correlation is symmetric in its two series; the
    two similarities are symmetric when the two series hold their common
    keys in the same order; in general, exchanging the series of the
    unwindowed similarity keeps the terms of the sum and walks the common
    keys in the order of the other series. *)
Theorem C10_symmetry (m1 m2 : Map) :
  is_Map m1 → is_Map m2 →
  (commonKeys_of m1 m2 = commonKeys_of m2 m1 →
   (∀ isFiltered,
      compareTimeSeries m1 m2 isFiltered = compareTimeSeries m2 m1 isFiltered)
   ∧ (∀ start stop upperBoundActivationsNumber isFiltered lambda,
        compareTimeSeries_window m1 m2 start stop upperBoundActivationsNumber
                                 isFiltered lambda
        = compareTimeSeries_window m2 m1 start stop upperBoundActivationsNumber
                                   isFiltered lambda))
  ∧ (∀ isFiltered,
       let step := normalised_step m1 m2 (Freq isFiltered (keysSize m1))
                                   (Freq isFiltered (keysSize m2)) in
       compareTimeSeries m1 m2 isFiltered
       = fold_left step (commonKeys_of m1 m2) 0
       ∧ compareTimeSeries m2 m1 isFiltered
         = fold_left step (commonKeys_of m2 m1) 0
       ∧ commonKeys_of m2 m1 ≡ₚ commonKeys_of m1 m2)
  ∧ (∀ Math_pow start stop isFiltered,
       pearsonCorrelation Math_pow m1 m2 start stop isFiltered
       = pearsonCorrelation Math_pow m2 m1 start stop isFiltered).
Proof.
  intros H1 H2. split; [|split].
  - intros Hc. split.
    + intros isFiltered. now apply compareTimeSeries_comm.
    + intros start stop ub isFiltered lambda.
      now apply compareTimeSeries_window_comm.
  - intros isFiltered step.
    split; [apply compareTimeSeries_normalised|].
    split; [apply compareTimeSeries_swap|now apply commonKeys_of_perm].
  - intros Math_pow start stop isFiltered. now apply pearsonCorrelation_comm.
Qed.

Lemma C10_symmetry_witness :
  (∀ isFiltered,
     compareTimeSeries tsA tsB isFiltered = compareTimeSeries tsB tsA isFiltered)
  ∧ (∀ start stop upperBoundActivationsNumber isFiltered lambda,
       compareTimeSeries_window tsA tsB start stop upperBoundActivationsNumber
                                isFiltered lambda
       = compareTimeSeries_window tsB tsA start stop upperBoundActivationsNumber
                                  isFiltered lambda).
Proof.
  apply (proj1 (C10_symmetry tsA tsB (proj1 is_Map_samples)
                  (proj1 (proj2 is_Map_samples)))).
  reflexivity.
Defined.

(** * More on the code *)

(** ** The regular expressions: what a search finds *)

Section Searches.

Local Open Scope string_scope.

Lemma strip_spec (l s s' : string) : Re.strip l s = Some s' → s = l ++ s'.
Proof.
  revert s. induction l as [|x l IH]; intros s; cbn [Re.strip].
  - now intros [= ->].
  - destruct s as [|a s]; [discriminate|].
    destruct (Ascii.eqb_spec a x) as [->|]; [|discriminate].
    intros ->%IH. reflexivity.
Qed.

Lemma strip_app (l s : string) : Re.strip l (l ++ s) = Some s.
Proof.
  induction l as [|x l IH]; [reflexivity|].
  change (String x l ++ s) with (String x (l ++ s)). cbn [Re.strip].
  now rewrite Ascii.eqb_refl.
Qed.

Lemma star_greedy_sound (c : Re.cclass) (k : string → option string) :
  ∀ s rest, Re.star_greedy c k s = Some rest →
    ∃ u s', s = u ++ s' ∧ all_cls c u = true ∧ k s' = Some rest.
Proof.
  induction s as [|a s IH]; intros rest; cbn [Re.star_greedy].
  - intros H. now exists "", "".
  - destruct (Re.cls c a) eqn:Ha.
    + destruct (Re.star_greedy c k s) as [r|] eqn:E.
      * intros [= ->]. destruct (IH rest eq_refl) as (u & s' & -> & Hu & Hk).
        exists (String a u), s'. cbn [all_cls]. now rewrite Ha, Hu.
      * intros H. now exists "", (String a s).
    + intros H. now exists "", (String a s).
Qed.

Lemma star_lazy_sound (c : Re.cclass) (k : string → option string) :
  ∀ s rest, Re.star_lazy c k s = Some rest →
    ∃ u s', s = u ++ s' ∧ all_cls c u = true ∧ k s' = Some rest.
Proof.
  induction s as [|a s IH]; intros rest; cbn [Re.star_lazy].
  - destruct (k "") eqn:E; [|discriminate].
    intros [= ->]. now exists "", "".
  - destruct (k (String a s)) eqn:E.
    + intros [= ->]. now exists "", (String a s).
    + destruct (Re.cls c a) eqn:Ha; [|discriminate].
      intros (u & s' & -> & Hu & Hk)%IH.
      exists (String a u), s'. cbn [all_cls]. now rewrite Ha, Hu.
Qed.

Lemma append_assoc (a b c : string) : (a ++ b) ++ c = a ++ b ++ c.
Proof.
  induction a as [|x a IH]; [reflexivity|].
  change (String x ((a ++ b) ++ c) = String x (a ++ b ++ c)). now rewrite IH.
Qed.

Lemma append_nil_r (a : string) : a ++ "" = a.
Proof.
  induction a as [|x a IH]; [reflexivity|].
  change (String x (a ++ "") = String x a). now rewrite IH.
Qed.

(** What a match consumes is a word of the pattern. *)
Lemma match_here_sound (p : list Re.item) :
  ∀ s rest, Re.match_here p s = Some rest → ∃ w, s = w ++ rest ∧ reads p w.
Proof.
  induction p as [|[l|c|c|c|c|c] p IH]; intros s rest; cbn [Re.match_here reads].
  - intros [= ->]. now exists "".
  - destruct (Re.strip l s) as [s'|] eqn:E; [|discriminate].
    apply strip_spec in E as ->. intros (w & -> & Hw)%IH.
    exists (l ++ w). rewrite append_assoc. eauto.
  - destruct s as [|a s]; [discriminate|].
    destruct (Re.cls c a) eqn:Ha; [|discriminate].
    intros (w & -> & Hw)%IH. exists (String a w). split; [reflexivity|]. eauto.
  - assert (∀ a s0, Re.cls c a = true → Re.match_here p s0 = Some rest →
              ∃ w, String a s0 = w ++ rest
                   ∧ ((∃ a' w', w = String a' w' ∧ Re.cls c a' = true ∧ reads p w')
                      ∨ reads p w)) as Htake.
    { intros a s0 Ha (w & -> & Hw)%IH. exists (String a w).
      split; [reflexivity|]. left. eauto. }
    assert (Re.match_here p s = Some rest →
              ∃ w, s = w ++ rest
                   ∧ ((∃ a' w', w = String a' w' ∧ Re.cls c a' = true ∧ reads p w')
                      ∨ reads p w)) as Hskip.
    { intros (w & -> & Hw)%IH. exists w. eauto. }
    destruct s as [|a s]; [exact Hskip|].
    destruct (Re.cls c a) eqn:Ha; [|exact Hskip].
    destruct (Re.match_here p s) as [r|] eqn:E; [|exact Hskip].
    intros [= ->]. now apply Htake.
  - intros (u & s' & -> & Hu & (w & -> & Hw)%IH)%star_greedy_sound.
    exists (u ++ w). rewrite append_assoc. eauto 6.
  - destruct s as [|a s]; [discriminate|].
    destruct (Re.cls c a) eqn:Ha; [|discriminate].
    intros (u & s' & -> & Hu & (w & -> & Hw)%IH)%star_greedy_sound.
    exists (String a (u ++ w)).
    change (String a (u ++ w) ++ rest) with (String a ((u ++ w) ++ rest)).
    rewrite append_assoc. split; [reflexivity|]. eauto 8.
  - intros (u & s' & -> & Hu & (w & -> & Hw)%IH)%star_lazy_sound.
    exists (u ++ w). rewrite append_assoc. eauto 6.
Qed.

Lemma star_greedy_complete (c : Re.cclass) (k : string → option string) :
  ∀ u s', all_cls c u = true → is_Some (k s') →
    is_Some (Re.star_greedy c k (u ++ s')).
Proof.
  induction u as [|a u IH]; intros s' Hu Hk.
  - change ("" ++ s') with s'. destruct s' as [|a s']; cbn [Re.star_greedy];
      [assumption|].
    destruct (Re.cls c a); [|assumption].
    now destruct (Re.star_greedy c k s').
  - cbn [all_cls] in Hu. apply andb_true_iff in Hu as [Ha Hu].
    change (String a u ++ s') with (String a (u ++ s')).
    cbn [Re.star_greedy]. rewrite Ha.
    destruct (IH s' Hu Hk) as [r ->]. eauto.
Qed.

Lemma star_lazy_complete (c : Re.cclass) (k : string → option string) :
  ∀ u s', all_cls c u = true → is_Some (k s') →
    is_Some (Re.star_lazy c k (u ++ s')).
Proof.
  induction u as [|a u IH]; intros s' Hu Hk.
  - change ("" ++ s') with s'. destruct Hk as [r Hr].
    destruct s'; cbn [Re.star_lazy]; rewrite Hr; eauto.
  - cbn [all_cls] in Hu. apply andb_true_iff in Hu as [Ha Hu].
    change (String a u ++ s') with (String a (u ++ s')).
    cbn [Re.star_lazy]. rewrite Ha.
    destruct (k (String a (u ++ s'))); [eauto|]. now apply IH.
Qed.

(** Backtracking loses no match: where a word of the pattern opens the
    subject, the matcher finds a match. *)
Lemma match_here_complete (p : list Re.item) :
  ∀ w rest, reads p w → is_Some (Re.match_here p (w ++ rest)).
Proof.
  induction p as [|[l|c|c|c|c|c] p IH]; intros w rest; cbn [Re.match_here reads].
  - intros ->. eauto.
  - intros (w' & -> & Hw). rewrite append_assoc, strip_app. now apply IH.
  - intros (a & w' & -> & Ha & Hw).
    change (String a w' ++ rest) with (String a (w' ++ rest)). cbv beta iota.
    rewrite Ha. now apply IH.
  - intros [(a & w' & -> & Ha & Hw)|Hw].
    + change (String a w' ++ rest) with (String a (w' ++ rest)). cbv beta iota.
      rewrite Ha. destruct (IH w' rest Hw) as [r ->]. eauto.
    + destruct (w ++ rest) as [|a s] eqn:E; [rewrite <- E; now apply IH|].
      destruct (Re.cls c a); [|rewrite <- E; now apply IH].
      destruct (Re.match_here p s); [eauto|]. rewrite <- E. now apply IH.
  - intros (u & w' & -> & Hu & Hw). rewrite append_assoc.
    apply star_greedy_complete; [assumption|now apply IH].
  - intros (a & u & w' & -> & Ha & Hu & Hw).
    change (String a (u ++ w') ++ rest) with (String a ((u ++ w') ++ rest)).
    cbv beta iota.
    rewrite Ha, append_assoc.
    apply star_greedy_complete; [assumption|now apply IH].
  - intros (u & w' & -> & Hu & Hw). rewrite append_assoc.
    apply star_lazy_complete; [assumption|now apply IH].
Qed.

(** The text a search returns is a word of the pattern and a substring of
    the subject. *)
Lemma search_sound (p : list Re.item) :
  ∀ s g, Re.search p s = Some g →
    reads p g ∧ ∃ pre post, s = pre ++ g ++ post.
Proof.
  assert (∀ s rest g,
            Re.match_here p s = Some rest →
            Some (substring 0 (String.length s - String.length rest) s) = Some g →
            reads p g ∧ ∃ pre post, s = pre ++ g ++ post) as Hhere.
  { intros s0 rest g (w & -> & Hw)%match_here_sound.
    rewrite length_append, Nat.add_sub, substring_prefix. intros [= <-].
    split; [assumption|]. now exists "", rest. }
  induction s as [|a s IH]; intros g.
  - destruct (Re.match_here p "") as [rest|] eqn:E.
    + rewrite (search_here _ _ rest E). now apply Hhere.
    + cbn [Re.search]. now rewrite E.
  - destruct (Re.match_here p (String a s)) as [rest|] eqn:E.
    + rewrite (search_here _ _ rest E). now apply Hhere.
    + rewrite (search_skip _ _ _ E).
      intros (Hg & pre & post & ->)%IH. split; [assumption|].
      now exists (String a pre), post.
Qed.

(** X1: [pattern.search(s)] finds a match exactly when some substring of [s]
    is a word of the pattern, and the text of the match it returns is such a
    substring. *)
Theorem search_finds (p : list Re.item) (s : string) :
  (∀ g, Re.search p s = Some g →
        reads p g ∧ ∃ pre post, s = pre ++ g ++ post)
  ∧ (is_Some (Re.search p s)
     ↔ ∃ pre g post, s = pre ++ g ++ post ∧ reads p g).
Proof.
  split; [apply search_sound|]. split.
  - intros [g Hg]. destruct (search_sound p s g Hg) as (Hr & pre & post & E).
    eauto.
  - intros (pre & g & post & -> & Hg).
    induction pre as [|a pre IH].
    + change ("" ++ g ++ post) with (g ++ post).
      destruct (match_here_complete p g post Hg) as [rest Hrest].
      rewrite (search_here _ _ rest Hrest). eauto.
    + change (String a pre ++ g ++ post) with (String a (pre ++ g ++ post)).
      cbn [Re.search].
      destruct (Re.match_here p (String a (pre ++ g ++ post))); [eauto|].
      exact IH.
Qed.

End Searches.

(** ** The rows of the table *)

Section Rows.

Local Open Scope string_scope.

Lemma prefix_spec (o s : string) :
  String.prefix o s = true → ∃ t, s = o ++ t.
Proof.
  revert s. induction o as [|x o IH]; intros s.
  - intros _. now exists s.
  - destruct s as [|a s]; cbn [String.prefix]; [discriminate|].
    destruct (ascii_dec x a) as [->|]; [|discriminate].
    intros [t ->]%IH. now exists t.
Qed.

Lemma prefix_app (o s : string) : String.prefix o (o ++ s) = true.
Proof.
  induction o as [|x o IH]; [now destruct s|].
  change (String x o ++ s) with (String x (o ++ s)). cbn [String.prefix].
  now destruct (ascii_dec x x).
Qed.

Lemma contains_app (c : ascii) (a b : string) :
  PyStr.contains c (a ++ b) = PyStr.contains c a || PyStr.contains c b.
Proof.
  induction a as [|x a IH]; [reflexivity|].
  change (String x a ++ b) with (String x (a ++ b)). cbn [PyStr.contains].
  now destruct (Ascii.eqb x c).
Qed.

Lemma occurs_prefix (n s : string) : String.prefix n s = true → occurs n s = true.
Proof. intros H. destruct s; cbn [occurs]; now rewrite H. Qed.

Lemma occurs_cons (n : string) (a : ascii) (s : string) :
  occurs n s = true → occurs n (String a s) = true.
Proof. intros H. cbn [occurs]. now destruct (String.prefix n (String a s)). Qed.

Lemma occurs_app_r (n a s : string) : occurs n s = true → occurs n (a ++ s) = true.
Proof.
  intros H. induction a as [|x a IH]; [exact H|].
  change (String x a ++ s) with (String x (a ++ s)). now apply occurs_cons.
Qed.

Lemma occurs_infix (n pre post : string) : occurs n (pre ++ n ++ post) = true.
Proof. apply occurs_app_r, occurs_prefix, prefix_app. Qed.

Lemma occurs_app_l (n a s : string) : occurs n a = true → occurs n (a ++ s) = true.
Proof.
  induction a as [|x a IH]; cbn [occurs].
  - destruct (String.prefix n "") eqn:E; [|discriminate]. intros _.
    apply prefix_spec in E as [t E]. destruct n; [|discriminate].
    destruct s; reflexivity.
  - destruct (String.prefix n (String x a)) eqn:E.
    + intros _. apply prefix_spec in E as [t E]. rewrite E, append_assoc.
      apply occurs_prefix, prefix_app.
    + intros H. change (String x a ++ s) with (String x (a ++ s)).
      now apply occurs_cons, IH.
Qed.

(** The text [fromRegex] finds opens with the label and holds an at sign
    and the letters [com]; so does the text [toRegex] finds. *)
Lemma reads_fromRegex (g : string) :
  reads fromRegex g →
  String.prefix "From:" g = true ∧ PyStr.contains "@" g = true
  ∧ occurs "com" g = true.
Proof.
  cbn [reads fromRegex].
  intros (w1 & -> & ws & w2 & -> & _ & a & u & w3 & -> & _ & _ & Hopt).
  assert (∃ w4, reads [Re.Star Re.CWord; Re.One (Re.CChar "@");
                       Re.Plus Re.CWord; Re.One Re.CDot; Re.Lit "com"] w4
                ∧ ∃ x, w3 = x ++ w4) as (w4 & Hw4 & x & ->).
  { destruct Hopt as [(d & w4 & -> & _ & H)|H].
    - exists w4. split; [exact H|]. now exists (String d "").
    - exists w3. split; [exact H|]. now exists "". }
  cbn [reads] in Hw4.
  destruct Hw4 as (u1 & w5 & -> & _ & at_ & w6 & -> & Hat & b & u2 & w7 & ->
                   & _ & _ & d & w8 & -> & _ & w9 & -> & ->).
  apply Ascii.eqb_eq in Hat as ->.
  split; [apply prefix_app|]. split.
  - rewrite !contains_app. cbn [PyStr.contains].
    rewrite !contains_app. cbn [PyStr.contains Ascii.eqb Bool.eqb orb].
    repeat match goal with |- context [if ?c then _ else _] => destruct c end;
      now rewrite ?orb_true_r.
  - apply occurs_app_r, occurs_cons, occurs_cons, occurs_app_r, occurs_app_r,
      occurs_app_r, occurs_cons, occurs_cons, occurs_app_r, occurs_cons.
    apply occurs_prefix, prefix_app.
Qed.

Lemma reads_toRegex (g : string) :
  reads toRegex g →
  String.prefix "To:" g = true ∧ PyStr.contains "@" g = true
  ∧ occurs "com" g = true.
Proof.
  cbn [reads toRegex].
  intros (w1 & -> & ws & w2 & -> & _ & a & u & w3 & -> & _ & _ & Hopt).
  assert (∃ w4, reads [Re.Star Re.CWord; Re.One (Re.CChar "@");
                       Re.Plus Re.CWord; Re.One Re.CDot; Re.Lit "com";
                       Re.Lazy Re.CDot; Re.One (Re.CChar PyStr.LF)] w4
                ∧ ∃ x, w3 = x ++ w4) as (w4 & Hw4 & x & ->).
  { destruct Hopt as [(d & w4 & -> & _ & H)|H].
    - exists w4. split; [exact H|]. now exists (String d "").
    - exists w3. split; [exact H|]. now exists "". }
  cbn [reads] in Hw4.
  destruct Hw4 as (u1 & w5 & -> & _ & at_ & w6 & -> & Hat & b & u2 & w7 & ->
                   & _ & _ & d & w8 & -> & _ & w9 & -> & _).
  apply Ascii.eqb_eq in Hat as ->.
  split; [apply prefix_app|]. split.
  - rewrite !contains_app. cbn [PyStr.contains].
    rewrite !contains_app. cbn [PyStr.contains Ascii.eqb Bool.eqb orb].
    repeat match goal with |- context [if ?c then _ else _] => destruct c end;
      now rewrite ?orb_true_r.
  - apply occurs_app_r, occurs_cons, occurs_cons, occurs_app_r, occurs_app_r,
      occurs_app_r, occurs_cons, occurs_cons, occurs_app_r, occurs_cons.
    apply occurs_prefix, prefix_app.
Qed.

(** What a message must hold for a search to find something in it. *)
Lemma found_needs (p : list Re.item) (label message g : string) :
  (∀ g, reads p g →
        String.prefix label g = true ∧ PyStr.contains "@" g = true
        ∧ occurs "com" g = true) →
  Re.search p message = Some g →
  occurs label message = true ∧ PyStr.contains "@" message = true
  ∧ occurs "com" message = true ∧ PyStr.contains "@" g = true.
Proof.
  intros Hshape Hg.
  destruct (search_sound p message g Hg) as (Hr & pre & post & ->).
  destruct (Hshape g Hr) as (Hl & Hat & Hcom).
  apply prefix_spec in Hl as [t El].
  repeat split.
  - rewrite El, append_assoc. apply occurs_infix.
  - rewrite !contains_app, Hat. now rewrite orb_true_r.
  - now apply occurs_app_r, occurs_app_l.
  - exact Hat.
Qed.

(** X2: a message in which [From:], [To:], an at sign or the letters [com]
    do not occur adds no row to the table and raises nothing, whatever its
    other headers are. *)
Theorem message_without_address_dropped (st : frame) (message : string) :
  occurs "From:" message = false ∨ occurs "To:" message = false
  ∨ PyStr.contains "@" message = false ∨ occurs "com" message = false →
  loop_body st message = Ok st ∧ build [message] = Ok [].
Proof.
  intros Hmiss.
  assert (Re.search fromRegex message = None
          ∨ Re.search toRegex message = None) as Hnone.
  { destruct (Re.search fromRegex message) as [gf|] eqn:Ef; [|now left].
    destruct (Re.search toRegex message) as [gt|] eqn:Et; [|now right].
    exfalso.
    destruct (found_needs _ _ _ _ reads_fromRegex Ef) as (H1 & H2 & H3 & _).
    destruct (found_needs _ _ _ _ reads_toRegex Et) as (H4 & _).
    destruct Hmiss as [H|[H|[H|H]]]; congruence. }
  split; [now apply loop_body_drop|].
  rewrite build_in_order. cbn [edges_in_order]. unfold edges_of.
  destruct Hnone as [-> | ->]; [reflexivity|].
  now destruct (Re.search fromRegex message).
Qed.

Lemma message_without_address_dropped_witness :
  loop_body {| links := []; links_index := 0 |} msg_no_from
  = Ok {| links := []; links_index := 0 |}
  ∧ build [msg_no_from] = Ok [].
Proof.
  apply (message_without_address_dropped _ msg_no_from).
  left. vm_compute. reflexivity.
Defined.

(** Removing the occurrences of [old] keeps every character that is not
    one of [old]'s. *)
Lemma replace_go_keeps (c : ascii) (old : string) :
  old ≠ "" → PyStr.contains c old = false →
  ∀ s skip u t,
    s = u ++ t → String.length u = skip →
    PyStr.contains c u = false → PyStr.contains c t = true →
    PyStr.contains c (PyStr.replace_go old "" s skip) = true.
Proof.
  intros Hne Hold. induction s as [|a s IH]; intros skip u t E Hlen Hu Ht.
  - destruct u; [|discriminate]. change ("" ++ t) with t in E. subst t.
    discriminate.
  - destruct skip as [|n]; cbn [PyStr.replace_go].
    + destruct u; [|discriminate]. change ("" ++ t) with t in E. subst t.
      destruct (String.prefix old (String a s)) eqn:Hp.
      * apply prefix_spec in Hp as [t' Et'].
        destruct old as [|x old]; [congruence|]. cbn [PyStr.contains] in Hold.
        destruct (Ascii.eqb x c) eqn:Hx; [discriminate|].
        change (String x old ++ t') with (String x (old ++ t')) in Et'.
        injection Et' as -> ->.
        cbn [PyStr.contains] in Ht. rewrite Hx, contains_app, Hold in Ht.
        replace (String.length (String x old) - 1)%nat with (String.length old)
          by (cbn [String.length]; lia).
        now apply (IH _ old t').
      * cbn [PyStr.contains] in Ht |- *.
        destruct (Ascii.eqb a c); [reflexivity|]. now apply (IH 0%nat "" s).
    + destruct u as [|b u]; [discriminate|].
      change (String b u ++ t) with (String b (u ++ t)) in E.
      injection E as Hab Hs. subst b. cbn [PyStr.contains] in Hu.
      destruct (Ascii.eqb a c); [discriminate|].
      cbn [String.length] in Hlen. apply (IH n u t); auto.
Qed.

Lemma replace_keeps (c : ascii) (old s : string) :
  old ≠ "" → PyStr.contains c old = false → PyStr.contains c s = true →
  PyStr.contains c (PyStr.replace old "" s) = true.
Proof.
  intros Hne Hold Hs. now apply (replace_go_keeps c old Hne Hold s 0%nat "" s).
Qed.

(** Removing a character leaves none of it. *)
Lemma replace_char_removes (c : ascii) (s : string) :
  PyStr.contains c (PyStr.replace (String c "") "" s) = false.
Proof.
  unfold PyStr.replace.
  induction s as [|a s IH]; [reflexivity|].
  cbn [PyStr.replace_go String.prefix String.length Nat.sub].
  destruct (ascii_dec c a) as [->|Hne].
  - now destruct s.
  - cbn [PyStr.contains]. destruct (Ascii.eqb_spec a c); [congruence|exact IH].
Qed.

(** The pieces of a split hold characters of the text only. *)
Lemma split_go_chars (c : ascii) (sep : string) :
  ∀ s skip, PyStr.contains c s = false →
    Forall (fun piece => PyStr.contains c piece = false)
           (PyStr.split_go sep s skip).
Proof.
  induction s as [|a s IH]; intros skip Hs; cbn [PyStr.split_go].
  - now repeat constructor.
  - cbn [PyStr.contains] in Hs.
    destruct (Ascii.eqb a c) eqn:Ha; [discriminate|].
    destruct skip as [|n]; [|now apply IH].
    destruct (String.prefix sep (String a s)).
    + constructor; [reflexivity|now apply IH].
    + specialize (IH 0%nat Hs).
      destruct (PyStr.split_go sep s 0) as [|piece pieces].
      * repeat constructor. cbn [PyStr.contains]. now rewrite Ha.
      * inversion IH as [|? ? Hp Hps]; subst.
        constructor; [|assumption]. cbn [PyStr.contains]. now rewrite Ha.
Qed.

Lemma recipients_fields (m_to : string) :
  PyStr.contains "@" m_to = true → PyStr.contains PyStr.LF m_to = false →
  Forall (fun address => address ≠ "" ∧ PyStr.contains PyStr.LF address = false)
         (recipients m_to).
Proof.
  intros Hat Hlf. unfold recipients.
  destruct (PyStr.contains "," m_to).
  - apply Forall_forall. intros address [Hin Hne]%list_elem_of_In%filter_In.
    split; [now intros ->|].
    pose proof (split_go_chars PyStr.LF ", " m_to 0 Hlf) as Hall.
    rewrite Forall_forall in Hall. now apply Hall, list_elem_of_In.
  - repeat constructor; [|assumption]. intros ->. discriminate.
Qed.

(** The rows of one message. *)
Lemma edges_of_fields (message : string) (es : list Edge) :
  edges_of message = Ok es →
  Forall (fun e => To e ≠ "" ∧ PyStr.contains "@" (From e) = true
                   ∧ PyStr.contains PyStr.LF (Date e) = false
                   ∧ PyStr.contains PyStr.LF (To e) = false) es.
Proof.
  unfold edges_of.
  destruct (Re.search fromRegex message) as [gf|] eqn:Ef;
    [|intros [= <-]; constructor].
  destruct (Re.search toRegex message) as [gt|] eqn:Et;
    [|intros [= <-]; constructor].
  destruct (Re.search dateRegex message) as [gd|]; [|discriminate].
  intros [= <-].
  destruct (found_needs _ _ _ _ reads_fromRegex Ef) as (_ & _ & _ & Hf).
  destruct (found_needs _ _ _ _ reads_toRegex Et) as (_ & _ & _ & Ht).
  assert (PyStr.contains "@" (clean_to gt) = true) as Hat
    by (unfold clean_to; now repeat apply replace_keeps).
  assert (PyStr.contains PyStr.LF (clean_to gt) = false) as Hlf
    by apply replace_char_removes.
  pose proof (recipients_fields _ Hat Hlf) as Hrec.
  apply Forall_map. eapply Forall_impl; [exact Hrec|].
  intros address [Hne Hno]. cbn [To From Date].
  split; [assumption|]. split; [now apply replace_keeps|].
  split; [apply replace_char_removes|assumption].
Qed.

(** X3: in every table the loop builds, no row has an empty recipient, every
    sender holds an at sign, and neither the date nor the recipient of a row
    holds a line feed. *)
Theorem rows_well_formed (data : list string) (es : list Edge) :
  build data = Ok es →
  Forall (fun e => To e ≠ "" ∧ PyStr.contains "@" (From e) = true
                   ∧ PyStr.contains PyStr.LF (Date e) = false
                   ∧ PyStr.contains PyStr.LF (To e) = false) es.
Proof.
  rewrite build_in_order. revert es.
  induction data as [|message data IH]; intros es; cbn [edges_in_order].
  - intros [= <-]. constructor.
  - destruct (edges_of message) as [es1|] eqn:E1;
      cbn [mbind result_bind]; [|discriminate].
    destruct (edges_in_order data) as [es2|];
      cbn [mbind result_bind mret result_ret]; [|discriminate].
    intros [= <-]. apply Forall_app. split; [|now apply IH].
    now apply (edges_of_fields message).
Qed.

Lemma rows_well_formed_witness :
  Forall (fun e => To e ≠ "" ∧ PyStr.contains "@" (From e) = true
                   ∧ PyStr.contains PyStr.LF (Date e) = false
                   ∧ PyStr.contains PyStr.LF (To e) = false)
         [mkEdge "Mon, 14 May 2001 16:39:00 -0700 (PDT)"
                 "phillip.allen@enron.com" "a@x.com";
          mkEdge "Mon, 14 May 2001 16:39:00 -0700 (PDT)"
                 "phillip.allen@enron.com" "b@x.com";
          mkEdge "Mon, 14 May 2001 16:39:00 -0700 (PDT)"
                 "phillip.allen@enron.com" "c@x.com"].
Proof. apply (rows_well_formed [msg_three]). vm_compute. reflexivity. Defined.

(** X4: the loop raises exactly on the batches that hold a message in which
    [fromRegex] and [toRegex] find something and [dateRegex] does not; on
    every other batch it returns a table. *)
Theorem build_raises_iff (data : list string) :
  (build data = Raise AttributeError ↔ ∃ message, message ∈ data ∧ raises message = true)
  ∧ ((∀ message, message ∈ data → raises message = false)
     → ∃ es, build data = Ok es).
Proof.
  rewrite build_in_order.
  assert (∀ message,
            (raises message = true ∧ edges_of message = Raise AttributeError)
            ∨ (raises message = false ∧ ∃ es, edges_of message = Ok es)) as Hone.
  { intros message. unfold raises, edges_of.
    destruct (Re.search fromRegex message), (Re.search toRegex message),
      (Re.search dateRegex message); eauto. }
  induction data as [|message data [IH1 IH2]]; cbn [edges_in_order].
  - split; [|eauto]. split; [discriminate|].
    intros (message & Hin & _). now apply elem_of_nil in Hin.
  - destruct (Hone message) as [[Hr ->]|[Hr [es1 ->]]];
      cbn [mbind result_bind].
    + split.
      * split; [|reflexivity]. intros _. exists message. split; [left|assumption].
      * intros Hall. rewrite (Hall message) in Hr by left. discriminate.
    + split.
      * destruct (edges_in_order data) as [es2|[]];
          cbn [mbind result_bind mret result_ret].
        -- split; [discriminate|].
           intros (m & [->|Hin]%elem_of_cons & Hm); [congruence|].
           assert (Ok es2 = Raise AttributeError) as C by (apply IH1; eauto).
           discriminate C.
        -- split; [|reflexivity]. intros _.
           destruct (proj1 IH1 eq_refl) as (m & Hin & Hm).
           exists m. split; [now right|assumption].
      * intros Hall. destruct IH2 as [es2 ->].
        { intros m Hin. apply Hall. now right. }
        cbn [mbind result_bind mret result_ret]. eauto.
Qed.

Lemma build_raises_iff_witness :
  ∃ es, build [msg_three; msg_no_from; msg_one] = Ok es.
Proof.
  apply (proj2 (build_raises_iff [msg_three; msg_no_from; msg_one])).
  intros message Hin. repeat apply elem_of_cons in Hin as [->|Hin];
    [vm_compute; reflexivity..|]. now apply elem_of_nil in Hin.
Defined.

End Rows.

(** ** Cell 5 on a table that already holds rows *)

Section Rerun.

Local Open Scope nat_scope.

(** The inner loop adds one row per non-empty address, in any state. *)
Lemma addresses_loop_rows (date m_from : string) (addresses : list string) :
  ∀ st,
    fold_left (fun st address =>
                 if String.eqb address "" then st
                 else add_link date m_from address st) addresses st
    = fold_left (fun st e => add_link (Date e) (From e) (To e) st)
                (map (mkEdge date m_from)
                     (List.filter (fun address => negb (String.eqb address ""))
                                  addresses)) st.
Proof.
  induction addresses as [|address addresses IH]; intros st;
    cbn [fold_left List.filter map]; [reflexivity|].
  destruct (String.eqb address ""); cbn [negb map fold_left]; apply IH.
Qed.

Lemma loop_body_rows (st : frame) (message : string) :
  loop_body st message
  = (es ← edges_of message;
     mret (fold_left (fun st e => add_link (Date e) (From e) (To e) st) es st)).
Proof.
  unfold loop_body, edges_of.
  destruct (Re.search fromRegex message) as [mf_group|],
           (Re.search toRegex message) as [me_group|];
    cbn [mbind result_bind mret result_ret]; try reflexivity.
  destruct (Re.search dateRegex message) as [date_group|];
    cbn [mbind result_bind mret result_ret]; [|reflexivity].
  fold (clean_date date_group) (clean_from mf_group) (clean_to me_group).
  unfold recipients.
  destruct (PyStr.contains "," (clean_to me_group)).
  - now rewrite addresses_loop_rows.
  - reflexivity.
Qed.

Lemma loop_rows (data : list string) :
  ∀ st,
    loop data st
    = (es ← edges_in_order data;
       mret (fold_left (fun st e => add_link (Date e) (From e) (To e) st) es st)).
Proof.
  induction data as [|message data IH]; intros st; cbn [loop edges_in_order];
    [reflexivity|].
  rewrite loop_body_rows.
  destruct (edges_of message) as [es|e];
    cbn [mbind result_bind mret result_ret]; [|reflexivity].
  rewrite IH.
  destruct (edges_in_order data) as [rest|e];
    cbn [mbind result_bind mret result_ret]; [|reflexivity].
  now rewrite fold_left_app.
Qed.

(** A row written at label [length done] replaces the row that stands there,
    or enlarges the table when none does. *)
Lemma add_link_over (done rest : list Edge) (e : Edge) :
  add_link (Date e) (From e) (To e)
           {| links := done ++ rest; links_index := length done |}
  = {| links := (done ++ [e]) ++ drop 1 rest;
       links_index := length (done ++ [e]) |}.
Proof.
  unfold add_link, loc_set. cbn [links links_index].
  rewrite !length_app. cbn [length]. destruct e as [d f t]. cbn [Date From To].
  f_equal. destruct rest as [|r rest]; cbn [length drop].
  - rewrite Nat.add_0_r, Nat.ltb_irrefl. now rewrite !app_nil_r.
  - destruct (Nat.ltb_spec (length done) (length done + S (length rest))); [|lia].
    rewrite insert_app_r_alt, Nat.sub_diag by lia. cbn [insert list_insert].
    now rewrite <- app_assoc.
Qed.

Lemma add_rows_over (rows : list Edge) :
  ∀ done rest,
    fold_left (fun st e => add_link (Date e) (From e) (To e) st) rows
              {| links := done ++ rest; links_index := length done |}
    = {| links := (done ++ rows) ++ drop (length rows) rest;
         links_index := length (done ++ rows) |}.
Proof.
  induction rows as [|e rows IH]; intros done rest; cbn [fold_left length].
  - now rewrite drop_0, !app_nil_r.
  - rewrite add_link_over, IH, drop_drop, <- !app_assoc. reflexivity.
Qed.

(** X5: run on a table [old] that already holds rows (cell 5 resets
    [links_index] and not [links]), the loop overwrites the table from label
    0: its rows come first and the rows of [old] beyond them stay.  Run again
    on its own result, it leaves the table as it is. *)
Theorem cell5_overwrites (data : list string) (old es : list Edge) :
  build data = Ok es →
  loop data {| links := old; links_index := 0 |}
  = Ok {| links := es ++ drop (length es) old; links_index := length es |}
  ∧ loop data {| links := es; links_index := 0 |}
    = Ok {| links := es; links_index := length es |}.
Proof.
  rewrite build_in_order. intros Hes.
  assert (∀ old,
            loop data {| links := old; links_index := 0 |}
            = Ok {| links := es ++ drop (length es) old;
                    links_index := length es |}) as Hover.
  { intros old'. rewrite loop_rows, Hes. cbn [mbind result_bind mret result_ret].
    f_equal. exact (add_rows_over es [] old'). }
  split; [apply Hover|]. rewrite Hover. now rewrite drop_all, app_nil_r.
Qed.

Lemma cell5_overwrites_witness :
  loop [msg_one]
       {| links := [mkEdge "d1" "f1" "t1"; mkEdge "d2" "f2" "t2"];
          links_index := 0 |}
  = Ok {| links := [mkEdge "Fri, 4 May 2001 13:51:00 -0700 (PDT)"
                           "phillip.allen@enron.com" "john.lavorato@enron.com";
                    mkEdge "d2" "f2" "t2"];
          links_index := 1 |}.
Proof.
  apply (cell5_overwrites [msg_one]
           [mkEdge "d1" "f1" "t1"; mkEdge "d2" "f2" "t2"]
           [mkEdge "Fri, 4 May 2001 13:51:00 -0700 (PDT)"
                   "phillip.allen@enron.com" "john.lavorato@enron.com"]).
  vm_compute. reflexivity.
Defined.

End Rerun.

(** ** Binary64: NaN, the zeros and the infinity *)

Module Special.

Lemma nan_spec (x : float) : Prim2SF x = S754_nan → x = nan.
Proof. intros H. now apply Prim2SF_inj. Qed.

Lemma add_nan_l (x : float) : nan + x = nan.
Proof. apply nan_spec. now rewrite add_spec. Qed.

Lemma add_nan_r (x : float) : x + nan = nan.
Proof.
  apply nan_spec. rewrite add_spec. unfold SF64add.
  change (Prim2SF nan) with S754_nan. now destruct (Prim2SF x) as [[|]|[|]| |].
Qed.

Lemma sub_nan_l (x : float) : nan - x = nan.
Proof. apply nan_spec. now rewrite sub_spec. Qed.

Lemma sub_nan_r (x : float) : x - nan = nan.
Proof.
  apply nan_spec. rewrite sub_spec. unfold SF64sub.
  change (Prim2SF nan) with S754_nan. now destruct (Prim2SF x) as [[|]|[|]| |].
Qed.

Lemma div_nan_l (x : float) : nan / x = nan.
Proof. apply nan_spec. now rewrite div_spec. Qed.

Lemma div_nan_r (x : float) : x / nan = nan.
Proof.
  apply nan_spec. rewrite div_spec. unfold SF64div.
  change (Prim2SF nan) with S754_nan. now destruct (Prim2SF x) as [[|]|[|]| |].
Qed.

Lemma ltb_nan_l (x : float) : (nan <? x) = false.
Proof. now rewrite ltb_spec. Qed.

Lemma ltb_nan_r (x : float) : (x <? nan) = false.
Proof.
  rewrite ltb_spec. change (Prim2SF nan) with S754_nan.
  now destruct (Prim2SF x) as [[|]|[|]| |].
Qed.

Lemma ltb_infinity_l (x : float) : (infinity <? x) = false.
Proof.
  rewrite ltb_spec. change (Prim2SF infinity) with (S754_infinity false).
  now destruct (Prim2SF x) as [[|]|[|]| |[|] m e].
Qed.

(** [Math.min] and [Math.max] give NaN as soon as an operand is NaN. *)
Lemma SFmin_nan_r (x : spec_float) : SF.min x S754_nan = S754_nan.
Proof.
  destruct x as [[|]|[|]| |s m e]; try reflexivity.
  now rewrite Binary64.SFmin_finite_l.
Qed.

Lemma SFmax_nan_r (x : spec_float) : SF.max x S754_nan = S754_nan.
Proof.
  destruct x as [[|]|[|]| |s m e]; try reflexivity.
  now rewrite Binary64.SFmax_finite_l.
Qed.

Lemma min_nan (a b : float) : a = nan ∨ b = nan → Jvm.min a b = nan.
Proof.
  intros H. apply nan_spec. rewrite Binary64.Prim2SF_min.
  destruct H as [-> | ->]; [reflexivity|apply SFmin_nan_r].
Qed.

Lemma max_nan (a b : float) : a = nan ∨ b = nan → Jvm.max a b = nan.
Proof.
  intros H. apply nan_spec. rewrite Binary64.Prim2SF_max.
  destruct H as [-> | ->]; [reflexivity|apply SFmax_nan_r].
Qed.

(** The two zeros are the floats equal to [0.0]. *)
Lemma zero_spec (x : float) :
  (x =? 0) = true → ∃ s, Prim2SF x = S754_zero s.
Proof.
  rewrite FloatAxioms.eqb_spec. change (Prim2SF 0) with (S754_zero false).
  destruct (Prim2SF x) as [s|[|]| |[|] m e]; try discriminate. eauto.
Qed.

(** A zero divided by a zero, the least and the greatest of two zeros being
    zeros. *)
Lemma ratio_zeros (x y : float) :
  (x =? 0) = true → (y =? 0) = true → Jvm.min x y / Jvm.max x y = nan.
Proof.
  intros [sx Hx]%zero_spec [sy Hy]%zero_spec. apply nan_spec.
  rewrite div_spec, Binary64.Prim2SF_min, Binary64.Prim2SF_max, Hx, Hy.
  now destruct sx, sy.
Qed.

Lemma add_0_l (x : float) : Jvm.is_neg_zero x = false → 0 + x = x.
Proof.
  intros N. apply Prim2SF_inj. rewrite add_spec. unfold SF64add.
  change (Prim2SF 0) with (S754_zero false).
  destruct (Prim2SF x) as [[|]|[|]| |s m e] eqn:E; try reflexivity.
  apply Binary64.is_neg_zero_spec in E. congruence.
Qed.

End Special.

(** ** Similarity: degenerate counts, windows and thresholds *)

Section Degenerate.

Implicit Types (m : Map) (key : Z) (weight : float).

Lemma fold_left_poisoned {A : Type} (f : float → A → float) (xs : list A)
    (x : A) :
  x ∈ xs → (∀ weight, f weight x = nan) → (∀ y, f nan y = nan) →
  ∀ weight, fold_left f xs weight = nan.
Proof.
  intros Hin Hx Hnan.
  assert (∀ ys, fold_left f ys nan = nan) as Hstay.
  { induction ys as [|y ys IH]; cbn [fold_left]; [reflexivity|].
    now rewrite Hnan. }
  induction xs as [|y xs IH]; intros weight; cbn [fold_left].
  - now apply elem_of_nil in Hin.
  - apply elem_of_cons in Hin as [<-|Hin]; [now rewrite Hx|now apply IH].
Qed.

Lemma fold_left_fixed {A : Type} (f : float → A → float) (xs : list A)
    (w : float) :
  (∀ y, f w y = w) → fold_left f xs w = w.
Proof.
  intros Hw. induction xs as [|y xs IH]; cbn [fold_left]; [reflexivity|].
  now rewrite Hw.
Qed.

Lemma get_keySet m key (v : float) : get m key = Some v → key ∈ keySet m.
Proof. intros H%get_Some_elem. apply elem_of_keySet. eauto. Qed.

(** X6: a common key whose count is NaN in one of the series makes the
    similarity NaN, whatever [isFiltered] is; without normalisation, so does a
    common key whose count is a zero in both series. *)
Theorem compareTimeSeries_nan (m1 m2 : Map) (key : Z) (v1 v2 : float) :
  get m1 key = Some v1 → get m2 key = Some v2 →
  (v1 = nan ∨ v2 = nan →
   ∀ isFiltered, compareTimeSeries m1 m2 isFiltered = nan)
  ∧ ((v1 =? 0) = true → (v2 =? 0) = true →
     compareTimeSeries m1 m2 false = nan).
Proof.
  intros H1 H2.
  assert (key ∈ commonKeys_of m1 m2) as Hin.
  { apply elem_of_commonKeys_of. split; eapply get_keySet; eauto. }
  assert (∀ (sim : Z → float),
            sim key = nan →
            fold_left (fun weight key =>
                         if 0.5 <? sim key then weight + sim key
                         else weight - sim key)
                      (commonKeys_of m1 m2) 0 = nan) as Hfold.
  { intros sim Hsim. apply (fold_left_poisoned _ _ key Hin).
    - intros weight. now rewrite Hsim, Special.ltb_nan_r, Special.sub_nan_r.
    - intros y. destruct (0.5 <? sim y);
        [apply Special.add_nan_l|apply Special.sub_nan_l]. }
  split.
  - intros Hv isFiltered. rewrite compareTimeSeries_normalised.
    apply (Hfold (fun key =>
             ratio (apply m1 key / Jvm.Int2Double (Freq isFiltered (keysSize m1)))
                   (apply m2 key / Jvm.Int2Double (Freq isFiltered (keysSize m2))))).
    unfold ratio, apply. rewrite H1, H2. cbn [default].
    rewrite Special.min_nan, Special.div_nan_l; [reflexivity|].
    destruct Hv as [-> | ->]; [left|right]; apply Special.div_nan_l.
  - intros Hz1 Hz2. rewrite compareTimeSeries_normalised.
    apply (Hfold (fun key =>
             ratio (apply m1 key / Jvm.Int2Double (Freq false (keysSize m1)))
                   (apply m2 key / Jvm.Int2Double (Freq false (keysSize m2))))).
    unfold ratio, apply, Freq. rewrite H1, H2. cbn [default].
    rewrite Int2Double_1, !Binary64.div_1. now apply Special.ratio_zeros.
Qed.

Lemma compareTimeSeries_nan_witness :
  (∀ isFiltered, compareTimeSeries tsNaN tsA isFiltered = nan)
  ∧ compareTimeSeries tsZero tsZero false = nan.
Proof.
  split.
  - apply (proj1 (compareTimeSeries_nan tsNaN tsA 1 nan 2 eq_refl eq_refl)).
    now left.
  - apply (proj2 (compareTimeSeries_nan tsZero tsZero 1 0 0 eq_refl eq_refl));
      reflexivity.
Defined.

Lemma window_empty (start stop : Z) (keys : list Z) :
  (stop ≤ start + 1)%Z →
  filter (fun hour => inWindow start stop hour = true) keys = [].
Proof.
  intros Hw. induction keys as [|key keys IH]; [reflexivity|].
  rewrite filter_cons_False; [exact IH|]. rewrite inWindow_spec. lia.
Qed.

(** X7: a window that holds no bucket ([stop ≤ start + 1], so also a
    reversed one) gives exactly 0.0, in the windowed similarity and in the
    correlation. *)
Theorem empty_window (m1 m2 : Map) (start stop : Z) :
  (stop ≤ start + 1)%Z →
  (∀ upperBoundActivationsNumber isFiltered lambda,
     compareTimeSeries_window m1 m2 start stop upperBoundActivationsNumber
                              isFiltered lambda = 0)
  ∧ (∀ Math_pow isFiltered,
       pearsonCorrelation Math_pow m1 m2 start stop isFiltered = 0).
Proof.
  intros Hw. split.
  - intros upperBoundActivationsNumber isFiltered lambda.
    unfold compareTimeSeries_window. now rewrite window_empty.
  - intros Math_pow isFiltered. unfold pearsonCorrelation, sortedCommonKeys.
    now rewrite window_empty.
Qed.

Lemma empty_window_witness :
  (∀ upperBoundActivationsNumber isFiltered lambda,
     compareTimeSeries_window tsA tsB 1 2 upperBoundActivationsNumber
                              isFiltered lambda = 0)
  ∧ (∀ Math_pow isFiltered, pearsonCorrelation Math_pow tsA tsB 1 2 isFiltered = 0).
Proof. apply (empty_window tsA tsB 1 2). lia. Defined.

(** X8: with the threshold NaN or plus infinity no ratio is above it, and the
    windowed similarity is exactly 0.0 on every input. *)
Theorem window_threshold_never_met (m1 m2 : Map) (start stop : Z)
    (upperBoundActivationsNumber : Z) (isFiltered : bool) :
  compareTimeSeries_window m1 m2 start stop upperBoundActivationsNumber
                           isFiltered nan = 0
  ∧ compareTimeSeries_window m1 m2 start stop upperBoundActivationsNumber
                             isFiltered infinity = 0.
Proof.
  unfold compareTimeSeries_window, foreach.
  split; (destruct (isEmpty _); [reflexivity|]); apply fold_left_fixed;
    intros key; cbv zeta; now rewrite ?Special.ltb_nan_l, ?Special.ltb_infinity_l.
Qed.

Lemma countInWindow_pos (start stop : Z) (keys : list Z) key :
  key ∈ keys → inWindow start stop key = true →
  (1 ≤ countInWindow start stop keys)%Z.
Proof.
  intros Hin Hw. unfold countInWindow.
  assert (key ∈ filter (fun key => inWindow start stop key = true) keys) as Hk
    by now apply list_elem_of_filter.
  destruct (filter _ keys); [now apply elem_of_nil in Hk|].
  cbn [length]. lia.
Qed.

Lemma countInWindow_le (start stop : Z) (keys : list Z) :
  (countInWindow start stop keys ≤ Z.of_nat (length keys))%Z.
Proof.
  unfold countInWindow. apply Nat2Z.inj_le, length_filter.
Qed.

Lemma keysSize_aboveBound (upperBoundActivationsNumber : Z) m :
  (keysSize (aboveBound upperBoundActivationsNumber m) ≤ keysSize m)%Z.
Proof.
  unfold keysSize, keySet, aboveBound. rewrite !length_fmap.
  apply Nat2Z.inj_le, length_filter.
Qed.

(** X9: whenever the windowed similarity or the correlation has a key to
    walk, its two frequency divisors are at least 1 and their [Double]s are
    not 0.0 (and so is the sample size [n] of the correlation), and the
    function is the sum in which every value is divided by them: no loop
    divides by a zero frequency.  (The sizes of the series are [Int]s.) *)
Theorem window_divisors_positive (m1 m2 : Map) (start stop : Z)
    (isFiltered : bool) :
  (keysSize m1 < 2 ^ 31)%Z → (keysSize m2 < 2 ^ 31)%Z →
  (∀ upperBoundActivationsNumber lambda,
     let a := aboveBound upperBoundActivationsNumber m1 in
     let b := aboveBound upperBoundActivationsNumber m2 in
     let keys :=
       filter (fun hour => inWindow start stop hour = true) (commonKeys_of a b) in
     let aFreq := Freq isFiltered (countInWindow start stop (keySet a)) in
     let bFreq := Freq isFiltered (countInWindow start stop (keySet b)) in
     keys ≠ [] →
     (1 ≤ aFreq)%Z ∧ (1 ≤ bFreq)%Z
     ∧ (Jvm.Int2Double aFreq =? 0) = false
     ∧ (Jvm.Int2Double bFreq =? 0) = false
     ∧ compareTimeSeries_window m1 m2 start stop upperBoundActivationsNumber
                                isFiltered lambda
       = thresholded_sum a b keys aFreq bFreq lambda)
  ∧ (∀ Math_pow,
       is_Map m1 → is_Map m2 →
       let commonKeys := sortedCommonKeys m1 m2 start stop in
       let n := Z.of_nat (length commonKeys) in
       let m1Freq := Freq isFiltered (countInWindow start stop (keySet m1)) in
       let m2Freq := Freq isFiltered (countInWindow start stop (keySet m2)) in
       commonKeys ≠ [] →
       (1 ≤ m1Freq)%Z ∧ (1 ≤ m2Freq)%Z ∧ (1 ≤ n)%Z
       ∧ (Jvm.Int2Double m1Freq =? 0) = false
       ∧ (Jvm.Int2Double m2Freq =? 0) = false
       ∧ (Jvm.Int2Double n =? 0) = false
       ∧ pearsonCorrelation Math_pow m1 m2 start stop isFiltered
         = fold_left (fun sum block =>
                        sum + pearson_term Math_pow m1 m2 n m1Freq m2Freq block)
                     (blocks 24 commonKeys) 0).
Proof.
  intros Hs1 Hs2.
  assert (2 ^ 31 < 2 ^ 53)%Z as Hpow by reflexivity.
  assert (∀ (keys : list Z) key,
            key ∈ keys → inWindow start stop key = true →
            (1 ≤ Freq isFiltered (countInWindow start stop keys))%Z) as Hpos.
  { intros keys key Hin Hw. unfold Freq. destruct isFiltered; [|lia].
    now apply (countInWindow_pos start stop keys key). }
  assert (∀ keys : list Z,
            (Z.of_nat (length keys) < 2 ^ 31)%Z →
            (Freq isFiltered (countInWindow start stop keys) < 2 ^ 53)%Z) as Hlt.
  { intros keys Hlen. pose proof (countInWindow_le start stop keys).
    unfold Freq. destruct isFiltered; lia. }
  split.
  - intros ub lambda a b keys aFreq bFreq Hne.
    destruct keys as [|key keys'] eqn:E; [contradiction|].
    assert (key ∈ keys) as Hkey by (rewrite E; left).
    apply list_elem_of_filter in Hkey as [Hw [Ha Hb]%elem_of_commonKeys_of].
    pose proof (keysSize_aboveBound ub m1) as Hl1.
    pose proof (keysSize_aboveBound ub m2) as Hl2.
    fold a in Hl1. fold b in Hl2. unfold keysSize in *.
    split; [now apply (Hpos _ key)|]. split; [now apply (Hpos _ key)|].
    split; [apply Binary64.Int2Double_nonzero; split;
            [now apply (Hpos _ key)|apply Hlt; lia]|].
    split; [apply Binary64.Int2Double_nonzero; split;
            [now apply (Hpos _ key)|apply Hlt; lia]|].
    rewrite <- E. apply compareTimeSeries_window_sum.
  - intros Math_pow H1 H2 commonKeys n m1Freq m2Freq Hne.
    destruct commonKeys as [|key keys'] eqn:E; [contradiction|].
    assert (key ∈ sortedCommonKeys m1 m2 start stop) as Hkey
      by (fold commonKeys; rewrite E; left).
    apply elem_of_sortedCommonKeys in Hkey as (Hk1 & Hk2 & Hw%inWindow_spec).
    assert (Z.of_nat (length (sortedCommonKeys m1 m2 start stop))
            ≤ Z.of_nat (length (keySet m2)))%Z as Hn.
    { rewrite sortedCommonKeys_perm. unfold intersect.
      apply Nat2Z.inj_le. etransitivity; apply length_filter. }
    fold commonKeys in Hn. rewrite E in Hn. fold n in Hn.
    assert (1 ≤ n)%Z as Hn1 by (unfold n; cbn [length]; lia).
    unfold keysSize in *.
    split; [now apply (Hpos _ key)|]. split; [now apply (Hpos _ key)|].
    split; [exact Hn1|].
    split; [apply Binary64.Int2Double_nonzero; split;
            [now apply (Hpos _ key)|apply Hlt; lia]|].
    split; [apply Binary64.Int2Double_nonzero; split;
            [now apply (Hpos _ key)|apply Hlt; lia]|].
    split; [apply Binary64.Int2Double_nonzero; lia|].
    unfold n. rewrite <- E. now apply pearsonCorrelation_blocks.
Qed.

Lemma window_divisors_positive_witness :
  (1 ≤ Freq true (countInWindow 0 3 (keySet (aboveBound 0 tsA))))%Z
  ∧ (1 ≤ Freq true (countInWindow 0 3 (keySet (aboveBound 0 tsB))))%Z
  ∧ (Jvm.Int2Double (Freq true (countInWindow 0 3 (keySet (aboveBound 0 tsA))))
     =? 0) = false
  ∧ (Jvm.Int2Double (Freq true (countInWindow 0 3 (keySet (aboveBound 0 tsB))))
     =? 0) = false
  ∧ compareTimeSeries_window tsA tsB 0 3 0 true 0.5
    = thresholded_sum (aboveBound 0 tsA) (aboveBound 0 tsB)
        (filter (fun hour => inWindow 0 3 hour = true)
                (commonKeys_of (aboveBound 0 tsA) (aboveBound 0 tsB)))
        (Freq true (countInWindow 0 3 (keySet (aboveBound 0 tsA))))
        (Freq true (countInWindow 0 3 (keySet (aboveBound 0 tsB)))) 0.5.
Proof.
  apply (proj1 (window_divisors_positive tsA tsB 0 3 true eq_refl eq_refl)
           0%Z 0.5).
  discriminate.
Defined.

End Degenerate.

(** ** The window: what lies outside it does not count *)

Section Locality.

Variable Math_pow : float → float → float.
Variables start stop : Z.

Implicit Types (m : Map) (key : Z).

Lemma get_inside m key :
  inWindow start stop key = true → get (inside start stop m) key = get m key.
Proof.
  intros Hw. unfold inside. induction m as [|[k v] m IH]; [reflexivity|].
  cbn [get]. destruct (decide (k = key)) as [->|Hne].
  - rewrite (filter_cons_True
               (fun pair : Z * float => inWindow start stop pair.1 = true))
      by exact Hw.
    cbn [get]. now rewrite decide_True.
  - destruct (decide (inWindow start stop k = true)) as [Hk|Hk].
    + rewrite (filter_cons_True
                 (fun pair : Z * float => inWindow start stop pair.1 = true))
        by exact Hk.
      cbn [get]. now rewrite decide_False.
    + now rewrite (filter_cons_False
                     (fun pair : Z * float => inWindow start stop pair.1 = true))
        by exact Hk.
Qed.

Lemma apply_inside m key :
  inWindow start stop key = true → apply (inside start stop m) key = apply m key.
Proof. intros Hw. unfold apply. now rewrite get_inside. Qed.

Lemma keySet_inside m :
  keySet (inside start stop m)
  = filter (fun key => inWindow start stop key = true) (keySet m).
Proof.
  unfold inside.
  exact (keySet_filter_key (fun key => inWindow start stop key = true) m).
Qed.

(** Dropping the low values and dropping what is outside the window can be
    done in either order. *)
Lemma aboveBound_inside (upperBoundActivationsNumber : Z) m :
  aboveBound upperBoundActivationsNumber (inside start stop m)
  = inside start stop (aboveBound upperBoundActivationsNumber m).
Proof.
  unfold aboveBound, inside. rewrite !list_filter_filter.
  apply list_filter_iff. tauto.
Qed.

Lemma countInWindow_inside m :
  countInWindow start stop (keySet (inside start stop m))
  = countInWindow start stop (keySet m).
Proof.
  unfold countInWindow. rewrite keySet_inside.
  now rewrite list_filter_filter_l by tauto.
Qed.

(** The common keys inside the window. *)
Lemma window_commonKeys_inside (a b : Map) :
  filter (fun hour => inWindow start stop hour = true)
         (commonKeys_of (inside start stop a) (inside start stop b))
  = filter (fun hour => inWindow start stop hour = true) (commonKeys_of a b).
Proof.
  unfold commonKeys_of. rewrite !keySet_inside, !list_filter_filter.
  apply list_filter_iff. intros key. rewrite list_elem_of_filter. tauto.
Qed.

Lemma common_inside m (block : list Z) (mFreq : Z) :
  Forall (fun key => inWindow start stop key = true) block →
  common (inside start stop m) block mFreq = common m block mFreq.
Proof.
  intros Hblock. unfold common, inside. f_equal.
  rewrite list_filter_filter. apply list_filter_iff. intros [k v]. cbn [fst].
  rewrite Forall_forall in Hblock. split; [tauto|]. intros Hin.
  split; [assumption|]. now apply Hblock.
Qed.

(** X10: the windowed similarity and the correlation read the two series
    strictly inside [(start, stop)] only: the entries of a series at the
    bounds or outside them change neither result. *)
Theorem window_locality (m1 m2 : Map) :
  (∀ upperBoundActivationsNumber isFiltered lambda,
     compareTimeSeries_window (inside start stop m1) (inside start stop m2)
       start stop upperBoundActivationsNumber isFiltered lambda
     = compareTimeSeries_window m1 m2 start stop upperBoundActivationsNumber
                                isFiltered lambda)
  ∧ (∀ isFiltered,
       pearsonCorrelation Math_pow (inside start stop m1) (inside start stop m2)
                          start stop isFiltered
       = pearsonCorrelation Math_pow m1 m2 start stop isFiltered).
Proof.
  split.
  - intros ub isFiltered lambda. rewrite !compareTimeSeries_window_sum.
    cbv zeta. rewrite !aboveBound_inside, !countInWindow_inside,
      window_commonKeys_inside.
    unfold thresholded_sum. apply fold_left_ext_in.
    intros weight key [Hw _]%list_elem_of_filter.
    now rewrite !apply_inside.
  - intros isFiltered. unfold pearsonCorrelation, sortedCommonKeys, foreach.
    rewrite !countInWindow_inside.
    change (intersect (keySet (inside start stop m2))
                      (keySet (inside start stop m1)))
      with (commonKeys_of (inside start stop m1) (inside start stop m2)).
    rewrite window_commonKeys_inside.
    change (commonKeys_of m1 m2) with (intersect (keySet m2) (keySet m1)).
    fold (sortedCommonKeys m1 m2 start stop).
    destruct (length _ =? 0)%nat; [reflexivity|].
    apply fold_left_ext_in. intros sum t _. unfold pearson_body.
    assert (Forall (fun key => inWindow start stop key = true)
                   (slice t (t + 24) (sortedCommonKeys m1 m2 start stop)))
      as Hblock.
    { apply Forall_forall. intros key Hkey.
      pose proof (elem_of_sublist _ _ _ Hkey
                    (slice_sublist (sortedCommonKeys m1 m2 start stop) t))
        as (_ & _ & Hw)%elem_of_sortedCommonKeys.
      now apply inWindow_spec. }
    now rewrite !(common_inside _ _ _ Hblock).
Qed.

(** Up to 24 common keys make one block. *)
Lemma blocks_single (keys : list Z) :
  (1 ≤ length keys ≤ 24)%nat → blocks 24 keys = [keys].
Proof.
  intros Hlen. unfold blocks, until_by.
  replace ((length keys + 24 - 1) / 24)%nat with 1%nat.
  - cbn [seq map]. unfold slice. cbn [Nat.mul Nat.add].
    now rewrite drop_0, take_ge by lia.
  - apply Nat.div_unique with (r := (length keys - 1)%nat); lia.
Qed.

(** X11: with at most 24 common keys inside the window there is one block,
    and the correlation is the Pearson term of all the common keys: the
    numerator and the denominator over the values of the common keys, each
    divided by the frequency of its series, with the number of common keys
    as the sample size. *)
Theorem pearson_single_block (m1 m2 : Map) (isFiltered : bool) :
  is_Map m1 → is_Map m2 →
  let commonKeys := sortedCommonKeys m1 m2 start stop in
  (1 ≤ length commonKeys ≤ 24)%nat →
  let n := Jvm.Int2Double (Z.of_nat (length commonKeys)) in
  let value1 key :=
    apply m1 key
    / Jvm.Int2Double (Freq isFiltered (countInWindow start stop (keySet m1))) in
  let value2 key :=
    apply m2 key
    / Jvm.Int2Double (Freq isFiltered (countInWindow start stop (keySet m2))) in
  let keys1 := filter (fun key => key ∈ commonKeys) (keySet m1) in
  let keys2 := filter (fun key => key ∈ commonKeys) (keySet m2) in
  let sum1 := fold_left (fun acc key => acc + value1 key) keys1 0 in
  let sum2 := fold_left (fun acc key => acc + value2 key) keys2 0 in
  let sum1Sq := fold_left (fun acc key => acc + Math_pow (value1 key) 2) keys1 0 in
  let sum2Sq := fold_left (fun acc key => acc + Math_pow (value2 key) 2) keys2 0 in
  let pSum :=
    fold_left (fun acc key => acc + value1 key * value2 key) commonKeys 0 in
  let numerator := pSum - sum1 * sum2 / n in
  let denominator :=
    PrimFloat.sqrt ((sum1Sq - Math_pow sum1 2 / n)
                    * (sum2Sq - Math_pow sum2 2 / n)) in
  pearsonCorrelation Math_pow m1 m2 start stop isFiltered
  = 0 + (if denominator =? 0 then 0 else numerator / denominator)
  ∧ keys1 ≡ₚ commonKeys ∧ keys2 ≡ₚ commonKeys.
Proof.
  intros H1 H2 commonKeys Hlen. cbv zeta. split.
  - rewrite pearsonCorrelation_blocks by assumption.
    fold commonKeys. now rewrite blocks_single.
  - pose proof (sortedCommonKeys_sorted m1 m2 start stop H2) as [_ Hnd].
    split; apply (block_keys _ commonKeys); try assumption; try reflexivity;
      intros key (Hk1 & Hk2 & _)%elem_of_sortedCommonKeys; assumption.
Qed.

End Locality.

Lemma pearson_single_block_witness :
  pearsonCorrelation (fun x _ => x * x) tsA tsRamp 0 4 true
  = 0 + pearson_term (fun x _ => x * x) tsA tsRamp 2 2 3 [1%Z; 2%Z].
Proof.
  refine (proj1 (pearson_single_block (fun x _ => x * x) 0 4 tsA tsRamp true
                   (proj1 is_Map_samples)
                   (proj2 (proj2 (proj2 is_Map_samples))) _)).
  vm_compute. lia.
Defined.

(** ** The other utilities *)

Section Utilities.

Lemma fold_left_add_map {A : Type} (f : A → float) (xs : list A) (acc : float) :
  fold_left (fun a e => a + f e) xs acc = fold_left PrimFloat.add (map f xs) acc.
Proof.
  revert acc. induction xs as [|x xs IH]; intros acc; cbn [fold_left map];
    [reflexivity|apply IH].
Qed.

(** X12: the two [mean]s agree on every map that is not empty, read as the
    list of its values; on the empty map [mean] is NaN ([0.0 / 0]), where
    [mean] of the empty list is 0.0. *)
Theorem mean_Map_List (m : Map) :
  (m ≠ [] → mean_Map m = mean_List (values m))
  ∧ mean_Map [] = nan ∧ mean_List [] = 0.
Proof.
  split; [|split; reflexivity].
  intros Hne. unfold mean_Map, mean_List, valuesSum.
  rewrite <- (length_fmap snd m). fold (values m).
  destruct (values m) as [|v vs] eqn:E; [|reflexivity].
  apply (f_equal length) in E. unfold values in E. rewrite length_fmap in E.
  now apply nil_length_inv in E.
Qed.

Lemma mean_Map_List_witness : mean_Map tsA = mean_List (values tsA).
Proof. apply (proj1 (mean_Map_List tsA)). discriminate. Defined.

(** X13: [stddev] is the square root of the [mean] of the squared
    deviations, on every list: on the empty one both give 0.0. *)
Theorem stddev_mean (Math_pow : float → float → float) (xs : list float)
    (avg : float) :
  stddev Math_pow xs avg
  = PrimFloat.sqrt (mean_List (map (fun e => Math_pow (e - avg) 2) xs)).
Proof.
  destruct xs as [|x xs]; [reflexivity|].
  unfold stddev, mean_List.
  now rewrite (fold_left_add_map (fun e => Math_pow (e - avg) 2)), !length_map.
Qed.

(** X14: the mean of one value that is not the negative zero is that value,
    for the list and for the map. *)
Theorem mean_single (key : Z) (x : float) :
  Jvm.is_neg_zero x = false →
  mean_List [x] = x ∧ mean_Map [(key, x)] = x.
Proof.
  intros Hx. unfold mean_Map, mean_List, valuesSum, values.
  cbn [fmap list_fmap snd fold_left length].
  change (Jvm.Int2Double (Z.of_nat 1)) with 1.
  now rewrite Binary64.div_1, Special.add_0_l.
Qed.

Lemma mean_single_witness :
  mean_List [2.5] = 2.5 ∧ mean_Map [(7%Z, 2.5)] = 2.5.
Proof. apply (mean_single 7 2.5). reflexivity. Defined.

Local Open Scope string_scope.

Lemma isAllDigits_app (s t : string) :
  isAllDigits (s ++ t) = isAllDigits s && isAllDigits t.
Proof.
  induction s as [|c s IH]; [reflexivity|].
  change (String c s ++ t) with (String c (s ++ t)). cbn [isAllDigits].
  now rewrite IH, andb_assoc.
Qed.

(** X15: [isAllDigits] accepts the empty string, accepts a concatenation
    exactly when it accepts both parts, and rejects every string that holds
    a character other than ['0' .. '9'] (a sign, a point, a space). *)
Theorem isAllDigits_spec :
  isAllDigits "" = true
  ∧ (∀ s t, isAllDigits (s ++ t) = isAllDigits s && isAllDigits t)
  ∧ (∀ s c t, isDigit c = false → isAllDigits (s ++ String c t) = false)
  ∧ (∀ s, isAllDigits s = true
          ↔ ∀ pre c post, s = pre ++ String c post →
                          (48 ≤ nat_of_ascii c ≤ 57)%nat).
Proof.
  split; [reflexivity|]. split; [apply isAllDigits_app|]. split.
  - intros s c t Hc. rewrite isAllDigits_app. cbn [isAllDigits].
    now rewrite Hc, andb_false_r.
  - assert (∀ c, isDigit c = true ↔ (48 ≤ nat_of_ascii c ≤ 57)%nat) as Hd.
    { intros c. unfold isDigit, Re.in_range.
      rewrite andb_true_iff, !Nat.leb_le. reflexivity. }
    induction s as [|a s IH]; cbn [isAllDigits].
    + split; [|reflexivity]. intros _ [|] c post; discriminate.
    + rewrite andb_true_iff, Hd, IH. split.
      * intros [Ha Hs] [|b pre] c post.
        -- intros [= -> ->]. exact Ha.
        -- change (String b pre ++ String c post)
             with (String b (pre ++ String c post)).
           intros [= -> ->]. now apply (Hs pre c post).
      * intros Hall. split.
        -- now apply (Hall "" a s).
        -- intros pre c post ->. now apply (Hall (String a pre) c post).
Qed.

End Utilities.

(** ** [mapToList] *)

Section MapToList.

Local Open Scope Z_scope.

Implicit Types (kvs m : Map).

(** The loop of [mapToList] after a throw. *)
Lemma fill_thrown kvs (e : throwable) :
  fold_left (fun array kv =>
               match array with
               | Returns array => array_update array kv.1 kv.2
               | Throws e => Throws e
               end) kvs (Throws e) = Throws e.
Proof. induction kvs as [|kv kvs IH]; [reflexivity|exact IH]. Qed.

Lemma array_update_in_range (array : list float) (k : Z) (v : float) :
  0 ≤ k < Z.of_nat (length array) →
  array_update array k v = Returns (<[Z.to_nat k := v]> array).
Proof.
  intros Hk. unfold array_update.
  destruct (Z.leb_spec 0 k); [|lia].
  destruct (Z.ltb_spec k (Z.of_nat (length array))); [reflexivity|lia].
Qed.

Lemma array_update_out_of_range (array : list float) (k : Z) (v : float) :
  ¬ (0 ≤ k < Z.of_nat (length array)) →
  array_update array k v = Throws ArrayIndexOutOfBoundsException.
Proof.
  intros Hk. unfold array_update.
  destruct (Z.leb_spec 0 k); [|reflexivity].
  destruct (Z.ltb_spec k (Z.of_nat (length array))); [lia|reflexivity].
Qed.

(** Entries whose keys are all in range: the loop returns, and the array
    keeps its length. *)
Lemma fill_returns kvs :
  ∀ array : list float,
    Forall (fun kv => 0 ≤ kv.1 < Z.of_nat (length array)) kvs →
    ∃ array',
      fold_left (fun array kv =>
                   match array with
                   | Returns array => array_update array kv.1 kv.2
                   | Throws e => Throws e
                   end) kvs (Returns array) = Returns array'
      ∧ length array' = length array.
Proof.
  induction kvs as [|[k v] kvs IH]; intros array Hall.
  - now exists array.
  - apply Forall_cons in Hall as [Hkv Hall]. cbn [fst snd] in *.
    cbn [fold_left fst snd]. rewrite array_update_in_range by assumption.
    destruct (IH (<[Z.to_nat k := v]> array)) as (array' & -> & Hlen).
    { now rewrite length_insert. }
    rewrite length_insert in Hlen. now exists array'.
Qed.

(** With distinct keys, each entry is written to its cell and stays there,
    and the other cells are left as they were. *)
Lemma fill_cells kvs :
  is_Map kvs →
  ∀ array array' : list float,
    fold_left (fun array kv =>
                 match array with
                 | Returns array => array_update array kv.1 kv.2
                 | Throws e => Throws e
                 end) kvs (Returns array) = Returns array' →
    ∀ i : nat,
      (i < length array)%nat →
      array' !! i
      = match get kvs (Z.of_nat i) with
        | Some v => Some v
        | None => array !! i
        end.
Proof.
  unfold is_Map. induction kvs as [|[k v] kvs IH]; intros Hnd array array' Hfill.
  - cbn [fold_left] in Hfill. injection Hfill as <-. reflexivity.
  - rewrite fmap_cons in Hnd. cbn [fst] in Hnd.
    apply NoDup_cons in Hnd as [Hk Hnd].
    cbn [fold_left fst snd] in Hfill.
    destruct (decide (0 ≤ k < Z.of_nat (length array))) as [Hin|Hout].
    + rewrite array_update_in_range in Hfill by assumption.
      intros i Hi. rewrite (IH Hnd _ _ Hfill i) by now rewrite length_insert.
      cbn [get]. destruct (decide (k = Z.of_nat i)) as [->|Hne].
      * destruct (get kvs (Z.of_nat i)) as [w|] eqn:E.
        -- destruct Hk. change (Z.of_nat i ∈ keySet kvs).
           apply elem_of_keySet. exists w. now apply get_Some_elem.
        -- rewrite Nat2Z.id. now apply list_lookup_insert_eq.
      * destruct (get kvs (Z.of_nat i)); [reflexivity|].
        apply list_lookup_insert_ne. lia.
    + rewrite array_update_out_of_range, fill_thrown in Hfill by assumption.
      discriminate Hfill.
Qed.

Lemma fill_out_of_range kvs :
  ∀ array : list float,
    Exists (fun kv => ¬ (0 ≤ kv.1 < Z.of_nat (length array))) kvs →
    fold_left (fun array kv =>
                 match array with
                 | Returns array => array_update array kv.1 kv.2
                 | Throws e => Throws e
                 end) kvs (Returns array)
    = Throws ArrayIndexOutOfBoundsException.
Proof.
  induction kvs as [|[k v] kvs IH]; intros array Hex.
  - now apply Exists_nil in Hex.
  - cbn [fold_left fst snd].
    destruct (decide (0 ≤ k < Z.of_nat (length array))) as [Hin|Hout].
    + rewrite array_update_in_range by assumption.
      apply IH. rewrite length_insert.
      apply Exists_cons in Hex as [Hhd|Htl]; [now cbn in Hhd|assumption].
    + rewrite array_update_out_of_range by assumption. apply fill_thrown.
Qed.

Lemma mapToList_in_range m (length : Z) :
  0 ≤ length → (∀ key, key ∈ keySet m → 0 ≤ key < length) →
  ∃ l, mapToList m length = Returns l ∧ List.length l = Z.to_nat length.
Proof.
  intros Hpos Hkeys. unfold mapToList, foreach.
  destruct (Z.ltb_spec length 0) as [|_]; [lia|].
  destruct (fill_returns m (replicate (Z.to_nat length) 0%float))
    as (l & -> & Hlen).
  { rewrite length_replicate, Z2Nat.id by assumption. apply Forall_forall.
    intros [key v] Hin. apply Hkeys, elem_of_keySet. eauto. }
  rewrite length_replicate in Hlen. now exists l.
Qed.

Lemma mapToList_returns_cells m (length : Z) (l : list float) :
  is_Map m → 0 ≤ length → mapToList m length = Returns l →
  ∀ i : nat, (i < Z.to_nat length)%nat → l !! i = Some (cell m i).
Proof.
  intros Hm Hpos. unfold mapToList, foreach.
  destruct (Z.ltb_spec length 0) as [|_]; [lia|].
  intros Hfill i Hi.
  rewrite (fill_cells m Hm _ _ Hfill i) by now rewrite length_replicate.
  unfold cell. destruct (get m (Z.of_nat i)); [reflexivity|].
  now apply lookup_replicate_2.
Qed.

Lemma mapToList_out_of_range m (length key : Z) :
  0 ≤ length → key ∈ keySet m → ¬ (0 ≤ key < length) →
  mapToList m length = Throws ArrayIndexOutOfBoundsException.
Proof.
  intros Hpos [v Hv]%elem_of_keySet Hout. unfold mapToList, foreach.
  destruct (Z.ltb_spec length 0) as [|_]; [lia|].
  apply fill_out_of_range. rewrite length_replicate, Z2Nat.id by assumption.
  apply Exists_exists. now exists (key, v).
Qed.

Lemma keys_in_range_dec m (length : Z) :
  (∀ key, key ∈ keySet m → 0 ≤ key < length)
  ∨ ∃ key, key ∈ keySet m ∧ ¬ (0 ≤ key < length).
Proof.
  destruct (decide (Forall (fun key => 0 ≤ key < length) (keySet m)))
    as [Hall|Hex].
  - left. now apply Forall_forall.
  - right. apply not_Forall_Exists in Hex; [|apply _].
    apply Exists_exists in Hex as (key & Hin & Hout). eauto.
Qed.

(** X16: [mapToList] throws [NegativeArraySizeException] exactly on a
    negative length, and [ArrayIndexOutOfBoundsException] exactly on a
    non-negative length and a map with a key below 0 or not below the
    length; in every other case it returns. *)
Theorem mapToList_throws m (length : Z) :
  (mapToList m length = Throws NegativeArraySizeException ↔ length < 0)
  ∧ (mapToList m length = Throws ArrayIndexOutOfBoundsException
     ↔ 0 ≤ length ∧ ∃ key, key ∈ keySet m ∧ ¬ (0 ≤ key < length))
  ∧ ((∃ l, mapToList m length = Returns l)
     ↔ 0 ≤ length ∧ ∀ key, key ∈ keySet m → 0 ≤ key < length).
Proof.
  destruct (Z.lt_ge_cases length 0) as [Hneg|Hpos].
  { unfold mapToList. destruct (Z.ltb_spec length 0) as [_|]; [|lia].
    split; [tauto|]. split; [split; [discriminate|lia]|].
    split; [intros [l Hl]; discriminate Hl|lia]. }
  destruct (keys_in_range_dec m length) as [Hkeys|(key & Hin & Hout)].
  - destruct (mapToList_in_range m length Hpos Hkeys) as (l & -> & _).
    split; [split; [discriminate|lia]|].
    split; [|split; eauto].
    split; [discriminate|]. intros (_ & key & Hin & Hout).
    now destruct Hout; apply Hkeys.
  - rewrite (mapToList_out_of_range m length key Hpos Hin Hout).
    split; [split; [discriminate|lia]|].
    split; [split; eauto|].
    split; [intros [l Hl]; discriminate Hl|].
    intros [_ Hkeys]. now destruct Hout; apply Hkeys.
Qed.

(** X17: when [mapToList] returns, the list has [length] elements, and its
    element [i] is the value of the map at [i], or 0.0 where the map has no
    key [i]. *)
Theorem mapToList_cells m (length : Z) (l : list float) :
  is_Map m →
  mapToList m length = Returns l →
  List.length l = Z.to_nat length
  ∧ ∀ i : nat, (i < Z.to_nat length)%nat → l !! i = Some (cell m i).
Proof.
  intros Hm Hl.
  destruct (Z.lt_ge_cases length 0) as [Hneg|Hpos].
  { revert Hl. unfold mapToList.
    destruct (Z.ltb_spec length 0) as [_|]; [discriminate|lia]. }
  split; [|now apply mapToList_returns_cells].
  destruct (keys_in_range_dec m length) as [Hkeys|(key & Hin & Hout)].
  - destruct (mapToList_in_range m length Hpos Hkeys) as (l' & Hl' & Hlen).
    rewrite Hl in Hl'. now injection Hl' as <-.
  - rewrite (mapToList_out_of_range m length key Hpos Hin Hout) in Hl.
    discriminate Hl.
Qed.

Lemma mapToList_cells_witness :
  List.length [0%float; 2%float; 4%float] = Z.to_nat 3
  ∧ ∀ i : nat, (i < Z.to_nat 3)%nat
               → [0%float; 2%float; 4%float] !! i = Some (cell tsA i).
Proof.
  apply (mapToList_cells tsA 3 _ (proj1 is_Map_samples)).
  vm_compute. reflexivity.
Defined.

Lemma get_index_map (xs : list float) :
  ∀ (j : nat) (k : Z),
    get (zip (Z.of_nat <$> seq j (List.length xs)) xs) k
    = if decide (Z.of_nat j ≤ k) then xs !! Z.to_nat (k - Z.of_nat j) else None.
Proof.
  induction xs as [|x xs IH]; intros j k;
    cbn [List.length seq fmap list_fmap zip zip_with get].
  - now case_decide.
  - destruct (decide (Z.of_nat j = k)) as [<-|Hne].
    + rewrite decide_True by lia. now rewrite Z.sub_diag.
    + change (zip_with pair (list_fmap nat Z Z.of_nat (seq (S j) (List.length xs))) xs)
        with (zip (Z.of_nat <$> seq (S j) (List.length xs)) xs).
      rewrite IH. repeat case_decide; try lia; try reflexivity.
      replace (Z.to_nat (k - Z.of_nat j)) with (S (Z.to_nat (k - Z.of_nat (S j))))
        by lia.
      reflexivity.
Qed.

Lemma is_Map_index_map (xs : list float) : is_Map (index_map xs).
Proof.
  unfold is_Map, index_map.
  rewrite fst_zip by now rewrite length_fmap, length_seq.
  apply (NoDup_fmap_2 _), NoDup_seq.
Qed.

(** X18: [mapToList] gives back every list from the map of its indices to its
    elements. *)
Theorem mapToList_index_map (xs : list float) :
  mapToList (index_map xs) (Z.of_nat (List.length xs)) = Returns xs.
Proof.
  assert (∀ k, get (index_map xs) k
               = if decide (0 ≤ k) then xs !! Z.to_nat k else None)
    as Hlookup.
  { intros k. unfold index_map. rewrite (get_index_map xs 0 k).
    now rewrite Z.sub_0_r. }
  destruct (mapToList_in_range (index_map xs) (Z.of_nat (List.length xs)))
    as (l & Hl & Hlen); [lia| |].
  { intros key Hkey%apply_get. rewrite Hlookup in Hkey.
    case_decide; [|discriminate]. apply lookup_lt_Some in Hkey. lia. }
  pose proof (mapToList_returns_cells _ _ _ (is_Map_index_map xs)
                (Nat2Z.is_nonneg _) Hl) as Hcells.
  rewrite Hl. f_equal. rewrite Nat2Z.id in Hlen, Hcells.
  apply list_eq. intros i.
  destruct (decide (i < List.length xs)%nat) as [Hi|Hi].
  - rewrite (Hcells i Hi). unfold cell. rewrite Hlookup, decide_True by lia.
    rewrite Nat2Z.id. destruct (lookup_lt_is_Some_2 xs i Hi) as [x ->].
    reflexivity.
  - rewrite !lookup_ge_None_2 by lia. reflexivity.
Qed.

End MapToList.

(** ** The To header is read on one line; the blocks are full but the last *)

Section OneLine.

Local Open Scope string_scope.

Lemma all_cls_no_LF (c : Re.cclass) (u : string) :
  Re.cls c PyStr.LF = false → all_cls c u = true →
  PyStr.contains PyStr.LF u = false.
Proof.
  intros Hc. induction u as [|a u IH]; [reflexivity|].
  cbn [all_cls PyStr.contains]. intros [Ha Hu]%andb_true_iff.
  destruct (Ascii.eqb_spec a PyStr.LF) as [->|]; [congruence|now apply IH].
Qed.

Lemma cls_no_LF (c : Re.cclass) (a : ascii) :
  Re.cls c PyStr.LF = false → Re.cls c a = true →
  PyStr.contains PyStr.LF (String a "") = false.
Proof.
  intros Hc Ha. cbn [PyStr.contains].
  destruct (Ascii.eqb_spec a PyStr.LF) as [->|]; [congruence|reflexivity].
Qed.

(** X19: the text [toRegex] finds is the label, one whitespace character and
    one line: it ends at the first line feed after the address, so the
    recipients of a To header that goes on over further lines are read from
    its first line only. *)
Theorem toRegex_one_line (message g : string) :
  Re.search toRegex message = Some g →
  ∃ ws body,
    g = "To:" ++ String ws (body ++ PyStr.nl)
    ∧ Re.is_space ws = true
    ∧ PyStr.contains PyStr.LF body = false.
Proof.
  intros [Hr _]%search_sound. revert Hr. cbn [reads toRegex].
  intros (w1 & -> & ws & w2 & -> & Hws & a & u & w3 & -> & Ha & Hu & Hopt).
  assert (∃ x w4, w3 = x ++ w4 ∧ PyStr.contains PyStr.LF x = false
                  ∧ reads [Re.Star Re.CWord; Re.One (Re.CChar "@");
                           Re.Plus Re.CWord; Re.One Re.CDot; Re.Lit "com";
                           Re.Lazy Re.CDot; Re.One (Re.CChar PyStr.LF)] w4)
    as (x & w4 & -> & Hx & Hw4).
  { destruct Hopt as [(d & w4 & -> & Hd & H)|H].
    - exists (String d ""), w4. split; [reflexivity|].
      split; [now apply (cls_no_LF (Re.CChar "."))|exact H].
    - now exists "", w3. }
  cbn [reads] in Hw4.
  destruct Hw4 as (u1 & w5 & -> & Hu1 & at_ & w6 & -> & Hat & b & u2 & w7 & ->
                   & Hb & Hu2 & d & w8 & -> & Hd & w9 & -> & u3 & w10 & ->
                   & Hu3 & lf & w11 & -> & Hlf & ->).
  apply Ascii.eqb_eq in Hlf as ->.
  exists ws,
    (String a u ++ x ++ u1 ++ String at_ (String b (u2 ++ String d ("com" ++ u3)))).
  assert (∀ c s t, String c s ++ t = String c (s ++ t)) as Hcons by reflexivity.
  split; [|split; [exact Hws|]].
  - unfold PyStr.nl. do 2 f_equal.
    repeat (rewrite append_assoc || rewrite Hcons). reflexivity.
  - repeat first [rewrite contains_app | rewrite Hcons
                  | progress cbn [PyStr.contains]].
    rewrite (all_cls_no_LF Re.CWord u), Hx, (all_cls_no_LF Re.CWord u1),
      (all_cls_no_LF Re.CWord u2), (all_cls_no_LF Re.CDot u3) by (reflexivity || assumption).
    rewrite (proj2 (Ascii.eqb_neq a PyStr.LF)), (proj2 (Ascii.eqb_neq at_ PyStr.LF)),
      (proj2 (Ascii.eqb_neq b PyStr.LF)), (proj2 (Ascii.eqb_neq d PyStr.LF));
      [reflexivity|intros ->; discriminate..].
Qed.

Lemma toRegex_one_line_witness :
  ∃ ws body,
    to_line_abc = "To:" ++ String ws (body ++ PyStr.nl)
    ∧ Re.is_space ws = true
    ∧ PyStr.contains PyStr.LF body = false.
Proof. apply (toRegex_one_line msg_three). vm_compute. reflexivity. Defined.

End OneLine.

Section Blocks.

Local Open Scope nat_scope.

(** X20: the keys are cut into [⌈n / 24⌉] blocks, and block [i] holds the
    keys [24 i .. 24 i + 23] of the sorted sequence: every block but the last
    holds exactly 24 keys. *)
Theorem blocks_shape (keys : list Z) :
  length (blocks 24 keys) = (length keys + 23) / 24
  ∧ ∀ i block,
      blocks 24 keys !! i = Some block →
      block = take 24 (drop (24 * i) keys)
      ∧ length block = Nat.min 24 (length keys - 24 * i)
      ∧ (i + 1 < length (blocks 24 keys) → length block = 24).
Proof.
  unfold blocks, until_by. rewrite !length_map, length_seq.
  replace (length keys + 24 - 1) with (length keys + 23) by lia.
  split; [reflexivity|]. intros i block.
  rewrite !list_lookup_fmap.
  destruct (seq 0 ((length keys + 23) / 24) !! i) as [j|] eqn:E; [|discriminate].
  apply lookup_seq in E as [-> Hi]. cbn [fmap option_fmap option_map Nat.add].
  intros [= <-]. unfold slice.
  replace (i * 24 + 24 - i * 24) with 24 by lia.
  replace (i * 24) with (24 * i) by lia.
  split; [reflexivity|]. rewrite length_take, length_drop.
  split; [reflexivity|]. intros Hlast.
  pose proof (Nat.div_mod_eq (length keys + 23) 24) as Hd.
  pose proof (Nat.mod_upper_bound (length keys + 23) 24) as Hm.
  lia.
Qed.

Lemma blocks_shape_witness :
  [1%Z; 2%Z] = take 24 (drop (24 * 0) [1%Z; 2%Z])
  ∧ length [1%Z; 2%Z] = Nat.min 24 (length [1%Z; 2%Z] - 24 * 0)
  ∧ (0 + 1 < length (blocks 24 [1%Z; 2%Z]) → length [1%Z; 2%Z] = 24).
Proof. apply (proj2 (blocks_shape [1%Z; 2%Z]) 0). reflexivity. Defined.

End Blocks.
